(** * middlewared: jobs, shared locks, job queue and websocket dispatch

    A shallow embedding of [middlewared/job.py] and of the dispatch path of
    [middlewared/main.py], with the properties of the design document
    stated over it.

    Python objects that are shared and mutated (jobs, shared locks) live in
    a store and are named by their address; everything else is passed by
    value.  A Python exception is a value of type [exn]; an operation that
    can raise returns a [result]. *)

From stdpp Require Import base option list gmap strings fin_maps.
From Stdlib Require Import ZArith Lia Ascii.

Set Warnings "-register-all".
Open Scope string_scope.
Open Scope Z_scope.

(** ** Python values and exceptions *)

(** The JSON-like values that travel in messages, parameters and replies.
    The code is Python 2: an integer is an [int] (a machine word, at most
    [sys.maxint]) or a [long]; the two are different types.  A dict is kept
    as an association list in the order its keys were written; the order
    in which Python iterates it is another matter, see [dict_order]. *)
Inductive value :=
  | VNone
  | VBool (b : bool)
  | VInt (n : Z)
  | VLong (n : Z)
  | VStr (s : string)
  | VList (l : list value)
  | VDict (d : list (string * value)).

(** [type(v).__name__] *)
Definition py_type_name (v : value) : string :=
  match v with
  | VNone => "NoneType"
  | VBool _ => "bool"
  | VInt _ => "int"
  | VLong _ => "long"
  | VStr _ => "str"
  | VList _ => "list"
  | VDict _ => "dict"
  end.

(** An exception: its class name, [str(e)], and whether its class derives
    from [Exception].  [SystemExit], [KeyboardInterrupt], [GeneratorExit]
    and gevent's [GreenletExit] and [Timeout] derive from [BaseException]
    alone: a handler [except Exception] lets them through, a bare
    [except:] catches them. *)
Record exn := Exn {
  exn_type : string;
  exn_str : string;
  exn_is_Exception : bool }.

(** What the interpreter and the platform decide, and the source does not:
    the largest [int], the text [traceback.format_exception] gives for an
    exception where it is caught (joined in one string), and the order in
    which a dict with the given items iterates its keys (the order of its
    hash table). *)
Record Python := mkPython {
  sys_maxint : Z;
  format_exception : exn -> string;
  dict_order : list (string * value) -> list string }.

Inductive result (A : Type) :=
  | Ok (a : A)
  | Raise (e : exn).
Arguments Ok {A} a.
Arguments Raise {A} e.

Definition AssertionError : exn := Exn "AssertionError" "" true.
Definition KeyError (key : string) : exn :=
  Exn "KeyError" ("'" ++ key ++ "'") true.
Definition ValueError (msg : string) : exn := Exn "ValueError" msg true.
Definition TypeError (msg : string) : exn := Exn "TypeError" msg true.
Definition AttributeError (msg : string) : exn := Exn "AttributeError" msg true.

(** Truth value of a Python object in a condition. *)
Definition truthy (v : value) : bool :=
  match v with
  | VNone => false
  | VBool b => b
  | VInt n => negb (n =? 0)
  | VLong n => negb (n =? 0)
  | VStr s => negb (String.eqb s "")
  | VList l => negb (Nat.eqb (length l) 0)
  | VDict d => negb (Nat.eqb (length d) 0)
  end.

(** [v == s] for a string literal [s]. *)
Definition py_eq_str (v : value) (s : string) : bool :=
  match v with
  | VStr t => String.eqb t s
  | _ => false
  end.

(** [d.get(k)]: the first binding of [k], [None] when there is none. *)
Fixpoint dict_find (d : list (string * value)) (k : string) : option value :=
  match d with
  | [] => None
  | (k', v) :: d' => if String.eqb k' k then Some v else dict_find d' k
  end.

Definition dict_get (d : list (string * value)) (k : string) : value :=
  match dict_find d k with
  | Some v => v
  | None => VNone
  end.

(** [d[k]]: raises [KeyError] when [k] is missing. *)
Definition dict_item (d : list (string * value)) (k : string) : result value :=
  match dict_find d k with
  | Some v => Ok v
  | None => Raise (KeyError k)
  end.

(** ** job.py: State *)

Inductive State := WAITING | RUNNING | SUCCESS | FAILED.

Definition State_value (s : State) : Z :=
  match s with
  | WAITING => 1
  | RUNNING => 2
  | SUCCESS => 3
  | FAILED => 4
  end.

Definition State_name (s : State) : string :=
  match s with
  | WAITING => "WAITING"
  | RUNNING => "RUNNING"
  | SUCCESS => "SUCCESS"
  | FAILED => "FAILED"
  end.

(** [State.__members__[name]] *)
Definition State_members (name : string) : result State :=
  if String.eqb name "WAITING" then Ok WAITING
  else if String.eqb name "RUNNING" then Ok RUNNING
  else if String.eqb name "SUCCESS" then Ok SUCCESS
  else if String.eqb name "FAILED" then Ok FAILED
  else Raise (KeyError name).

Definition State_eqb (a b : State) : bool := State_value a =? State_value b.

(** ** job.py: Job *)

(** What a callable is given: the session object (named by its session
    id), a job (named by its address in the store) or a plain value. *)
Inductive pyarg :=
  | AApp (sessionid : string)
  | AJob (job : nat)
  | AVal (v : value).

(** A method body is outside this development: it is taken as the
    function from its arguments to the value it returns or the exception
    it raises. *)
Definition callable := list pyarg -> result value.

(** The [lock] entry of a job's options: missing, a literal name, or a
    function of the job's arguments that gives the name (or [None]). *)
Inductive LockOption :=
  | LockAbsent
  | LockName (name : string)
  | LockCallable (f : list value -> option string).

Record Options := mkOptions { opt_lock : LockOption }.

Record Progress := mkProgress {
  percent : value;
  description : value }.

Record Job := mkJob {
  Job_method : callable;
  Job_args : list value;
  Job_options : Options;
  Job_id : option Z;
  Job_lock : option nat;        (* address of a JobSharedLock, or None *)
  Job_result : value;
  Job_state : State;
  Job_progress : Progress;
  Job_time_started : Z;
  Job_time_finished : option Z }.

(** [Job.__init__(self, method, args, options)]; [now] is what
    [datetime.now()] returns. *)
Definition Job_init (method : callable) (args : list value)
    (options : Options) (now : Z) : Job :=
  {| Job_method := method;
     Job_args := args;
     Job_options := options;
     Job_id := None;
     Job_lock := None;
     Job_result := VNone;
     Job_state := WAITING;
     Job_progress := {| percent := VNone; description := VNone |};
     Job_time_started := now;
     Job_time_finished := None |}.

Definition Job_set_id (j : Job) (id : Z) : Job :=
  {| Job_method := Job_method j; Job_args := Job_args j;
     Job_options := Job_options j; Job_id := Some id;
     Job_lock := Job_lock j; Job_result := Job_result j;
     Job_state := Job_state j; Job_progress := Job_progress j;
     Job_time_started := Job_time_started j;
     Job_time_finished := Job_time_finished j |}.

Definition Job_get_lock_name (j : Job) : option string :=
  match opt_lock (Job_options j) with
  | LockAbsent => None
  | LockName name => Some name
  | LockCallable f => f (Job_args j)
  end.

Definition Job_get_lock (j : Job) : option nat := Job_lock j.

(** The assignment [self.lock = lock] of [set_lock]; the call
    [self.lock.acquire()] that follows it is in [Job_set_lock] below,
    where the store of locks is in scope. *)
Definition Job_assign_lock (j : Job) (lock : option nat) : Job :=
  {| Job_method := Job_method j; Job_args := Job_args j;
     Job_options := Job_options j; Job_id := Job_id j;
     Job_lock := lock; Job_result := Job_result j;
     Job_state := Job_state j; Job_progress := Job_progress j;
     Job_time_started := Job_time_started j;
     Job_time_finished := Job_time_finished j |}.

Definition Job_set_result (j : Job) (r : value) : Job :=
  {| Job_method := Job_method j; Job_args := Job_args j;
     Job_options := Job_options j; Job_id := Job_id j;
     Job_lock := Job_lock j; Job_result := r;
     Job_state := Job_state j; Job_progress := Job_progress j;
     Job_time_started := Job_time_started j;
     Job_time_finished := Job_time_finished j |}.

(** [state in (a, b)] for the string [state]. *)
Definition str_in2 (s a b : string) : bool := String.eqb s a || String.eqb s b.

(** [Job.set_state(self, state)].  The three asserts run in order, then the
    member lookup; the two assignments happen only when all of them pass,
    so a raise leaves the job as it was. *)
Definition Job_set_state (now : Z) (j : Job) (state : string) : result Job :=
  if State_eqb (Job_state j) WAITING && str_in2 state "WAITING" "SUCCESS"
  then Raise AssertionError
  else if State_eqb (Job_state j) RUNNING && str_in2 state "WAITING" "RUNNING"
  then Raise AssertionError
  else if State_eqb (Job_state j) SUCCESS || State_eqb (Job_state j) FAILED
  then Raise AssertionError
  else
    match State_members state with
    | Raise e => Raise e
    | Ok s =>
        Ok {| Job_method := Job_method j; Job_args := Job_args j;
              Job_options := Job_options j; Job_id := Job_id j;
              Job_lock := Job_lock j; Job_result := Job_result j;
              Job_state := s; Job_progress := Job_progress j;
              Job_time_started := Job_time_started j;
              Job_time_finished := Some now |}
    end.

(** [isinstance(v, int)]: an [int], or a [bool], which is a subclass of
    [int]; a [long] is not one. *)
Definition isinstance_int (py : Python) (v : value) : bool :=
  match v with
  | VInt n => (- sys_maxint py - 1 <=? n) && (n <=? sys_maxint py)
  | VBool _ => true
  | _ => false
  end.

(** [Job.set_progress(self, percent, description=None)] *)
Definition Job_set_progress (py : Python) (j : Job) (pct : value)
    (descr : value) : result Job :=
  match pct with
  | VNone =>
      Ok (if truthy descr
          then {| Job_method := Job_method j; Job_args := Job_args j;
                  Job_options := Job_options j; Job_id := Job_id j;
                  Job_lock := Job_lock j; Job_result := Job_result j;
                  Job_state := Job_state j;
                  Job_progress :=
                    {| percent := percent (Job_progress j);
                       description := descr |};
                  Job_time_started := Job_time_started j;
                  Job_time_finished := Job_time_finished j |}
          else j)
  | _ =>
      if isinstance_int py pct then
        Ok {| Job_method := Job_method j; Job_args := Job_args j;
              Job_options := Job_options j; Job_id := Job_id j;
              Job_lock := Job_lock j; Job_result := Job_result j;
              Job_state := Job_state j;
              Job_progress :=
                {| percent := pct;
                   description :=
                     if truthy descr then descr
                     else description (Job_progress j) |};
              Job_time_started := Job_time_started j;
              Job_time_finished := Job_time_finished j |}
      else Raise AssertionError
  end.

(** [Job.__encode__] *)
Definition Job_encode (j : Job) : list (string * value) :=
  [ ("id", match Job_id j with Some i => VInt i | None => VNone end);
    ("progress", VDict [("percent", percent (Job_progress j));
                        ("description", description (Job_progress j))]);
    ("result", Job_result j);
    ("state", VStr (State_name (Job_state j)));
    ("time_started", VInt (Job_time_started j));
    ("time_finished",
     match Job_time_finished j with Some t => VInt t | None => VNone end) ].

(** ** job.py: JobsDeque *)

(** The [OrderedDict] from job id to job (by address), oldest first. *)
Record JobsDeque := mkDeque {
  Deque_maxlen : Z;
  Deque_count : Z;
  Deque_dict : list (Z * nat) }.

(** [JobsDeque.__init__(self, maxlen=1000)]: the argument is not used, the
    bound is the constant. *)
Definition JobsDeque_init (maxlen : Z) : JobsDeque :=
  {| Deque_maxlen := 1000; Deque_count := 0; Deque_dict := [] |}.

(** [d[k] = v] on an [OrderedDict]: an existing key keeps its place, a new
    one goes to the end. *)
Fixpoint odict_set (d : list (Z * nat)) (k : Z) (v : nat) : list (Z * nat) :=
  match d with
  | [] => [(k, v)]
  | (k', v') :: d' =>
      if k' =? k then (k, v) :: d' else (k', v') :: odict_set d' k v
  end.

(** [d.popitem(last=False)] when [d] is not empty. *)
Definition odict_popfirst (d : list (Z * nat)) : list (Z * nat) := tail d.

Fixpoint odict_get (d : list (Z * nat)) (k : Z) : option nat :=
  match d with
  | [] => None
  | (k', v) :: d' => if k' =? k then Some v else odict_get d' k
  end.

(** [JobsDeque.add(self, job)] on the deque alone: the new deque and the id
    given to the job.  [popitem] is only reached on a dict of more than
    [maxlen] entries, which is not empty. *)
Definition JobsDeque_add (d : JobsDeque) (job : nat) : JobsDeque * Z :=
  let count := Deque_count d + 1 in
  let dict :=
    if Z.of_nat (length (Deque_dict d)) >? Deque_maxlen d
    then odict_popfirst (Deque_dict d)
    else Deque_dict d in
  ({| Deque_maxlen := Deque_maxlen d;
      Deque_count := count;
      Deque_dict := odict_set dict count job |}, count).

Definition JobsDeque_all (d : JobsDeque) : list (Z * nat) := Deque_dict d.

(** ** job.py: JobSharedLock *)

(** [Lock_semaphore] is the counter of the gevent [Semaphore()]: 1 when
    created, [acquire] takes one when it is positive and blocks otherwise,
    [release] gives one back, [locked()] is [counter <= 0]. *)
Record JobSharedLock := mkLock {
  Lock_name : string;
  Lock_jobs : list nat;
  Lock_semaphore : Z }.

Definition JobSharedLock_init (name : string) : JobSharedLock :=
  {| Lock_name := name; Lock_jobs := []; Lock_semaphore := 1 |}.

Definition JobSharedLock_add_job (job : nat) (l : JobSharedLock)
    : JobSharedLock :=
  {| Lock_name := Lock_name l;
     Lock_jobs := (Lock_jobs l ++ [job])%list;
     Lock_semaphore := Lock_semaphore l |}.

Definition JobSharedLock_get_jobs (l : JobSharedLock) : list nat := Lock_jobs l.

(** [list.remove(x)]: drops the first occurrence, [None] (a [ValueError]
    in Python) when there is none. *)
Fixpoint list_remove (x : nat) (l : list nat) : option (list nat) :=
  match l with
  | [] => None
  | y :: l' =>
      if Nat.eqb y x then Some l'
      else match list_remove x l' with
           | Some r => Some (y :: r)
           | None => None
           end
  end.

Definition JobSharedLock_remove_job (job : nat) (l : JobSharedLock)
    : result JobSharedLock :=
  match list_remove job (Lock_jobs l) with
  | Some js =>
      Ok {| Lock_name := Lock_name l; Lock_jobs := js;
            Lock_semaphore := Lock_semaphore l |}
  | None => Raise (ValueError "list.remove(x): x not in list")
  end.

Definition JobSharedLock_locked (l : JobSharedLock) : bool :=
  Lock_semaphore l <=? 0.

(** [acquire] when the semaphore is free; the blocking case is decided by
    the caller with [JobSharedLock_locked]. *)
Definition JobSharedLock_acquire (l : JobSharedLock) : JobSharedLock :=
  {| Lock_name := Lock_name l; Lock_jobs := Lock_jobs l;
     Lock_semaphore := Lock_semaphore l - 1 |}.

Definition JobSharedLock_release (l : JobSharedLock) : JobSharedLock :=
  {| Lock_name := Lock_name l; Lock_jobs := Lock_jobs l;
     Lock_semaphore := Lock_semaphore l + 1 |}.

(** ** job.py: JobsQueue *)

(** The store of job and lock objects (an address is an index) together
    with the fields of the one [JobsQueue]. *)
Record World := mkWorld {
  heap_jobs : list Job;
  heap_locks : list JobSharedLock;
  deque : JobsDeque;
  queue : list nat;
  queue_event : bool;
  job_locks : gmap string nat }.

(** [JobsQueue.__init__], over a store that already holds [jobs]. *)
Definition JobsQueue_init (jobs : list Job) : World :=
  {| heap_jobs := jobs; heap_locks := []; deque := JobsDeque_init 1000;
     queue := []; queue_event := false; job_locks := ∅ |}.

Definition with_jobs (w : World) (js : list Job) : World :=
  {| heap_jobs := js; heap_locks := heap_locks w; deque := deque w;
     queue := queue w; queue_event := queue_event w;
     job_locks := job_locks w |}.

Definition with_locks (w : World) (ls : list JobSharedLock) : World :=
  {| heap_jobs := heap_jobs w; heap_locks := ls; deque := deque w;
     queue := queue w; queue_event := queue_event w;
     job_locks := job_locks w |}.

Definition with_deque (w : World) (d : JobsDeque) : World :=
  {| heap_jobs := heap_jobs w; heap_locks := heap_locks w; deque := d;
     queue := queue w; queue_event := queue_event w;
     job_locks := job_locks w |}.

Definition with_queue (w : World) (q : list nat) : World :=
  {| heap_jobs := heap_jobs w; heap_locks := heap_locks w; deque := deque w;
     queue := q; queue_event := queue_event w;
     job_locks := job_locks w |}.

Definition with_event (w : World) (b : bool) : World :=
  {| heap_jobs := heap_jobs w; heap_locks := heap_locks w; deque := deque w;
     queue := queue w; queue_event := b;
     job_locks := job_locks w |}.

Definition with_job_locks (w : World) (m : gmap string nat) : World :=
  {| heap_jobs := heap_jobs w; heap_locks := heap_locks w; deque := deque w;
     queue := queue w; queue_event := queue_event w;
     job_locks := m |}.

Definition JobsQueue_all (w : World) : list (Z * nat) :=
  JobsDeque_all (deque w).

(** [JobsQueue.add(self, job)] *)
Definition JobsQueue_add (w : World) (job : nat) : World :=
  let '(d, id) := JobsDeque_add (deque w) job in
  let w1 := with_jobs w (alter (fun j => Job_set_id j id) job (heap_jobs w)) in
  let w2 := with_deque w1 d in
  let w3 := with_queue w2 (queue w2 ++ [job])%list in
  with_event w3 true.

(** [JobsQueue.get_lock(self, job)]: the lock's address, or [None].  A new
    lock object is allocated at the end of the store. *)
Definition JobsQueue_get_lock (w : World) (job : nat) : option nat * World :=
  match heap_jobs w !! job with
  | None => (None, w)
  | Some j =>
      match Job_get_lock_name j with
      | None => (None, w)
      | Some name =>
          let '(lock, w1) :=
            match job_locks w !! name with
            | Some lock => (lock, w)
            | None =>
                let lock := length (heap_locks w) in
                (lock,
                 with_job_locks
                   (with_locks w (heap_locks w ++ [JobSharedLock_init name])%list)
                   (<[name := lock]> (job_locks w)))
            end in
          (Some lock,
           with_locks w1 (alter (JobSharedLock_add_job job) lock
                                (heap_locks w1)))
      end
  end.

(** An operation that may also block the calling greenlet. *)
Inductive outcome (A : Type) :=
  | Done (a : A)
  | Raised (e : exn)
  | Blocked.
Arguments Done {A} a.
Arguments Raised {A} e.
Arguments Blocked {A}.

(** [Job.set_lock(self, lock)]: the field is written first, then
    [self.lock.acquire()] is called; on [None] that attribute access
    raises.  Lock addresses come from [JobsQueue_get_lock], always inside
    the store; outside it the model blocks. *)
Definition Job_set_lock (w : World) (job : nat) (lock : option nat)
    : outcome unit * World :=
  let w1 :=
    with_jobs w (alter (fun j => Job_assign_lock j lock) job (heap_jobs w)) in
  match lock with
  | None =>
      (Raised (AttributeError "'NoneType' object has no attribute 'acquire'"),
       w1)
  | Some l =>
      match heap_locks w1 !! l with
      | None => (Blocked, w1)
      | Some L =>
          if JobSharedLock_locked L then (Blocked, w1)
          else (Done tt,
                with_locks w1 (<[l := JobSharedLock_acquire L]> (heap_locks w1)))
      end
  end.

(** [JobsQueue.release_lock(self, job)] *)
Definition JobsQueue_release_lock (w : World) (job : nat)
    : result unit * World :=
  match heap_jobs w !! job with
  | None => (Ok tt, w)
  | Some j =>
      match Job_get_lock j with
      | None => (Ok tt, w)
      | Some l =>
          match heap_locks w !! l with
          | None => (Ok tt, w)
          | Some L =>
              match JobSharedLock_remove_job job L with
              | Raise e => (Raise e, w)
              | Ok L1 =>
                  let L2 := JobSharedLock_release L1 in
                  let w1 := with_locks w (<[l := L2]> (heap_locks w)) in
                  if Nat.eqb (length (JobSharedLock_get_jobs L2)) 0 then
                    match job_locks w1 !! Lock_name L2 with
                    | None => (Raise (KeyError (Lock_name L2)), w1)
                    | Some _ =>
                        (Ok tt,
                         with_event
                           (with_job_locks w1
                              (delete (Lock_name L2) (job_locks w1)))
                           true)
                    end
                  else (Ok tt, with_event w1 true)
              end
          end
      end
  end.

(** [lock.locked()] for the lock at address [l]. *)
Definition lock_locked (w : World) (l : nat) : bool :=
  match heap_locks w !! l with
  | Some L => JobSharedLock_locked L
  | None => true
  end.

(** The [for job in self.queue] loop of [JobsQueue.next]: [Done (Some j)]
    when the loop left through [break] with [found = j], [Done None] when
    it ran to the end. *)
Fixpoint JobsQueue_scan (w : World) (q : list nat)
    : outcome (option nat) * World :=
  match q with
  | [] => (Done None, w)
  | job :: rest =>
      let '(lock, w1) := JobsQueue_get_lock w job in
      let free :=
        match lock with
        | None => true
        | Some l => negb (lock_locked w1 l)
        end in
      if free then
        match Job_set_lock w1 job lock with
        | (Done _, w2) => (Done (Some job), w2)
        | (Raised e, w2) => (Raised e, w2)
        | (Blocked, w2) => (Blocked, w2)
        end
      else JobsQueue_scan w1 rest
  end.

(** [JobsQueue.next(self)], one turn of its [while True]: [Blocked] is the
    greenlet waiting in [self.queue_event.wait()], either at once because
    the event is not set, or after a turn that found no job and cleared
    the event. *)
Definition JobsQueue_next (w : World) : outcome nat * World :=
  if queue_event w then
    match JobsQueue_scan w (queue w) with
    | (Done (Some found), w1) =>
        match list_remove found (queue w1) with
        | None => (Raised (ValueError "list.remove(x): x not in list"), w1)
        | Some q =>
            let w2 := with_queue w1 q in
            (Done found,
             if Nat.eqb (length q) 0 then with_event w2 false else w2)
        end
    | (Done None, w1) => (Blocked, with_event w1 false)
    | (Raised e, w1) => (Raised e, w1)
    | (Blocked, w1) => (Blocked, w1)
    end
  else (Blocked, w).

(** ** job.py: Job.run

    [run] is cut where the method body runs, the one place where the
    greenlet can be switched out. *)

(** [finally: queue.release_lock(self)]; an exception raised there replaces
    the pending one. *)
Definition Job_run_finally (w : World) (job : nat) (pending : result unit)
    : result unit * World :=
  match JobsQueue_release_lock w job with
  | (Ok _, w1) => (pending, w1)
  | (Raise e, w1) => (Raise e, w1)
  end.

Definition store_job (w : World) (job : nat) (j : Job) : World :=
  with_jobs w (<[job := j]> (heap_jobs w)).

(** [except: self.set_state('FAILED'); raise], then the [finally]. *)
Definition Job_run_except (now : Z) (w : World) (job : nat) (e : exn)
    : result unit * World :=
  match heap_jobs w !! job with
  | None => (Raise e, w)
  | Some j =>
      match Job_set_state now j "FAILED" with
      | Ok j' => Job_run_finally (store_job w job j') job (Raise e)
      | Raise e' => Job_run_finally w job (Raise e')
      end
  end.

(** From the start of [run] to the call of the method: [Ok] when the body
    is entered, [Raise] when [run] has ended already. *)
Definition Job_run_begin (now : Z) (w : World) (job : nat)
    : result unit * World :=
  match heap_jobs w !! job with
  | None => (Raise (AttributeError "run"), w)
  | Some j =>
      match Job_set_state now j "RUNNING" with
      | Ok j' => (Ok tt, store_job w job j')
      | Raise e => Job_run_except now w job e
      end
  end.

(** From the return of the method, with [r] what it gave, to the end of
    [run]. *)
Definition Job_run_end (now : Z) (w : World) (job : nat) (r : result value)
    : result unit * World :=
  match r with
  | Raise e => Job_run_except now w job e
  | Ok v =>
      match heap_jobs w !! job with
      | None => (Raise (AttributeError "run"), w)
      | Some j =>
          let j1 := Job_set_result j v in
          let w1 := store_job w job j1 in
          match Job_set_state now j1 "SUCCESS" with
          | Ok j2 => Job_run_finally (store_job w1 job j2) job (Ok tt)
          | Raise e => Job_run_finally w1 job (Raise e)
          end
      end
  end.

(** The call [self.method( *([self] + self.args))]. *)
Definition Job_call_method (w : World) (job : nat) : result value :=
  match heap_jobs w !! job with
  | None => Raise (AttributeError "run")
  | Some j => Job_method j (AJob job :: map AVal (Job_args j))
  end.

(** [Job.run(self, queue)] when nothing else runs in between; [now1] and
    [now2] are the clock at the first and at the last [set_state]. *)
Definition Job_run (now1 now2 : Z) (w : World) (job : nat)
    : result unit * World :=
  match Job_run_begin now1 w job with
  | (Ok _, w1) => Job_run_end now2 w1 job (Job_call_method w1 job)
  | (Raise e, w1) => (Raise e, w1)
  end.

(** ** The scheduler loop and the job greenlets, interleaved

    gevent switches greenlets only where one blocks or yields: in
    [queue_event.wait()], and inside a method body.  So one turn of the
    loop of [JobsQueue.run], the start of [Job.run] up to the method call
    and its end from the method's return are each one step. *)

Inductive Phase := Spawned | InMethod | Finished.

Record System := mkSystem {
  world : World;
  tasks : gmap nat Phase;       (* the greenlets of [gevent.spawn(job.run, self)] *)
  sched_alive : bool }.         (* false once [JobsQueue.run] has raised *)

Inductive Label :=
  | LSubmit (method : callable) (args : list value) (options : Options)
            (now : Z)
  | LSched
  | LBegin (job : nat) (now : Z)
  | LEnd (job : nat) (now : Z).

Definition System_init : System :=
  {| world := JobsQueue_init []; tasks := ∅; sched_alive := true |}.

Definition step (s : System) (l : Label) : option System :=
  match l with
  | LSubmit method args options now =>
      (* job = Job(method, args, options); queue.add(job) *)
      let job := length (heap_jobs (world s)) in
      let w :=
        with_jobs (world s)
          (heap_jobs (world s) ++ [Job_init method args options now])%list in
      Some {| world := JobsQueue_add w job; tasks := tasks s;
              sched_alive := sched_alive s |}
  | LSched =>
      (* job = self.next(); gevent.spawn(job.run, self) *)
      if sched_alive s then
        match JobsQueue_next (world s) with
        | (Done job, w) =>
            Some {| world := w; tasks := <[job := Spawned]> (tasks s);
                    sched_alive := true |}
        | (Blocked, w) =>
            Some {| world := w; tasks := tasks s; sched_alive := true |}
        | (Raised e, w) =>
            Some {| world := w; tasks := tasks s; sched_alive := false |}
        end
      else None
  | LBegin job now =>
      match tasks s !! job with
      | Some Spawned =>
          match Job_run_begin now (world s) job with
          | (Ok _, w) =>
              Some {| world := w; tasks := <[job := InMethod]> (tasks s);
                      sched_alive := sched_alive s |}
          | (Raise _, w) =>
              Some {| world := w; tasks := <[job := Finished]> (tasks s);
                      sched_alive := sched_alive s |}
          end
      | _ => None
      end
  | LEnd job now =>
      match tasks s !! job with
      | Some InMethod =>
          let '(_, w) :=
            Job_run_end now (world s) job (Job_call_method (world s) job) in
          Some {| world := w; tasks := <[job := Finished]> (tasks s);
                  sched_alive := sched_alive s |}
      | _ => None
      end
  end.

(** The state after a trace of steps, [None] when some step was not
    enabled. *)
Fixpoint run_trace (s : System) (t : list Label) : option System :=
  match t with
  | [] => Some s
  | l :: t' =>
      match step s l with
      | Some s' => run_trace s' t'
      | None => None
      end
  end.

(** ** main.py: Application (one websocket session) *)

Definition Message := list (string * value).

(** A callback registered by a plugin.  Plugins are outside this
    development: a callback is taken as returning or raising, and as
    leaving the fields of the session alone. *)
Definition Callback := Message -> result unit.

Record Application := mkApp {
  authenticated : bool;
  handshake : bool;
  sessionid : string;
  cb_on_message : list Callback;
  cb_on_close : list (result unit);
  sent : list value;            (* what [_send] gave to the websocket *)
  logged : list string }.       (* [self.logger.error] lines *)

(** [Application.__init__]; [permitted] is what [_check_permission]
    answered and [uuid] what [uuid.uuid4()] gave. *)
Definition Application_init (permitted : bool) (uuid : string) : Application :=
  {| authenticated := permitted; handshake := false; sessionid := uuid;
     cb_on_message := []; cb_on_close := []; sent := []; logged := [] |}.

Definition app_with_sent (app : Application) (l : list value) : Application :=
  {| authenticated := authenticated app; handshake := handshake app;
     sessionid := sessionid app; cb_on_message := cb_on_message app;
     cb_on_close := cb_on_close app; sent := l; logged := logged app |}.

Definition app_with_handshake (app : Application) (b : bool) : Application :=
  {| authenticated := authenticated app; handshake := b;
     sessionid := sessionid app; cb_on_message := cb_on_message app;
     cb_on_close := cb_on_close app; sent := sent app;
     logged := logged app |}.

Definition app_with_logged (app : Application) (l : list string)
    : Application :=
  {| authenticated := authenticated app; handshake := handshake app;
     sessionid := sessionid app; cb_on_message := cb_on_message app;
     cb_on_close := cb_on_close app; sent := sent app; logged := l |}.

(** [Application.register_callback(self, name, method)] for
    [name = 'on_message']. *)
Definition Application_register_on_message (app : Application) (cb : Callback)
    : Application :=
  {| authenticated := authenticated app; handshake := handshake app;
     sessionid := sessionid app;
     cb_on_message := (cb_on_message app ++ [cb])%list;
     cb_on_close := cb_on_close app; sent := sent app;
     logged := logged app |}.

(** [Application._send(self, data)] *)
Definition Application_send (app : Application) (data : value) : Application :=
  app_with_sent app (sent app ++ [data])%list.

Definition error_reply (id : value) (error : string) (stacktrace : value)
    : value :=
  VDict [("msg", VStr "result");
         ("id", id);
         ("error", VDict [("error", VStr error);
                          ("stacktrace", stacktrace)])].

(** [Application.send_error(self, message, error, stacktrace=None)] *)
Definition Application_send_error (app : Application) (message : Message)
    (error : string) (stacktrace : value) : result unit * Application :=
  match dict_item message "id" with
  | Raise e => (Raise e, app)
  | Ok id => (Ok tt, Application_send app (error_reply id error stacktrace))
  end.

Definition failed_reply : value :=
  VDict [("msg", VStr "failed"); ("version", VStr "1")].

Definition connected_reply (session : string) : value :=
  VDict [("msg", VStr "connected"); ("session", VStr session)].

Definition result_reply (id : value) (r : value) : value :=
  VDict [("id", id); ("msg", VStr "result"); ("result", r)].

(** ** main.py: Middleware *)

(** A method of a service with the three marks [call_method] looks for
    with [hasattr]. *)
Record MethodObj := mkMethod {
  no_auth_required : bool;      (* hasattr(methodobj, '_no_auth_required') *)
  pass_app : bool;              (* hasattr(methodobj, '_pass_app') *)
  is_job : bool;                (* hasattr(methodobj, '_job') *)
  body : callable }.

(** A service object: the name of its class and its methods. *)
Record Service := mkService {
  svc_class : string;
  svc_methods : list (string * MethodObj) }.

Record Middleware := mkMiddleware {
  services : list (string * Service);
  mw_jobs : JobsDeque;          (* self.__jobs *)
  mw_heap : list Job;           (* the Job objects *)
  invoked : list (string * string * list pyarg);
                                (* the method bodies that were called *)
  spawned : list (nat * string * string * list pyarg) }.
                                (* greenlets of gevent.spawn(self.run_job, ..) *)

Definition mw_with_invoked (mw : Middleware)
    (l : list (string * string * list pyarg)) : Middleware :=
  {| services := services mw; mw_jobs := mw_jobs mw; mw_heap := mw_heap mw;
     invoked := l; spawned := spawned mw |}.

Fixpoint assoc {A : Type} (l : list (string * A)) (k : string) : option A :=
  match l with
  | [] => None
  | (k', v) :: l' => if String.eqb k' k then Some v else assoc l' k
  end.

(** [Middleware.get_service(self, name)] *)
Definition Middleware_get_service (mw : Middleware) (name : string)
    : result Service :=
  match assoc (services mw) name with
  | Some s => Ok s
  | None => Raise (KeyError name)
  end.

(** [getattr(service, method)] *)
Definition service_getattr (s : Service) (method : string) : result MethodObj :=
  match assoc (svc_methods s) method with
  | Some m => Ok m
  | None =>
      Raise (AttributeError ("'" ++ svc_class s
                             ++ "' object has no attribute '" ++ method ++ "'"))
  end.

(** [s.rsplit('.', 1)] when it has two parts: the text before and after
    the last dot. *)
Fixpoint rsplit_dot (s : string) : option (string * string) :=
  match s with
  | EmptyString => None
  | String c rest =>
      match rsplit_dot rest with
      | Some (a, b) => Some (String c a, b)
      | None => if Ascii.eqb c "."%char then Some ("", rest) else None
      end
  end.

(** The items [args.extend(params)] appends: the elements of a list, the
    keys of a dict in the order the dict iterates them, the characters of
    a string; a value of another type cannot be iterated. *)
Definition py_iter (py : Python) (v : value) : result (list value) :=
  match v with
  | VList l => Ok l
  | VDict d => Ok (map VStr (dict_order py d))
  | VStr s => Ok (map (fun c => VStr (String c "")) (String.list_ascii_of_string s))
  | _ => Raise (TypeError ("'" ++ py_type_name v ++ "' object is not iterable"))
  end.

(** The arguments of a call of the class [Job]. *)
Inductive ctor_arg :=
  | CMethod (m : callable)
  | CArgs (a : list value)
  | COptions (o : Options).

(** A call [Job(...)].  [Job.__init__(self, method, args, options)] has no
    default values: a call that does not give the three of them raises
    [TypeError] before the body of [__init__] runs. *)
Definition Job_new (actuals : list ctor_arg) (now : Z) : result Job :=
  match actuals with
  | [CMethod m; CArgs a; COptions o] => Ok (Job_init m a o now)
  | _ =>
      Raise (TypeError
               ("__init__() takes exactly 4 arguments ("
                ++ match length actuals with
                   | O => "1" | 1%nat => "2" | 2%nat => "3" | _ => "n"
                   end ++ " given)"))
  end.

(** [Middleware.call_method(self, app, message)] *)
Definition Middleware_call_method (py : Python) (now : Z) (mw : Middleware)
    (app : Application) (message : Message)
    : result value * (Middleware * Application) :=
  match dict_item message "method" with
  | Raise e => (Raise e, (mw, app))
  | Ok method =>
  let params :=
    if truthy (dict_get message "params") then dict_get message "params"
    else VList [] in
  match method with
  | VStr method =>
  match rsplit_dot method with
  | None => (Raise (ValueError "need more than 1 value to unpack"), (mw, app))
  | Some (service, method) =>
  match Middleware_get_service mw service with
  | Raise e => (Raise e, (mw, app))
  | Ok svc =>
  match service_getattr svc method with
  | Raise e => (Raise e, (mw, app))
  | Ok methodobj =>
  if negb (authenticated app) && negb (no_auth_required methodobj) then
    match Application_send_error app message "Not authenticated" VNone with
    | (Ok _, app') => (Ok VNone, (mw, app'))
    | (Raise e, app') => (Raise e, (mw, app'))
    end
  else
    let args := if pass_app methodobj then [AApp (sessionid app)] else [] in
    if is_job methodobj then
      match Job_new [] now with
      | Raise e => (Raise e, (mw, app))
      | Ok j =>
          let job := length (mw_heap mw) in
          let '(d, id) := JobsDeque_add (mw_jobs mw) job in
          let mw1 :=
            {| services := services mw; mw_jobs := d;
               mw_heap := (mw_heap mw ++ [Job_set_id j id])%list;
               invoked := invoked mw; spawned := spawned mw |} in
          let args := (args ++ [AJob job])%list in
          match py_iter py params with
          | Raise e => (Raise e, (mw1, app))
          | Ok ps =>
              let args := (args ++ map AVal ps)%list in
              (Ok (VInt id),
               ({| services := services mw1; mw_jobs := mw_jobs mw1;
                   mw_heap := mw_heap mw1; invoked := invoked mw1;
                   spawned :=
                     (spawned mw1 ++ [(job, service, method, args)])%list |},
                app))
          end
      end
    else
      match py_iter py params with
      | Raise e => (Raise e, (mw, app))
      | Ok ps =>
          let args := (args ++ map AVal ps)%list in
          (body methodobj args,
           (mw_with_invoked mw
              (invoked mw ++ [(service, method, args)])%list, app))
      end
  end end end
  | _ =>
      (Raise (AttributeError ("'" ++ py_type_name method
                              ++ "' object has no attribute 'rsplit'")),
       (mw, app))
  end end.

(** [Application.call_method(self, message)].  The dict given to [_send]
    is built left to right: [message['id']] is read before
    [self.middleware.call_method] is called.  The handler is
    [except Exception]: an exception of another class leaves [call_method]
    as it came. *)
Definition Application_call_method (py : Python) (now : Z) (mw : Middleware)
    (app : Application) (message : Message)
    : result unit * (Middleware * Application) :=
  let handler (e : exn) (mw : Middleware) (app : Application) :=
    if exn_is_Exception e then
      match Application_send_error app message (exn_str e)
              (VStr (format_exception py e)) with
      | (r, app') => (r, (mw, app'))
      end
    else (Raise e, (mw, app)) in
  match dict_item message "id" with
  | Raise e => handler e mw app
  | Ok id =>
      match Middleware_call_method py now mw app message with
      | (Ok r, (mw1, app1)) =>
          (Ok tt, (mw1, Application_send app1 (result_reply id r)))
      | (Raise e, (mw1, app1)) => handler e mw1 app1
      end
  end.

(** The loop over [self.__callbacks['on_message']]: a callback that raises
    is logged and the loop goes on. *)
Fixpoint run_callbacks (cbs : list Callback) (message : Message)
    (app : Application) : Application :=
  match cbs with
  | [] => app
  | cb :: cbs' =>
      let app1 :=
        match cb message with
        | Ok _ => app
        | Raise _ =>
            app_with_logged app
              (logged app ++ ["Failed to run on_message callback."])%list
        end in
      run_callbacks cbs' message app1
  end.

(** [Application.on_message(self, message)] *)
Definition Application_on_message (py : Python) (now : Z) (mw : Middleware)
    (app : Application) (message : Message)
    : result unit * (Middleware * Application) :=
  let app := run_callbacks (cb_on_message app) message app in
  match dict_item message "msg" with
  | Raise e => (Raise e, (mw, app))
  | Ok msg =>
      if py_eq_str msg "connect" then
        if negb (py_eq_str (dict_get message "version") "1") then
          (Ok tt, (mw, Application_send app failed_reply))
        else
          (Ok tt,
           (mw,
            app_with_handshake
              (Application_send app (connected_reply (sessionid app))) true))
      else if negb (handshake app) then
        (Ok tt, (mw, Application_send app failed_reply))
      else
        let '(r, (mw1, app1)) :=
          if py_eq_str msg "method"
          then Application_call_method py now mw app message
          else (Ok tt, (mw, app)) in
        match r with
        | Raise e => (Raise e, (mw1, app1))
        | Ok _ =>
            if negb (authenticated app1) then
              match Application_send_error app1 message "Not authenticated"
                      VNone with
              | (r', app2) => (r', (mw1, app2))
              end
            else (Ok tt, (mw1, app1))
        end
  end.

(** [Middleware.run_job(self, job, methodobj, args)], the greenlet that
    [call_method] spawns for a job; [r] is what [methodobj( *args)] gave. *)
Definition Middleware_run_job (now : Z) (mw : Middleware) (job : nat)
    (r : result value) : result unit * Middleware :=
  let put (j : Job) :=
    {| services := services mw; mw_jobs := mw_jobs mw;
       mw_heap := <[job := j]> (mw_heap mw);
       invoked := invoked mw; spawned := spawned mw |} in
  match mw_heap mw !! job with
  | None => (Raise (AttributeError "run_job"), mw)
  | Some j =>
      match r with
      | Raise e =>
          match Job_set_state now j "FAILED" with
          | Ok j' => (Raise e, put j')
          | Raise e' => (Raise e', mw)
          end
      | Ok v =>
          let j1 := Job_set_result j v in
          match Job_set_state now j1 "SUCCESS" with
          | Ok j2 => (Ok tt, put j2)
          | Raise e => (Raise e, put j1)
          end
      end
  end.

(** * Properties *)

(** ** The state of a job *)

(** The path of the design document: Waiting, then Running, then Success
    or Failed. *)
Inductive spec_path : State -> State -> Prop :=
  | path_start : spec_path WAITING RUNNING
  | path_success : spec_path RUNNING SUCCESS
  | path_failed : spec_path RUNNING FAILED.

(** The changes of state [Job_set_state] lets through. *)
Inductive permitted : State -> State -> Prop :=
  | perm_start : permitted WAITING RUNNING
  | perm_abort : permitted WAITING FAILED
  | perm_success : permitted RUNNING SUCCESS
  | perm_failed : permitted RUNNING FAILED.

Definition state_rank (s : State) : Z :=
  match s with
  | WAITING => 0
  | RUNNING => 1
  | SUCCESS | FAILED => 2
  end.

Lemma State_members_name s : State_members (State_name s) = Ok s.
Proof. by destruct s. Qed.

Lemma State_members_inv name s :
  State_members name = Ok s -> name = State_name s.
Proof.
  unfold State_members.
  destruct (String.eqb_spec name "WAITING") as [->|_]; [by intros [= <-]|].
  destruct (String.eqb_spec name "RUNNING") as [->|_]; [by intros [= <-]|].
  destruct (String.eqb_spec name "SUCCESS") as [->|_]; [by intros [= <-]|].
  destruct (String.eqb_spec name "FAILED") as [->|_]; [by intros [= <-]|].
  discriminate.
Qed.

Lemma Job_set_state_name now j s :
  Job_set_state now j (State_name s) =
    if State_eqb (Job_state j) WAITING
       && (State_eqb s WAITING || State_eqb s SUCCESS)
    then Raise AssertionError
    else if State_eqb (Job_state j) RUNNING
            && (State_eqb s WAITING || State_eqb s RUNNING)
    then Raise AssertionError
    else if State_eqb (Job_state j) SUCCESS || State_eqb (Job_state j) FAILED
    then Raise AssertionError
    else Ok {| Job_method := Job_method j; Job_args := Job_args j;
               Job_options := Job_options j; Job_id := Job_id j;
               Job_lock := Job_lock j; Job_result := Job_result j;
               Job_state := s; Job_progress := Job_progress j;
               Job_time_started := Job_time_started j;
               Job_time_finished := Some now |}.
Proof. destruct j as [? ? ? ? ? ? st ? ? ?], s; destruct st; reflexivity. Qed.

Lemma State_members_raise name e :
  State_members name = Raise e -> e = KeyError name.
Proof.
  unfold State_members.
  repeat match goal with |- context [if ?b then _ else _] => destruct b end;
    congruence.
Qed.

Lemma spec_path_permitted a b : spec_path a b -> permitted a b.
Proof. destruct 1; constructor. Qed.

(** C1, as the code has it: [set_state] lets a job go from Waiting to
    Running or to Failed and from Running to Success or to Failed, always
    forward, so no step is taken twice; every other request (any request on
    a job in Success or Failed, Waiting to Success, staying or going back,
    a name that is no member of [State]) raises [AssertionError], or
    [KeyError] for an unknown name, and gives no new job state. *)
Theorem set_state_permitted now j name :
  match Job_set_state now j name with
  | Ok j' =>
      State_members name = Ok (Job_state j')
      /\ permitted (Job_state j) (Job_state j')
      /\ state_rank (Job_state j) < state_rank (Job_state j')
  | Raise e =>
      (e = AssertionError \/ e = KeyError name)
      /\ forall s, State_members name = Ok s -> ~ permitted (Job_state j) s
  end.
Proof.
  destruct (State_members name) as [s|e] eqn:Hm.
  - apply State_members_inv in Hm as ->.
    rewrite Job_set_state_name.
    destruct j as [? ? ? ? ? ? st ? ? ?]; destruct st, s; simpl;
      repeat split; try constructor; try lia; auto;
      intros s' [= <-]; inversion 1.
  - pose proof (State_members_raise _ _ Hm) as ->.
    unfold Job_set_state. rewrite Hm.
    repeat match goal with |- context [if ?b then _ else _] => destruct b end;
      (split; [auto | intros s' [=]]).
Qed.

(** C1, counterexample: a job in Waiting asked for Failed goes to Failed,
    a step that is not on the path Waiting, Running, Success or Failed. *)
Lemma set_state_waiting_to_failed :
  let j := Job_init (fun _ => Ok VNone) [] (mkOptions LockAbsent) 0 in
  exists j',
    Job_set_state 7 j "FAILED" = Ok j'
    /\ Job_state j = WAITING /\ Job_state j' = FAILED
    /\ ~ spec_path (Job_state j) (Job_state j').
Proof.
  eexists. split; [reflexivity|]. simpl. repeat split. inversion 1.
Qed.

(** ** The finish time of a job *)

(** C9, the code at the failing input: on a job just built, the step from
    Waiting to Running already writes [time_finished]. *)
Theorem set_state_running_writes_time_finished method args options t0 now :
  exists j',
    Job_set_state now (Job_init method args options t0) "RUNNING" = Ok j'
    /\ Job_time_finished (Job_init method args options t0) = None
    /\ Job_state j' = RUNNING
    /\ Job_time_finished j' = Some now.
Proof. eexists. split; [reflexivity|]. by simpl. Qed.

(** Each [set_state] that goes through writes [time_finished], whatever
    the new state is. *)
Lemma set_state_time_finished now j name j' :
  Job_set_state now j name = Ok j' -> Job_time_finished j' = Some now.
Proof.
  unfold Job_set_state.
  repeat match goal with |- context [if ?b then _ else _] => destruct b end;
    try discriminate.
  destruct (State_members name); [|discriminate]. by intros [= <-].
Qed.

(** ** The bounded history *)

Definition JobsDeque_add_all (d : JobsDeque) (jobs : list nat) : JobsDeque :=
  foldl (fun d job => fst (JobsDeque_add d job)) d jobs.

(** C3, the code at the failing input: after 1001 jobs were added to a new
    deque it holds 1001 entries, one more than [maxlen], and the job with
    id 1 (the first one added, at address 0) is still there. *)
Theorem deque_holds_1001 :
  let d := JobsDeque_add_all (JobsDeque_init 1000) (seq 0 1001) in
  Deque_maxlen d = 1000
  /\ length (JobsDeque_all d) = 1001%nat
  /\ odict_get (JobsDeque_all d) 1 = Some 0%nat
  /\ odict_get (JobsDeque_all d) 1001 = Some 1000%nat.
Proof. vm_compute. repeat split. Qed.

Lemma odict_set_length d k v :
  (length (odict_set d k v) <= S (length d))%nat.
Proof.
  induction d as [|[k' v'] d IH]; simpl; [lia|].
  destruct (k' =? k); simpl; lia.
Qed.

(** What does hold: the deque never has more than [maxlen + 1] entries. *)
Lemma JobsDeque_add_bound d job :
  0 <= Deque_maxlen d ->
  Z.of_nat (length (Deque_dict d)) <= Deque_maxlen d + 1 ->
  Z.of_nat (length (Deque_dict (fst (JobsDeque_add d job))))
    <= Deque_maxlen d + 1
  /\ Deque_maxlen (fst (JobsDeque_add d job)) = Deque_maxlen d.
Proof.
  intros H0 H. unfold JobsDeque_add; simpl. split; [|done].
  pose proof (odict_set_length
    (if Z.of_nat (length (Deque_dict d)) >? Deque_maxlen d
     then odict_popfirst (Deque_dict d) else Deque_dict d)
    (Deque_count d + 1) job) as Hl.
  destruct (Z.gtb_spec (Z.of_nat (length (Deque_dict d))) (Deque_maxlen d)).
  - unfold odict_popfirst in *. destruct (Deque_dict d); simpl in *; lia.
  - lia.
Qed.

(** ** The registry of shared locks *)

Section registry.
Implicit Types (locks : list JobSharedLock) (reg : gmap string nat).

(** A name of the registry leads to a lock of that name with jobs in its
    list, and a lock with jobs in its list is the one its name leads to. *)
Definition RegInv locks reg : Prop :=
  (forall name l, reg !! name = Some l ->
     exists L, locks !! l = Some L /\ Lock_name L = name /\ Lock_jobs L <> [])
  /\ (forall l L, locks !! l = Some L -> Lock_jobs L <> [] ->
        reg !! Lock_name L = Some l).

(** [locks'] is [locks] with the object at [l] replaced by [L']. *)
Definition updated locks l L' locks' : Prop :=
  locks' !! l = Some L' /\ forall l', l' <> l -> locks' !! l' = locks !! l'.

Lemma updated_insert locks l L L' :
  locks !! l = Some L -> updated locks l L' (<[l := L']> locks).
Proof.
  intros H. split.
  - apply list_lookup_insert_eq. by eapply lookup_lt_Some.
  - intros l' Hne. by apply list_lookup_insert_ne.
Qed.

Lemma updated_alter locks l L f :
  locks !! l = Some L -> updated locks l (f L) (alter f l locks).
Proof.
  intros H. split.
  - by rewrite list_lookup_alter_eq, H.
  - intros l' Hne. by apply list_lookup_alter_ne.
Qed.

Lemma RegInv_empty : RegInv [] ∅.
Proof. split; intros *; [by rewrite lookup_empty | by rewrite lookup_nil]. Qed.

(** Replacing a lock by one of the same name whose list is empty exactly
    when the old one was keeps the invariant. *)
Lemma RegInv_update locks reg l L L' locks' :
  RegInv locks reg ->
  locks !! l = Some L ->
  updated locks l L' locks' ->
  Lock_name L' = Lock_name L ->
  (Lock_jobs L' = [] <-> Lock_jobs L = []) ->
  RegInv locks' reg.
Proof.
  intros [H1 H2] Hl [Hu1 Hu2] Hn Hj. split.
  - intros name l0 Hr. destruct (H1 _ _ Hr) as (L0 & HL0 & Hn0 & Hj0).
    destruct (decide (l0 = l)) as [->|Hne].
    + exists L'. rewrite Hl in HL0. injection HL0 as <-.
      split; [done|]. split; [congruence|]. tauto.
    + exists L0. by rewrite Hu2.
  - intros l0 L0 HL0 Hj0.
    destruct (decide (l0 = l)) as [->|Hne].
    + rewrite Hu1 in HL0. injection HL0 as <-. rewrite Hn.
      apply H2; [done|tauto].
    + rewrite Hu2 in HL0 by done. by apply H2.
Qed.

(** A new lock for a name that is not in the registry, with a first job
    in its list. *)
Lemma RegInv_alloc locks reg name L :
  RegInv locks reg ->
  reg !! name = None ->
  Lock_name L = name ->
  Lock_jobs L <> [] ->
  RegInv (locks ++ [L]) (<[name := length locks]> reg).
Proof.
  intros [H1 H2] Hnone Hn Hj. split.
  - intros name0 l0 Hr.
    destruct (decide (name = name0)) as [<-|Hne].
    + rewrite lookup_insert_eq in Hr. injection Hr as <-.
      exists L. split; [|done]. by apply list_lookup_middle.
    + rewrite lookup_insert_ne in Hr by done.
      destruct (H1 _ _ Hr) as (L0 & HL0 & ?). exists L0.
      split; [|done]. by apply lookup_app_l_Some.
  - intros l0 L0 HL0 Hj0.
    apply lookup_app_Some in HL0 as [HL0|[Hge HL0]].
    + specialize (H2 _ _ HL0 Hj0).
      rewrite lookup_insert_ne; [done|]. congruence.
    + apply list_lookup_singleton_Some in HL0 as [Hz <-].
      rewrite Hn, lookup_insert_eq. f_equal. lia.
Qed.

(** The last job leaves the list of a lock and the name leaves the
    registry. *)
Lemma RegInv_remove locks reg l L L' locks' :
  RegInv locks reg ->
  locks !! l = Some L ->
  Lock_jobs L <> [] ->
  updated locks l L' locks' ->
  Lock_name L' = Lock_name L ->
  Lock_jobs L' = [] ->
  RegInv locks' (delete (Lock_name L) reg).
Proof.
  intros [H1 H2] Hl Hj [Hu1 Hu2] Hn Hj'.
  pose proof (H2 _ _ Hl Hj) as Hreg. split.
  - intros name l0 Hr.
    destruct (decide (Lock_name L = name)) as [<-|Hne].
    { by rewrite lookup_delete_eq in Hr. }
    rewrite lookup_delete_ne in Hr by done.
    destruct (H1 _ _ Hr) as (L0 & HL0 & Hn0 & Hj0).
    exists L0. rewrite Hu2; [done|]. intros ->. congruence.
  - intros l0 L0 HL0 Hj0.
    destruct (decide (l0 = l)) as [->|Hne]; [congruence|].
    rewrite Hu2 in HL0 by done.
    pose proof (H2 _ _ HL0 Hj0) as Hr0.
    rewrite lookup_delete_ne; [done|]. intros Heq.
    rewrite Heq in Hreg. congruence.
Qed.
End registry.

Definition WReg (w : World) : Prop := RegInv (heap_locks w) (job_locks w).

Lemma list_remove_elem x l l' : list_remove x l = Some l' -> x ∈ l.
Proof.
  revert l'. induction l as [|y l IH]; simpl; intros l'; [done|].
  destruct (Nat.eqb_spec y x) as [->|Hne].
  - intros _. apply list_elem_of_here.
  - destruct (list_remove x l) eqn:Hr; [|done].
    intros _. apply list_elem_of_further. by eapply IH.
Qed.

Lemma list_remove_elem_Some x l : x ∈ l -> is_Some (list_remove x l).
Proof.
  induction 1 as [x l|x y l Hin IH]; simpl.
  - rewrite Nat.eqb_refl. by eexists.
  - destruct (Nat.eqb y x); [by eexists|].
    destruct IH as [r ->]. by eexists.
Qed.

Lemma list_remove_subset x l l' y :
  list_remove x l = Some l' -> y ∈ l' -> y ∈ l.
Proof.
  revert l'. induction l as [|z l IH]; simpl; intros l'; [done|].
  destruct (Nat.eqb_spec z x) as [->|Hne].
  - intros [= <-] Hy. by apply list_elem_of_further.
  - destruct (list_remove x l) eqn:Hr; [|done].
    intros [= <-] Hy. apply elem_of_cons in Hy as [->|Hy].
    + apply list_elem_of_here.
    + apply list_elem_of_further. by eapply IH.
Qed.

Lemma list_remove_other x l l' y :
  list_remove x l = Some l' -> y ∈ l -> y <> x -> y ∈ l'.
Proof.
  revert l'. induction l as [|z l IH]; simpl; intros l'; [done|].
  destruct (Nat.eqb_spec z x) as [->|Hne].
  - intros [= <-] Hy Hyx. apply elem_of_cons in Hy as [->|Hy]; done.
  - destruct (list_remove x l) eqn:Hr; [|done].
    intros [= <-] Hy Hyx. apply elem_of_cons in Hy as [->|Hy].
    + apply list_elem_of_here.
    + apply list_elem_of_further. by eapply IH.
Qed.

Lemma snoc_not_nil {A} (l : list A) (x : A) : (l ++ [x])%list <> [].
Proof. by destruct l. Qed.

Lemma alter_snoc {A} (f : A -> A) (l : list A) (x : A) :
  alter f (length l) (l ++ [x])%list = (l ++ [f x])%list.
Proof. induction l as [|y l IH]; simpl; [done|]. by f_equal. Qed.

(** What [get_lock] does to the world: nothing when the job has no lock
    name; else the job joins the list of the lock its name leads to, a
    lock that is new when the name was not in the registry. *)
Lemma get_lock_cases w job :
  (JobsQueue_get_lock w job = (None, w)
   /\ forall j, heap_jobs w !! job = Some j -> Job_get_lock_name j = None)
  \/ (exists j name l L,
        heap_jobs w !! job = Some j /\ Job_get_lock_name j = Some name
        /\ job_locks w !! name = Some l /\ heap_locks w !! l = Some L
        /\ JobsQueue_get_lock w job =
             (Some l, with_locks w (alter (JobSharedLock_add_job job) l
                                          (heap_locks w))))
  \/ (exists j name l,
        heap_jobs w !! job = Some j /\ Job_get_lock_name j = Some name
        /\ job_locks w !! name = Some l /\ heap_locks w !! l = None
        /\ JobsQueue_get_lock w job = (Some l, w))
  \/ (exists j name,
        heap_jobs w !! job = Some j /\ Job_get_lock_name j = Some name
        /\ job_locks w !! name = None
        /\ JobsQueue_get_lock w job =
             (Some (length (heap_locks w)),
              with_job_locks
                (with_locks w
                   (heap_locks w
                    ++ [JobSharedLock_add_job job (JobSharedLock_init name)])%list)
                (<[name := length (heap_locks w)]> (job_locks w)))).
Proof.
  unfold JobsQueue_get_lock.
  destruct (heap_jobs w !! job) as [j|] eqn:Hj; [|left; by split].
  destruct (Job_get_lock_name j) as [name|] eqn:Hn;
    [|left; split; [done|by intros ? [= <-]]].
  right. destruct (job_locks w !! name) as [l|] eqn:Hr.
  - destruct (heap_locks w !! l) as [L|] eqn:HL.
    + left. by exists j, name, l, L.
    + right; left. exists j, name, l. repeat split; try done.
      f_equal. destruct w; unfold with_locks; simpl in *. f_equal.
      apply list_eq. intros i. rewrite list_lookup_alter.
      case_decide; [subst; by rewrite HL|done].
  - right; right. exists j, name. repeat split; try done.
    f_equal. unfold with_locks, with_job_locks; simpl. f_equal.
    apply alter_snoc.
Qed.

Lemma get_lock_WReg w job : WReg w -> WReg (JobsQueue_get_lock w job).2.
Proof.
  intros Hw.
  destruct (get_lock_cases w job)
    as [[-> _]|[(j & name & l & L & _ & _ & Hr & HL & ->)
       |[(j & name & l & _ & _ & _ & _ & ->)
        |(j & name & _ & _ & Hr & ->)]]]; simpl; try done.
  - eapply RegInv_update; [exact Hw|exact HL|by apply updated_alter|done|].
    simpl. destruct Hw as [H1 _].
    destruct (H1 _ _ Hr) as (L0 & HL0 & _ & Hj0).
    rewrite HL in HL0. injection HL0 as <-.
    split; [by intros ?%snoc_not_nil|done].
  - by apply RegInv_alloc.
Qed.

Lemma set_lock_WReg w job lock : WReg w -> WReg (Job_set_lock w job lock).2.
Proof.
  intros Hw. unfold Job_set_lock.
  destruct lock as [l|]; simpl; [|done].
  destruct (heap_locks w !! l) as [L|] eqn:HL; simpl; [|done].
  destruct (JobSharedLock_locked L); simpl; [done|].
  eapply RegInv_update; [exact Hw|exact HL|by eapply updated_insert|done|done].
Qed.

Lemma release_lock_WReg w job : WReg w -> WReg (JobsQueue_release_lock w job).2.
Proof.
  intros Hw. unfold JobsQueue_release_lock.
  destruct (heap_jobs w !! job) as [j|]; [|done].
  destruct (Job_get_lock j) as [l|]; [|done].
  destruct (heap_locks w !! l) as [L|] eqn:HL; [|done].
  unfold JobSharedLock_remove_job.
  destruct (list_remove job (Lock_jobs L)) as [js|] eqn:Hrm; [|done].
  assert (Lock_jobs L <> []) as Hne.
  { apply list_remove_elem in Hrm. intros Heq. rewrite Heq in Hrm.
    by apply not_elem_of_nil in Hrm. }
  simpl. destruct js as [|x js]; simpl.
  - pose proof Hw as [_ H2]. rewrite (H2 _ _ HL Hne). simpl.
    eapply RegInv_remove;
      [exact Hw|exact HL|done|by eapply updated_insert|done|done].
  - eapply RegInv_update; [exact Hw|exact HL|by eapply updated_insert|done|].
    simpl. split; [done|]. intros Heq. by rewrite Heq in Hne.
Qed.

Lemma scan_WReg q w : WReg w -> WReg (JobsQueue_scan w q).2.
Proof.
  revert w. induction q as [|job q IH]; intros w Hw; simpl; [done|].
  pose proof (get_lock_WReg w job Hw) as Hg.
  destruct (JobsQueue_get_lock w job) as [lock w1]. simpl in Hg.
  match goal with |- context [if ?b then _ else _] => destruct b end.
  - pose proof (set_lock_WReg w1 job lock Hg) as Hs.
    destruct (Job_set_lock w1 job lock) as [[| |] w2]; done.
  - by apply IH.
Qed.

Lemma next_WReg w : WReg w -> WReg (JobsQueue_next w).2.
Proof.
  intros Hw. unfold JobsQueue_next.
  destruct (queue_event w); [|done].
  pose proof (scan_WReg (queue w) w Hw) as Hs.
  destruct (JobsQueue_scan w (queue w)) as [[[found|]| |] w1]; try done.
  simpl in Hs. destruct (list_remove found (queue w1)); [|done].
  simpl. by destruct (Nat.eqb _ _).
Qed.

Lemma add_WReg w job : WReg w -> WReg (JobsQueue_add w job).
Proof.
  intros Hw. unfold JobsQueue_add.
  by destruct (JobsDeque_add (deque w) job).
Qed.

(** The operations on the queue and its registry, by any job and in any
    order.  [set_lock] and [next] are among them because they write the
    [lock] field that [release_lock] reads. *)
Inductive Op :=
  | OpAdd (job : nat)
  | OpGetLock (job : nat)
  | OpSetLock (job : nat) (lock : option nat)
  | OpReleaseLock (job : nat)
  | OpNext.

Definition exec (w : World) (o : Op) : World :=
  match o with
  | OpAdd job => JobsQueue_add w job
  | OpGetLock job => (JobsQueue_get_lock w job).2
  | OpSetLock job lock => (Job_set_lock w job lock).2
  | OpReleaseLock job => (JobsQueue_release_lock w job).2
  | OpNext => (JobsQueue_next w).2
  end.

(** [job] is in the list of a lock object named [name]. *)
Definition references (w : World) (job : nat) (name : string) : Prop :=
  exists l L,
    heap_locks w !! l = Some L /\ Lock_name L = name /\ job ∈ Lock_jobs L.

Lemma exec_WReg o w : WReg w -> WReg (exec w o).
Proof.
  destruct o; simpl;
    auto using add_WReg, get_lock_WReg, set_lock_WReg, release_lock_WReg,
               next_WReg.
Qed.

Lemma foldl_exec_WReg ops w : WReg w -> WReg (foldl exec w ops).
Proof.
  revert w. induction ops as [|o ops IH]; intros w Hw; simpl; [done|].
  by apply IH, exec_WReg.
Qed.

Lemma WReg_entry_iff w name :
  WReg w -> is_Some (job_locks w !! name) <-> exists job, references w job name.
Proof.
  intros [H1 H2]. split.
  - intros [l Hr]. destruct (H1 _ _ Hr) as (L & HL & Hn & Hj).
    destruct (Lock_jobs L) as [|job js] eqn:Hjs; [done|].
    exists job, l, L. rewrite Hjs. repeat split; try done.
    apply list_elem_of_here.
  - intros (job & l & L & HL & <- & Hin). exists l. apply H2; [done|].
    intros Heq. rewrite Heq in Hin. by apply not_elem_of_nil in Hin.
Qed.

Lemma release_lock_deletes w job w' r name :
  JobsQueue_release_lock w job = (r, w') ->
  is_Some (job_locks w !! name) -> job_locks w' !! name = None ->
  r = Ok tt /\ references w job name.
Proof.
  unfold JobsQueue_release_lock.
  destruct (heap_jobs w !! job) as [j|];
    [|intros [= _ <-] [? ?]; congruence].
  destruct (Job_get_lock j) as [l|]; [|intros [= _ <-] [? ?]; congruence].
  destruct (heap_locks w !! l) as [L|] eqn:HL;
    [|intros [= _ <-] [? ?]; congruence].
  unfold JobSharedLock_remove_job.
  destruct (list_remove job (Lock_jobs L)) as [js|] eqn:Hrm;
    [|intros [= _ <-] [? ?]; congruence].
  apply list_remove_elem in Hrm. simpl.
  destruct (Nat.eqb (length js) 0);
    [|intros [= _ <-] [? ?]; simpl in *; congruence].
  destruct (job_locks w !! Lock_name L) eqn:Hr; simpl;
    [|intros [= _ <-] [? ?]; simpl in *; congruence].
  intros [= <- <-] [l0 Hl0]. simpl.
  destruct (decide (Lock_name L = name)) as [<-|Hne].
  - intros _. split; [done|]. by exists l, L.
  - rewrite lookup_delete_ne by done. congruence.
Qed.

(** X4: What holds of the registry and the lists of the locks: after any
    sequence of operations on the queue, a name is in the registry exactly
    when the list of a lock of that name is not empty; and when a
    [release_lock] takes a name out of the registry, it returned normally,
    the releasing job was in the list of that name and that list is now
    empty. *)
Theorem registry_entry_iff_referenced (jobs : list Job) (ops : list Op) :
  let w := foldl exec (JobsQueue_init jobs) ops in
  (forall name,
     is_Some (job_locks w !! name) <-> exists job, references w job name)
  /\ (forall job name,
        let r := JobsQueue_release_lock w job in
        is_Some (job_locks w !! name) -> job_locks r.2 !! name = None ->
        r.1 = Ok tt /\ references w job name
        /\ ~ exists job', references r.2 job' name).
Proof.
  intros w.
  assert (WReg w) as Hw by (apply foldl_exec_WReg, RegInv_empty).
  split; [intros name; by apply WReg_entry_iff|].
  intros job name r Hsome Hnone.
  destruct (JobsQueue_release_lock w job) as [r1 w'] eqn:Hrel.
  subst r. simpl in *.
  destruct (release_lock_deletes _ _ _ _ _ Hrel Hsome Hnone) as [-> Href].
  repeat split; try done.
  intros Hex. apply WReg_entry_iff in Hex as [l Hl]; [congruence|].
  pose proof (release_lock_WReg w job Hw) as Hw'. by rewrite Hrel in Hw'.
Qed.

Definition job_x : Job :=
  Job_init (fun _ => Ok VNone) [] (mkOptions (LockName "x")) 0.

Lemma registry_entry_iff_referenced_witness :
  let w := foldl exec (JobsQueue_init [job_x]) [OpAdd 0%nat; OpNext] in
  let r := JobsQueue_release_lock w 0%nat in
  is_Some (job_locks w !! "x") /\ job_locks r.2 !! "x" = None
  /\ r.1 = Ok tt /\ references w 0%nat "x"
  /\ ~ exists job', references r.2 job' "x".
Proof.
  intros w r.
  assert (is_Some (job_locks w !! "x")) as H1 by (vm_compute; eauto).
  assert (job_locks r.2 !! "x" = None) as H2 by (vm_compute; reflexivity).
  split; [exact H1|]. split; [exact H2|].
  exact (proj2 (registry_entry_iff_referenced [job_x] [OpAdd 0%nat; OpNext])
           0%nat "x" H1 H2).
Defined.

(** ** The session protocol and the dispatcher *)

Lemma py_eq_str_true v s : py_eq_str v s = true <-> v = VStr s.
Proof.
  destruct v; simpl; try (split; [discriminate|by intros [=]]).
  split; [by intros ->%String.eqb_eq|intros [= ->]; apply String.eqb_refl].
Qed.

Lemma py_eq_str_false v s : py_eq_str v s = false <-> v <> VStr s.
Proof.
  rewrite <- py_eq_str_true. by destruct (py_eq_str v s).
Qed.

Lemma run_callbacks_fields cbs message app :
  let app' := run_callbacks cbs message app in
  authenticated app' = authenticated app /\ handshake app' = handshake app
  /\ sessionid app' = sessionid app /\ sent app' = sent app
  /\ cb_on_message app' = cb_on_message app.
Proof.
  revert app. induction cbs as [|cb cbs IH]; intros app; simpl; [done|].
  destruct (cb message); [apply IH|].
  destruct (IH (app_with_logged app
    (logged app ++ ["Failed to run on_message callback."])%list))
    as (-> & -> & -> & -> & ->). done.
Qed.

(** An interpreter for the examples: a 64-bit [int], a traceback text made
    of the class and the message, and dicts that iterate in the order
    written. *)
Definition python_example : Python :=
  {| sys_maxint := 9223372036854775807;
     format_exception := fun e =>
       "Traceback (most recent call last): " ++ exn_type e ++ ": " ++ exn_str e;
     dict_order := map fst |}.

(** C7: on a session that awaits the handshake, a connect message with
    version "1" is answered by the reply [{msg: connected, session: id}]
    with the id of the session and completes the handshake; a connect
    message with another version or none is answered by the reply
    [{msg: failed, version: "1"}] and the session still awaits the
    handshake; a message of any other kind is answered by that failed
    reply too and the session still awaits the handshake; and whatever
    the message is, the middleware is not called. *)
Theorem on_message_awaiting_handshake py now mw app message :
  handshake app = false ->
  let r := Application_on_message py now mw app message in
  r.2.1 = mw
  /\ (dict_find message "msg" = Some (VStr "connect") ->
      dict_find message "version" = Some (VStr "1") ->
      r.1 = Ok tt
      /\ sent r.2.2 =
           (sent app
            ++ [VDict [("msg", VStr "connected");
                       ("session", VStr (sessionid app))]])%list
      /\ handshake r.2.2 = true)
  /\ (dict_find message "msg" = Some (VStr "connect") ->
      dict_find message "version" <> Some (VStr "1") ->
      r.1 = Ok tt
      /\ sent r.2.2 =
           (sent app
            ++ [VDict [("msg", VStr "failed"); ("version", VStr "1")]])%list
      /\ handshake r.2.2 = false)
  /\ (forall msg,
        dict_find message "msg" = Some msg -> msg <> VStr "connect" ->
        r.1 = Ok tt
        /\ sent r.2.2 =
             (sent app
              ++ [VDict [("msg", VStr "failed"); ("version", VStr "1")]])%list
        /\ handshake r.2.2 = false).
Proof.
  intros Hh r. subst r. unfold Application_on_message, dict_item.
  destruct (run_callbacks_fields (cb_on_message app) message app)
    as (Ha & Hh' & Hs & Hsent & _).
  rewrite Hh in Hh'.
  set (app0 := run_callbacks (cb_on_message app) message app) in *.
  destruct (dict_find message "msg") as [msg|] eqn:Hmsg.
  2: { repeat split; try done. }
  destruct (py_eq_str msg "connect") eqn:Hc.
  - apply py_eq_str_true in Hc as ->. unfold dict_get.
    destruct (dict_find message "version") as [v|] eqn:Hv.
    + destruct (py_eq_str v "1") eqn:H1; simpl.
      * apply py_eq_str_true in H1 as ->. rewrite Hsent, Hs.
        repeat split; try done; try congruence; intros msg [= <-]; done.
      * apply py_eq_str_false in H1. rewrite Hsent.
        repeat split; try done; try congruence; intros msg [= <-]; done.
    + simpl. rewrite Hsent.
      repeat split; try done; try congruence; intros msg [= <-]; done.
  - apply py_eq_str_false in Hc. rewrite Hh'. simpl. rewrite Hsent.
    repeat split; try done; try congruence.
Qed.

Definition app_fresh : Application := Application_init false "session-1".

Lemma on_message_awaiting_handshake_witness :
  let r1 := Application_on_message python_example 0
              (mkMiddleware [] (JobsDeque_init 1000) [] [] []) app_fresh
              [("msg", VStr "connect"); ("version", VStr "1")] in
  let r2 := Application_on_message python_example 0
              (mkMiddleware [] (JobsDeque_init 1000) [] [] []) app_fresh
              [("msg", VStr "connect")] in
  let r3 := Application_on_message python_example 0
              (mkMiddleware [] (JobsDeque_init 1000) [] [] []) app_fresh
              [("msg", VStr "method"); ("id", VInt 1);
               ("method", VStr "core.ping")] in
  (sent r1.2.2 = [VDict [("msg", VStr "connected");
                         ("session", VStr "session-1")]]
   /\ handshake r1.2.2 = true)
  /\ (sent r2.2.2 = [VDict [("msg", VStr "failed"); ("version", VStr "1")]]
      /\ handshake r2.2.2 = false)
  /\ (sent r3.2.2 = [VDict [("msg", VStr "failed"); ("version", VStr "1")]]
      /\ handshake r3.2.2 = false).
Proof.
  intros r1 r2 r3.
  pose proof (on_message_awaiting_handshake python_example 0
    (mkMiddleware [] (JobsDeque_init 1000) [] [] []) app_fresh
    [("msg", VStr "connect"); ("version", VStr "1")] eq_refl) as (_ & H1 & _).
  pose proof (on_message_awaiting_handshake python_example 0
    (mkMiddleware [] (JobsDeque_init 1000) [] [] []) app_fresh
    [("msg", VStr "connect")] eq_refl) as (_ & _ & H2 & _).
  pose proof (on_message_awaiting_handshake python_example 0
    (mkMiddleware [] (JobsDeque_init 1000) [] [] []) app_fresh
    [("msg", VStr "method"); ("id", VInt 1); ("method", VStr "core.ping")]
    eq_refl) as (_ & _ & _ & H3).
  split; [exact (proj2 (H1 eq_refl eq_refl))|].
  split; [apply (fun H => proj2 (H2 eq_refl H)); discriminate|].
  apply (fun H => proj2 (H3 (VStr "method") eq_refl H)); discriminate.
Defined.

Ltac break_match :=
  match goal with
  | |- context [match ?x with _ => _ end] => destruct x eqn:?
  | |- context [if ?b then _ else _] => destruct b eqn:?
  end.

Lemma send_error_with_id app message error stacktrace id :
  dict_find message "id" = Some id ->
  Application_send_error app message error stacktrace =
    (Ok tt, Application_send app (error_reply id error stacktrace)).
Proof. intros H. unfold Application_send_error, dict_item. by rewrite H. Qed.

(** C8: when a session that is not authenticated calls a method that is
    not marked as needing no authentication, the dispatcher sends the
    error reply [{msg: result, id: id, error: {error: 'Not authenticated',
    stacktrace: None}}] with the id of the call and returns; the
    middleware comes back as it was, with its list of invoked method
    bodies, so the body was not called. *)
Theorem call_method_not_authenticated py now mw app message full service
    method svc m id :
  authenticated app = false ->
  dict_find message "method" = Some (VStr full) ->
  rsplit_dot full = Some (service, method) ->
  assoc (services mw) service = Some svc ->
  assoc (svc_methods svc) method = Some m ->
  no_auth_required m = false ->
  dict_find message "id" = Some id ->
  let denied :=
    VDict [("msg", VStr "result"); ("id", id);
           ("error", VDict [("error", VStr "Not authenticated");
                            ("stacktrace", VNone)])] in
  Middleware_call_method py now mw app message =
    (Ok VNone, (mw, Application_send app denied))
  /\ (Application_call_method py now mw app message).1 = Ok tt
  /\ (Application_call_method py now mw app message).2.1 = mw
  /\ sent (Application_call_method py now mw app message).2.2 =
       (sent app
        ++ [denied;
            VDict [("id", id); ("msg", VStr "result");
                   ("result", VNone)]])%list.
Proof.
  intros Ha Hm Hsplit Hsvc Hmeth Hna Hid denied.
  assert (Middleware_call_method py now mw app message =
    (Ok VNone, (mw, Application_send app denied))) as Hcall.
  { unfold Middleware_call_method, dict_item, Middleware_get_service,
      service_getattr.
    rewrite Hm, Hsplit, Hsvc, Hmeth, Ha, Hna. simpl.
    by rewrite (send_error_with_id _ _ _ _ id Hid). }
  split; [exact Hcall|].
  unfold Application_call_method, dict_item. rewrite Hid, Hcall. simpl.
  repeat split. by rewrite <- app_assoc.
Qed.

Definition svc_system : Service :=
  mkService "SystemService"
    [("info", mkMethod false false false (fun _ => Ok (VStr "v1")));
     ("backup", mkMethod false false true (fun _ => Ok VNone))].

Definition mw_system : Middleware :=
  mkMiddleware [("system", svc_system)] (JobsDeque_init 1000) [] [] [].

Definition msg_system_info : Message :=
  [("msg", VStr "method"); ("id", VInt 7); ("method", VStr "system.info")].

Lemma call_method_not_authenticated_witness :
  Middleware_call_method python_example 0 mw_system app_fresh msg_system_info =
    (Ok VNone,
     (mw_system,
      Application_send app_fresh
        (VDict [("msg", VStr "result"); ("id", VInt 7);
                ("error", VDict [("error", VStr "Not authenticated");
                                 ("stacktrace", VNone)])])))
  /\ (Application_call_method python_example 0 mw_system app_fresh
        msg_system_info).1 = Ok tt
  /\ (Application_call_method python_example 0 mw_system app_fresh
        msg_system_info).2.1 = mw_system
  /\ sent (Application_call_method python_example 0 mw_system app_fresh
             msg_system_info).2.2 =
       (sent app_fresh
        ++ [VDict [("msg", VStr "result"); ("id", VInt 7);
                   ("error", VDict [("error", VStr "Not authenticated");
                                    ("stacktrace", VNone)])];
            VDict [("id", VInt 7); ("msg", VStr "result");
                   ("result", VNone)]])%list.
Proof.
  apply (call_method_not_authenticated python_example 0 mw_system app_fresh
           msg_system_info "system.info" "system" "info" svc_system
           (mkMethod false false false (fun _ => Ok (VStr "v1"))) (VInt 7));
    reflexivity.
Defined.

(** C4, the code at the failing input: a call of a method marked as a job
    that passes the authentication check reaches [job = Job()] and raises
    [TypeError] there; no job is made, added or spawned, and what the
    client gets is an error reply with that message and the traceback. *)
Theorem call_method_job_raises py now mw app message full service method svc
    m id :
  dict_find message "method" = Some (VStr full) ->
  rsplit_dot full = Some (service, method) ->
  assoc (services mw) service = Some svc ->
  assoc (svc_methods svc) method = Some m ->
  authenticated app = true \/ no_auth_required m = true ->
  is_job m = true ->
  dict_find message "id" = Some id ->
  Middleware_call_method py now mw app message =
    (Raise (TypeError "__init__() takes exactly 4 arguments (1 given)"),
     (mw, app))
  /\ Application_call_method py now mw app message =
       (Ok tt,
        (mw, Application_send app
               (VDict
                  [("msg", VStr "result"); ("id", id);
                   ("error",
                    VDict
                      [("error",
                        VStr "__init__() takes exactly 4 arguments (1 given)");
                       ("stacktrace",
                        VStr (format_exception py
                                (TypeError
                                   "__init__() takes exactly 4 arguments (1 given)")))])]))).
Proof.
  intros Hm Hsplit Hsvc Hmeth Hauth Hjob Hid.
  assert (Middleware_call_method py now mw app message =
    (Raise (TypeError "__init__() takes exactly 4 arguments (1 given)"),
     (mw, app))) as Hcall.
  { unfold Middleware_call_method, dict_item, Middleware_get_service,
      service_getattr.
    rewrite Hm, Hsplit, Hsvc, Hmeth, Hjob.
    assert (negb (authenticated app) && negb (no_auth_required m) = false)
      as -> by (destruct Hauth as [-> | ->]; simpl;
                [done|apply andb_false_r]).
    reflexivity. }
  split; [exact Hcall|].
  unfold Application_call_method, dict_item. rewrite Hid, Hcall. simpl.
  by rewrite (send_error_with_id _ _ _ _ id Hid).
Qed.

Definition app_root : Application :=
  app_with_handshake (Application_init true "session-2") true.

Definition msg_system_backup : Message :=
  [("msg", VStr "method"); ("id", VInt 8); ("method", VStr "system.backup");
   ("params", VList [VStr "tank"])].

Lemma call_method_job_raises_witness :
  Middleware_call_method python_example 0 mw_system app_root msg_system_backup =
    (Raise (TypeError "__init__() takes exactly 4 arguments (1 given)"),
     (mw_system, app_root))
  /\ sent (Application_call_method python_example 0 mw_system app_root
             msg_system_backup).2.2 =
       [VDict
          [("msg", VStr "result"); ("id", VInt 8);
           ("error",
            VDict
              [("error",
                VStr "__init__() takes exactly 4 arguments (1 given)");
               ("stacktrace",
                VStr (format_exception python_example
                        (TypeError
                           "__init__() takes exactly 4 arguments (1 given)")))])]].
Proof.
  destruct (call_method_job_raises python_example 0 mw_system app_root
              msg_system_backup "system.backup" "system" "backup" svc_system
              (mkMethod false false true (fun _ => Ok VNone)) (VInt 8)
              eq_refl eq_refl eq_refl eq_refl (or_introl eq_refl) eq_refl
              eq_refl) as [H1 H2].
  split; [exact H1|]. by rewrite H2.
Defined.

Lemma send_error_fields app message error stacktrace :
  let r := Application_send_error app message error stacktrace in
  authenticated r.2 = authenticated app /\ handshake r.2 = handshake app
  /\ exists extra, sent r.2 = (sent app ++ extra)%list.
Proof.
  unfold Application_send_error. destruct (dict_item message "id"); simpl.
  - repeat split. by eexists.
  - repeat split. exists []. by rewrite app_nil_r.
Qed.

Lemma Middleware_call_method_fields py now mw app message :
  let r := Middleware_call_method py now mw app message in
  authenticated r.2.2 = authenticated app /\ handshake r.2.2 = handshake app
  /\ exists extra, sent r.2.2 = (sent app ++ extra)%list.
Proof.
  assert (authenticated app = authenticated app
          /\ handshake app = handshake app
          /\ exists extra, sent app = (sent app ++ extra)%list) as Hsame.
  { repeat split. exists []. by rewrite app_nil_r. }
  unfold Middleware_call_method.
  repeat (break_match; simpl; try exact Hsame).
  all: match goal with
       | H : Application_send_error ?a ?m ?e ?s = (_, ?a') |- _ =>
           pose proof (send_error_fields a m e s) as Hf;
           rewrite H in Hf; exact Hf
       end.
Qed.

(** [Application.call_method] on a message that carries an id, by what
    [Middleware.call_method] did: its value goes back in a result reply,
    an [Exception] it raised in an error reply, and an exception of
    another class is not handled. *)
Lemma Application_call_method_cases py now mw app message id :
  dict_find message "id" = Some id ->
  Application_call_method py now mw app message =
    let c := Middleware_call_method py now mw app message in
    match c.1 with
    | Ok v => (Ok tt, (c.2.1, Application_send c.2.2 (result_reply id v)))
    | Raise e =>
        if exn_is_Exception e
        then (Ok tt,
              (c.2.1,
               Application_send c.2.2
                 (error_reply id (exn_str e)
                    (VStr (format_exception py e)))))
        else (Raise e, c.2)
    end.
Proof.
  intros Hid. unfold Application_call_method, dict_item. rewrite Hid.
  destruct (Middleware_call_method py now mw app message)
    as [[v|e] [mw1 app1]]; simpl; [done|].
  destruct (exn_is_Exception e); [|done].
  by rewrite (send_error_with_id _ _ _ _ id Hid).
Qed.






(** ** Mutual exclusion under one lock name *)

(** What a run of [get_lock] calls does to the store of locks: a lock
    keeps its name and its semaphore and the jobs of its list, and a new
    lock has a free semaphore. *)
Definition Grow (locks locks' : list JobSharedLock) : Prop :=
  (forall l L, locks !! l = Some L ->
     exists L', locks' !! l = Some L' /\ Lock_name L' = Lock_name L
                /\ Lock_semaphore L' = Lock_semaphore L
                /\ forall x, x ∈ Lock_jobs L -> x ∈ Lock_jobs L')
  /\ (forall l L', locks' !! l = Some L' ->
        is_Some (locks !! l) \/ Lock_semaphore L' = 1).

Lemma Grow_refl locks : Grow locks locks.
Proof. split; [intros l L H; by exists L|intros l L' H; left; by eexists]. Qed.

Lemma Grow_trans a b c : Grow a b -> Grow b c -> Grow a c.
Proof.
  intros [A1 A2] [B1 B2]. split.
  - intros l L H. destruct (A1 _ _ H) as (L1 & H1 & Hn1 & Hs1 & Hj1).
    destruct (B1 _ _ H1) as (L2 & H2 & Hn2 & Hs2 & Hj2).
    exists L2. repeat split; try congruence. auto.
  - intros l L' H. destruct (B2 _ _ H) as [[L1 H1]|Hs]; [|by right].
    destruct (A2 _ _ H1) as [Hold|Hs1]; [by left|].
    destruct (B1 _ _ H1) as (L2 & H2 & _ & Hs2 & _).
    right. congruence.
Qed.

Lemma Grow_alter_add_job locks l L job :
  locks !! l = Some L -> Grow locks (alter (JobSharedLock_add_job job) l locks).
Proof.
  intros HL. split.
  - intros l0 L0 H0. destruct (decide (l0 = l)) as [->|Hne].
    + rewrite list_lookup_alter_eq, H0. simpl. eexists. split; [done|].
      simpl. repeat split. intros x Hx. apply elem_of_app. by left.
    + rewrite list_lookup_alter_ne by done. by exists L0.
  - intros l0 L' H0. left. destruct (decide (l0 = l)) as [->|Hne].
    + by eexists.
    + rewrite list_lookup_alter_ne in H0 by done. by eexists.
Qed.

Lemma Grow_snoc locks L :
  Lock_semaphore L = 1 -> Grow locks (locks ++ [L]).
Proof.
  intros Hs. split.
  - intros l L0 H0. exists L0. split; [by apply lookup_app_l_Some|done].
  - intros l L' H0. apply lookup_app_Some in H0 as [H0|[_ H0]].
    + left. by eexists.
    + apply list_lookup_singleton_Some in H0 as [_ <-]. by right.
Qed.

(** [get_lock] on a world whose registry is sound. *)
Lemma get_lock_spec w job lock w1 :
  JobsQueue_get_lock w job = (lock, w1) -> WReg w ->
  heap_jobs w1 = heap_jobs w /\ queue w1 = queue w
  /\ queue_event w1 = queue_event w /\ deque w1 = deque w
  /\ Grow (heap_locks w) (heap_locks w1) /\ WReg w1
  /\ match lock with
     | None =>
         w1 = w
         /\ forall j, heap_jobs w !! job = Some j -> Job_get_lock_name j = None
     | Some l =>
         exists j L, heap_jobs w !! job = Some j
           /\ Job_get_lock_name j = Some (Lock_name L)
           /\ heap_locks w1 !! l = Some L /\ job ∈ Lock_jobs L
     end.
Proof.
  intros Hg Hw. pose proof (get_lock_WReg w job Hw) as Hw1.
  rewrite Hg in Hw1. simpl in Hw1.
  destruct (get_lock_cases w job)
    as [[Heq Hnone]|[(j & name & l & L & Hj & Hn & Hr & HL & Heq)
       |[(j & name & l & Hj & Hn & Hr & HL & Heq)
        |(j & name & Hj & Hn & Hr & Heq)]]];
    rewrite Heq in Hg; injection Hg as <- <-; simpl.
  - split_and!; try done. apply Grow_refl.
  - split_and!; try done; [by eapply Grow_alter_add_job|].
    exists j, (JobSharedLock_add_job job L). simpl.
    destruct Hw as [H1 _]. destruct (H1 _ _ Hr) as (L0 & HL0 & Hn0 & _).
    rewrite HL in HL0. injection HL0 as <-.
    split_and!; try congruence.
    + by rewrite list_lookup_alter_eq, HL.
    + apply elem_of_app. right. apply list_elem_of_here.
  - destruct Hw as [H1 _]. destruct (H1 _ _ Hr) as (L0 & HL0 & _).
    congruence.
  - split_and!; try done; [by apply Grow_snoc|].
    exists j, (JobSharedLock_add_job job (JobSharedLock_init name)).
    split_and!; try done.
    + by apply list_lookup_middle.
    + simpl. apply list_elem_of_here.
Qed.

(** The world after [set_lock] took the free lock [l] for [job]. *)
Definition took (w : World) (job l : nat) (L : JobSharedLock) : World :=
  with_locks
    (with_jobs w (alter (fun j => Job_assign_lock j (Some l)) job (heap_jobs w)))
    (<[l := JobSharedLock_acquire L]> (heap_locks w)).

(** The world after [set_lock] was called with [None] for [job]. *)
Definition unlocked (w : World) (job : nat) : World :=
  with_jobs w (alter (fun j => Job_assign_lock j None) job (heap_jobs w)).

(** The three ways the loop of [next] ends; it never blocks. *)
Lemma scan_spec q w r w' :
  JobsQueue_scan w q = (r, w') -> WReg w ->
  exists w1,
    heap_jobs w1 = heap_jobs w /\ queue w1 = queue w
    /\ queue_event w1 = queue_event w /\ deque w1 = deque w
    /\ Grow (heap_locks w) (heap_locks w1) /\ WReg w1
    /\ match r with
       | Done None => w' = w1
       | Done (Some job) =>
           exists j l L, job ∈ q /\ heap_jobs w1 !! job = Some j
             /\ Job_get_lock_name j = Some (Lock_name L)
             /\ heap_locks w1 !! l = Some L /\ job ∈ Lock_jobs L
             /\ 0 < Lock_semaphore L
             /\ w' = took w1 job l L
       | Raised e =>
           exists job, job ∈ q
             /\ (forall j, heap_jobs w1 !! job = Some j ->
                   Job_get_lock_name j = None)
             /\ w' = unlocked w1 job
       | Blocked => False
       end.
Proof.
  revert w. induction q as [|job q IH]; intros w Hscan Hw; simpl in Hscan.
  { injection Hscan as <- <-. exists w. split_and!; try done.
    apply Grow_refl. }
  destruct (JobsQueue_get_lock w job) as [lock w1] eqn:Hg.
  destruct (get_lock_spec _ _ _ _ Hg Hw)
    as (Hjobs & Hq & He & Hd & Hgrow & Hw1 & Hlock).
  destruct lock as [l|].
  - destruct Hlock as (j & L & Hj & Hn & HL & Hin).
    unfold lock_locked in Hscan. rewrite HL in Hscan.
    unfold JobSharedLock_locked in Hscan.
    destruct (Z.leb_spec (Lock_semaphore L) 0) as [Hle|Hgt]; simpl in Hscan.
    + destruct (IH _ Hscan Hw1)
        as (w2 & Hjobs2 & Hq2 & He2 & Hd2 & Hgrow2 & Hw2 & Hr).
      exists w2. split_and!; try congruence.
      { by eapply Grow_trans. }
      destruct r as [[found|]|e|]; try done.
      * destruct Hr as (j' & l' & L' & Hin' & Hrest).
        exists j', l', L'. split; [by apply list_elem_of_further|done].
      * destruct Hr as (job' & Hin' & Hrest).
        exists job'. split; [by apply list_elem_of_further|done].
    + unfold Job_set_lock in Hscan. simpl in Hscan. rewrite HL in Hscan.
      unfold JobSharedLock_locked in Hscan.
      destruct (Z.leb_spec (Lock_semaphore L) 0) as [Hle|_]; [lia|].
      injection Hscan as <- <-.
      exists w1. split_and!; try done.
      exists j, l, L. split_and!; try done; try congruence.
      apply list_elem_of_here.
  - destruct Hlock as [-> Hnone]. simpl in Hscan.
    injection Hscan as <- <-.
    exists w. split_and!; try done.
    exists job. split; [apply list_elem_of_here|done].
Qed.

(** A job whose greenlet was spawned and has not ended. *)
Definition active (t : gmap nat Phase) (job : nat) : Prop :=
  t !! job = Some Spawned \/ t !! job = Some InMethod.

(** [job] has the lock at [l]: the lock is in its [lock] field, carries
    the job's lock name, lists the job, and its semaphore is taken. *)
Definition holds (jobs : list Job) (locks : list JobSharedLock)
    (job l : nat) : Prop :=
  exists j L,
    jobs !! job = Some j /\ Job_lock j = Some l /\ locks !! l = Some L
    /\ job ∈ Lock_jobs L /\ Lock_semaphore L = 0
    /\ Job_get_lock_name j = Some (Lock_name L).

Definition LockInv (jobs : list Job) (locks : list JobSharedLock)
    (reg : gmap string nat) (t : gmap nat Phase) : Prop :=
  RegInv locks reg
  /\ (forall l L, locks !! l = Some L -> Lock_semaphore L <= 1)
  /\ (forall job, active t job -> exists l, holds jobs locks job l)
  /\ (forall job1 job2 j1 j2,
        active t job1 -> active t job2 ->
        jobs !! job1 = Some j1 -> jobs !! job2 = Some j2 ->
        Job_lock j1 = Job_lock j2 -> job1 = job2).

(** A job in state Running has its greenlet inside the method body. *)
Definition RunInv (jobs : list Job) (t : gmap nat Phase) : Prop :=
  forall job j,
    jobs !! job = Some j -> Job_state j = RUNNING -> t !! job = Some InMethod.

Lemma LockInv_grow jobs locks reg t locks' reg' :
  LockInv jobs locks reg t -> Grow locks locks' -> RegInv locks' reg' ->
  LockInv jobs locks' reg' t.
Proof.
  intros (Hreg & Hsem & Hhold & Huniq) [G1 G2] Hreg'.
  split_and!; try done.
  - intros l L' HL'. destruct (G2 _ _ HL') as [[L HL]|Hs]; [|lia].
    destruct (G1 _ _ HL) as (L2 & HL2 & _ & Hs2 & _).
    specialize (Hsem _ _ HL). congruence.
  - intros job Hact. destruct (Hhold _ Hact)
      as (l & j & L & Hj & Hjl & HL & Hin & Hs & Hn).
    destruct (G1 _ _ HL) as (L2 & HL2 & Hn2 & Hs2 & Hj2).
    exists l, j, L2. split_and!; try done; try congruence. auto.
Qed.

(** The store of jobs may change as long as the jobs with a live greenlet
    keep their [lock] field and their lock name. *)
Lemma LockInv_jobs jobs jobs' locks reg t :
  LockInv jobs locks reg t ->
  (forall job j, active t job -> jobs !! job = Some j ->
     exists j', jobs' !! job = Some j' /\ Job_lock j' = Job_lock j
                /\ Job_get_lock_name j' = Job_get_lock_name j) ->
  LockInv jobs' locks reg t.
Proof.
  intros (Hreg & Hsem & Hhold & Huniq) Hext. split_and!; try done.
  - intros job Hact. destruct (Hhold _ Hact)
      as (l & j & L & Hj & Hjl & HL & Hin & Hs & Hn).
    destruct (Hext _ _ Hact Hj) as (j' & Hj' & Hl' & Hn').
    exists l, j', L. split_and!; try done; congruence.
  - intros job1 job2 j1' j2' Ha1 Ha2 H1 H2 Heq.
    destruct (Hhold _ Ha1) as (l1 & j1 & L1 & Hj1 & _).
    destruct (Hhold _ Ha2) as (l2 & j2 & L2 & Hj2 & _).
    destruct (Hext _ _ Ha1 Hj1) as (j1'' & Hj1'' & Hl1 & _).
    destruct (Hext _ _ Ha2 Hj2) as (j2'' & Hj2'' & Hl2 & _).
    apply (Huniq job1 job2 j1 j2); try done. congruence.
Qed.

(** A job with a live greenlet cannot find its lock free. *)
Lemma LockInv_active_locked jobs locks reg t job j l L :
  LockInv jobs locks reg t -> active t job ->
  jobs !! job = Some j -> locks !! l = Some L -> job ∈ Lock_jobs L ->
  Job_get_lock_name j = Some (Lock_name L) ->
  Lock_semaphore L = 0.
Proof.
  intros (Hreg & _ & Hhold & _) Hact Hj HL Hin Hn.
  destruct (Hhold _ Hact) as (l0 & j0 & L0 & Hj0 & _ & HL0 & Hin0 & Hs0 & Hn0).
  assert (j0 = j) as -> by congruence.
  assert (Lock_name L0 = Lock_name L) as Hname by congruence.
  destruct Hreg as [_ H2].
  assert (Lock_jobs L <> []) as Hne.
  { intros Heq. rewrite Heq in Hin. by apply not_elem_of_nil in Hin. }
  assert (Lock_jobs L0 <> []) as Hne0.
  { intros Heq. rewrite Heq in Hin0. by apply not_elem_of_nil in Hin0. }
  pose proof (H2 _ _ HL Hne) as Hr. pose proof (H2 _ _ HL0 Hne0) as Hr0.
  rewrite Hname in Hr0. assert (l0 = l) as -> by congruence.
  congruence.
Qed.

(** [set_lock] takes a free lock for a job of the queue, and its greenlet
    is spawned. *)
Lemma LockInv_take jobs locks reg t job j l L :
  LockInv jobs locks reg t ->
  jobs !! job = Some j -> locks !! l = Some L -> job ∈ Lock_jobs L ->
  0 < Lock_semaphore L ->
  Job_get_lock_name j = Some (Lock_name L) ->
  LockInv (alter (fun j => Job_assign_lock j (Some l)) job jobs)
          (<[l := JobSharedLock_acquire L]> locks) reg
          (<[job := Spawned]> t)
  /\ ~ active t job.
Proof.
  intros Hinv Hj HL Hin Hpos Hn.
  assert (~ active t job) as Hnact.
  { intros Hact.
    pose proof (LockInv_active_locked _ _ _ _ _ _ _ _ Hinv Hact Hj HL Hin Hn).
    lia. }
  split; [|done].
  destruct Hinv as (Hreg & Hsem & Hhold & Huniq).
  assert (forall job', active t job' -> job' <> job) as Hother.
  { intros job' Hact ->. done. }
  assert (forall job', active (<[job := Spawned]> t) job' ->
            job' = job \/ (job' <> job /\ active t job')) as Hcases.
  { intros job' Hact. destruct (decide (job' = job)) as [->|Hne]; [by left|].
    right. split; [done|]. unfold active in *.
    by rewrite lookup_insert_ne in Hact. }
  assert (forall job' l', active t job' -> holds jobs locks job' l' -> l' <> l)
    as Hl'.
  { intros job' l' Hact (j' & L' & Hj' & _ & HL' & _ & Hs' & _) ->.
    assert (L' = L) as -> by congruence. lia. }
  split_and!.
  - eapply RegInv_update; [exact Hreg|exact HL|by eapply updated_insert|done|done].
  - intros l0 L0 HL0. destruct (decide (l0 = l)) as [->|Hne].
    + rewrite list_lookup_insert_eq in HL0 by (by eapply lookup_lt_Some).
      injection HL0 as <-. simpl. specialize (Hsem _ _ HL). lia.
    + rewrite list_lookup_insert_ne in HL0 by done. eauto.
  - intros job' Hact. destruct (Hcases _ Hact) as [->|[Hne Hact']].
    + exists l, (Job_assign_lock j (Some l)), (JobSharedLock_acquire L).
      split_and!; try done.
      * by rewrite list_lookup_alter_eq, Hj.
      * apply list_lookup_insert_eq. by eapply lookup_lt_Some.
      * simpl. specialize (Hsem _ _ HL). lia.
    + destruct (Hhold _ Hact') as (l' & Hh).
      pose proof (Hl' _ _ Hact' Hh) as Hll.
      destruct Hh as (j' & L' & Hj' & Hjl' & HL' & Hin' & Hs' & Hn').
      exists l', j', L'. split_and!; try done.
      * by rewrite list_lookup_alter_ne.
      * by rewrite list_lookup_insert_ne.
  - intros job1 job2 j1 j2 Ha1 Ha2 H1 H2 Heq.
    destruct (Hcases _ Ha1) as [->|[Hne1 Ha1']];
      destruct (Hcases _ Ha2) as [->|[Hne2 Ha2']]; try done.
    + exfalso. rewrite list_lookup_alter_eq, Hj in H1. injection H1 as <-.
      rewrite list_lookup_alter_ne in H2 by done.
      destruct (Hhold _ Ha2') as (l2 & Hh2).
      pose proof (Hl' _ _ Ha2' Hh2) as Hll.
      destruct Hh2 as (j2' & L2 & Hj2' & Hjl2 & _).
      simpl in Heq. congruence.
    + exfalso. rewrite list_lookup_alter_eq, Hj in H2. injection H2 as <-.
      rewrite list_lookup_alter_ne in H1 by done.
      destruct (Hhold _ Ha1') as (l1 & Hh1).
      pose proof (Hl' _ _ Ha1' Hh1) as Hll.
      destruct Hh1 as (j1' & L1 & Hj1' & Hjl1 & _).
      simpl in Heq. congruence.
    + rewrite list_lookup_alter_ne in H1 by done.
      rewrite list_lookup_alter_ne in H2 by done.
      by apply (Huniq job1 job2 j1 j2).
Qed.

Lemma active_insert_Finished t job job' :
  active (<[job := Finished]> t) job' -> job' <> job /\ active t job'.
Proof.
  intros Hact. destruct (decide (job' = job)) as [->|Hne].
  - unfold active in Hact. rewrite lookup_insert_eq in Hact.
    by destruct Hact.
  - split; [done|]. unfold active in *. by rewrite lookup_insert_ne in Hact.
Qed.

(** [release_lock] by a job with a live greenlet returns normally, gives
    the semaphore back, and the greenlet ends. *)
Lemma LockInv_release w t job :
  LockInv (heap_jobs w) (heap_locks w) (job_locks w) t -> active t job ->
  exists w',
    JobsQueue_release_lock w job = (Ok tt, w')
    /\ heap_jobs w' = heap_jobs w
    /\ LockInv (heap_jobs w') (heap_locks w') (job_locks w')
               (<[job := Finished]> t).
Proof.
  intros (Hreg & Hsem & Hhold & Huniq) Hact.
  destruct (Hhold _ Hact) as (l & j & L & Hj & Hjl & HL & Hin & Hs & Hn).
  destruct (list_remove_elem_Some _ _ Hin) as [js Hrm].
  assert (Lock_jobs L <> []) as Hne.
  { intros Heq. rewrite Heq in Hin. by apply not_elem_of_nil in Hin. }
  set (L2 := {| Lock_name := Lock_name L; Lock_jobs := js;
                Lock_semaphore := Lock_semaphore L + 1 |}).
  assert (forall reg',
            RegInv (<[l := L2]> (heap_locks w)) reg' ->
            LockInv (heap_jobs w) (<[l := L2]> (heap_locks w)) reg'
                    (<[job := Finished]> t)) as Hkey.
  { intros reg' Hreg'. split_and!; try done.
    - intros l0 L0 HL0. destruct (decide (l0 = l)) as [->|Hnel].
      + rewrite list_lookup_insert_eq in HL0 by (by eapply lookup_lt_Some).
        injection HL0 as <-. simpl. lia.
      + rewrite list_lookup_insert_ne in HL0 by done. eauto.
    - intros job' [Hnej Hact']%active_insert_Finished.
      destruct (Hhold _ Hact')
        as (l' & j' & L' & Hj' & Hjl' & HL' & Hin' & Hs' & Hn').
      exists l', j', L'. split_and!; try done.
      rewrite list_lookup_insert_ne; [done|]. intros ->.
      apply Hnej. apply (Huniq job' job j' j); try done. congruence.
    - intros job1 job2 j1 j2 [_ Ha1]%active_insert_Finished
        [_ Ha2]%active_insert_Finished. by apply Huniq. }
  unfold JobsQueue_release_lock, Job_get_lock, JobSharedLock_remove_job.
  rewrite Hj, Hjl, HL, Hrm. simpl. fold L2.
  destruct js as [|x js]; simpl.
  - pose proof Hreg as [_ H2]. rewrite (H2 _ _ HL Hne).
    eexists. split; [done|]. simpl. split; [done|]. apply Hkey.
    eapply RegInv_remove;
      [exact Hreg|exact HL|done|by eapply updated_insert|done|done].
  - eexists. split; [done|]. simpl. split; [done|]. apply Hkey.
    eapply RegInv_update; [exact Hreg|exact HL|by eapply updated_insert|done|].
    simpl. split; [done|]. intros Heq. by rewrite Heq in Hne.
Qed.

(** The state a job is left in by [set_state('FAILED')] and by
    [set_state('SUCCESS')], whether they raise or not, is not Running when
    the first is called, or the second is called on a job in Running. *)
Lemma set_state_FAILED_cases now j :
  match Job_set_state now j "FAILED" with
  | Ok j' =>
      Job_state j' = FAILED /\ Job_lock j' = Job_lock j
      /\ Job_get_lock_name j' = Job_get_lock_name j
  | Raise _ => Job_state j <> RUNNING
  end.
Proof. destruct j as [? ? ? ? ? ? st ? ? ?]; by destruct st. Qed.

Lemma set_state_SUCCESS_cases now j :
  match Job_set_state now j "SUCCESS" with
  | Ok j' =>
      Job_state j' = SUCCESS /\ Job_lock j' = Job_lock j
      /\ Job_get_lock_name j' = Job_get_lock_name j
  | Raise _ => Job_state j <> RUNNING
  end.
Proof. destruct j as [? ? ? ? ? ? st ? ? ?]; by destruct st. Qed.

Lemma set_state_RUNNING_cases now j :
  match Job_set_state now j "RUNNING" with
  | Ok j' =>
      Job_state j' = RUNNING /\ Job_lock j' = Job_lock j
      /\ Job_get_lock_name j' = Job_get_lock_name j
  | Raise _ => Job_state j <> WAITING
  end.
Proof. destruct j as [? ? ? ? ? ? st ? ? ?]; by destruct st. Qed.

(** Writing back a job that kept its [lock] field and its lock name. *)
Lemma LockInv_store jobs locks reg t job j j' :
  LockInv jobs locks reg t -> jobs !! job = Some j ->
  Job_lock j' = Job_lock j -> Job_get_lock_name j' = Job_get_lock_name j ->
  LockInv (<[job := j']> jobs) locks reg t.
Proof.
  intros Hinv Hj Hl Hn. eapply LockInv_jobs; [exact Hinv|].
  intros job0 j0 _ Hj0. destruct (decide (job0 = job)) as [->|Hne].
  - exists j'. rewrite list_lookup_insert_eq by (by eapply lookup_lt_Some).
    split; [done|]. split; congruence.
  - exists j0. by rewrite list_lookup_insert_ne.
Qed.

Lemma LockInv_tasks jobs locks reg t t' :
  LockInv jobs locks reg t -> (forall job, active t' job -> active t job) ->
  LockInv jobs locks reg t'.
Proof.
  intros (Hreg & Hsem & Hhold & Huniq) Hsub. split_and!; try done.
  - intros job Hact. apply Hhold. by apply Hsub.
  - intros job1 job2 j1 j2 Ha1 Ha2. apply Huniq; by apply Hsub.
Qed.

Definition WInv (w : World) (t : gmap nat Phase) : Prop :=
  LockInv (heap_jobs w) (heap_locks w) (job_locks w) t
  /\ RunInv (heap_jobs w) t.

(** The [except] path of [run], taken by a job with a live greenlet. *)
Lemma run_except_WInv now w t job e :
  WInv w t -> active t job ->
  WInv (Job_run_except now w job e).2 (<[job := Finished]> t).
Proof.
  intros [Hlock Hrun] Hact. unfold Job_run_except.
  pose proof Hlock as (_ & _ & Hhold & _).
  destruct (Hhold _ Hact) as (l & j & L & Hj & _). rewrite Hj.
  pose proof (set_state_FAILED_cases now j) as Hst.
  destruct (Job_set_state now j "FAILED") as [j'|e'].
  - destruct Hst as (Hs & Hl & Hn).
    pose proof (LockInv_store _ _ _ _ _ _ _ Hlock Hj Hl Hn) as Hlock1.
    destruct (LockInv_release (store_job w job j') t job Hlock1 Hact)
      as (w' & Hrel & Hjobs & Hlock').
    unfold Job_run_finally. rewrite Hrel. simpl. split; [done|].
    rewrite Hjobs. simpl. intros job0 j0 Hj0 Hr0.
    destruct (decide (job0 = job)) as [->|Hne].
    + rewrite list_lookup_insert_eq in Hj0 by (by eapply lookup_lt_Some).
      congruence.
    + rewrite list_lookup_insert_ne in Hj0 by done.
      rewrite lookup_insert_ne by done. by eapply Hrun.
  - destruct (LockInv_release w t job Hlock Hact)
      as (w' & Hrel & Hjobs & Hlock').
    unfold Job_run_finally. rewrite Hrel. simpl. split; [done|].
    rewrite Hjobs. intros job0 j0 Hj0 Hr0.
    destruct (decide (job0 = job)) as [->|Hne]; [congruence|].
    rewrite lookup_insert_ne by done. by eapply Hrun.
Qed.

Lemma run_except_raises now w job e :
  exists e', (Job_run_except now w job e).1 = Raise e'.
Proof.
  unfold Job_run_except, Job_run_finally.
  repeat (break_match; simpl); by eexists.
Qed.

Lemma run_begin_WInv now w t job :
  WInv w t -> t !! job = Some Spawned ->
  match Job_run_begin now w job with
  | (Ok _, w') => WInv w' (<[job := InMethod]> t)
  | (Raise _, w') => WInv w' (<[job := Finished]> t)
  end.
Proof.
  intros [Hlock Hrun] Ht.
  assert (active t job) as Hact by (by left).
  unfold Job_run_begin.
  pose proof Hlock as (_ & _ & Hhold & _).
  destruct (Hhold _ Hact) as (l & j & L & Hj & _). rewrite Hj.
  pose proof (set_state_RUNNING_cases now j) as Hst.
  destruct (Job_set_state now j "RUNNING") as [j'|e'].
  - destruct Hst as (Hs & Hl & Hn). split.
    + simpl. eapply LockInv_tasks.
      * by eapply LockInv_store.
      * intros job0 Ha0. destruct (decide (job0 = job)) as [->|Hne]; [done|].
        unfold active in *. by rewrite lookup_insert_ne in Ha0.
    + simpl. intros job0 j0 Hj0 Hr0.
      destruct (decide (job0 = job)) as [->|Hne].
      * by rewrite lookup_insert_eq.
      * rewrite list_lookup_insert_ne in Hj0 by done.
        rewrite lookup_insert_ne by done. by eapply Hrun.
  - pose proof (run_except_WInv now w t job e' (conj Hlock Hrun) Hact) as H.
    destruct (run_except_raises now w job e') as [e2 He2].
    destruct (Job_run_except now w job e') as [r w']. simpl in *.
    by subst r.
Qed.

Lemma run_end_WInv now w t job r :
  WInv w t -> t !! job = Some InMethod ->
  WInv (Job_run_end now w job r).2 (<[job := Finished]> t).
Proof.
  intros [Hlock Hrun] Ht.
  assert (active t job) as Hact by (by right).
  unfold Job_run_end. destruct r as [v|e].
  2: { by apply run_except_WInv. }
  pose proof Hlock as (_ & _ & Hhold & _).
  destruct (Hhold _ Hact) as (l & j & L & Hj & _). rewrite Hj.
  set (j1 := Job_set_result j v).
  assert (LockInv (heap_jobs (store_job w job j1)) (heap_locks w)
            (job_locks w) t) as Hlock1 by (by eapply LockInv_store).
  assert (heap_jobs (store_job w job j1) !! job = Some j1) as Hj1.
  { simpl. apply list_lookup_insert_eq. by eapply lookup_lt_Some. }
  pose proof (set_state_SUCCESS_cases now j1) as Hst.
  destruct (Job_set_state now j1 "SUCCESS") as [j2|e'].
  - destruct Hst as (Hs & Hl & Hn).
    pose proof (LockInv_store _ _ _ _ _ _ _ Hlock1 Hj1 Hl Hn) as Hlock2.
    destruct (LockInv_release (store_job (store_job w job j1) job j2) t job
                Hlock2 Hact) as (w' & Hrel & Hjobs & Hlock').
    unfold Job_run_finally. rewrite Hrel. simpl. split; [done|].
    rewrite Hjobs. simpl. intros job0 j0 Hj0 Hr0.
    destruct (decide (job0 = job)) as [->|Hne].
    + rewrite list_lookup_insert_eq in Hj0.
      * congruence.
      * rewrite length_insert. by eapply lookup_lt_Some.
    + rewrite !list_lookup_insert_ne in Hj0 by done.
      rewrite lookup_insert_ne by done. by eapply Hrun.
  - destruct (LockInv_release (store_job w job j1) t job Hlock1 Hact)
      as (w' & Hrel & Hjobs & Hlock').
    unfold Job_run_finally. rewrite Hrel. simpl. split; [done|].
    rewrite Hjobs. simpl. intros job0 j0 Hj0 Hr0.
    destruct (decide (job0 = job)) as [->|Hne].
    + rewrite list_lookup_insert_eq in Hj0 by (by eapply lookup_lt_Some).
      injection Hj0 as <-. done.
    + rewrite list_lookup_insert_ne in Hj0 by done.
      rewrite lookup_insert_ne by done. by eapply Hrun.
Qed.

Lemma add_fields w job :
  heap_jobs (JobsQueue_add w job) =
    alter (fun j => Job_set_id j (Deque_count (deque w) + 1)) job (heap_jobs w)
  /\ heap_locks (JobsQueue_add w job) = heap_locks w
  /\ job_locks (JobsQueue_add w job) = job_locks w.
Proof. done. Qed.

(** A new job is built and added to the queue. *)
Lemma submit_WInv w t method args options now :
  WInv w t ->
  WInv (JobsQueue_add
          (with_jobs w (heap_jobs w ++ [Job_init method args options now])%list)
          (length (heap_jobs w))) t.
Proof.
  intros [Hlock Hrun].
  destruct (add_fields
    (with_jobs w (heap_jobs w ++ [Job_init method args options now])%list)
    (length (heap_jobs w))) as (Hj & Hl & Hr).
  unfold WInv. rewrite Hj, Hl, Hr. simpl. rewrite alter_snoc. split.
  - eapply LockInv_jobs; [exact Hlock|].
    intros job j _ Hjob. exists j. split; [|done].
    by apply lookup_app_l_Some.
  - intros job j Hjob Hst.
    apply lookup_app_Some in Hjob as [Hjob|[_ Hjob]]; [by eapply Hrun|].
    apply list_lookup_singleton_Some in Hjob as [_ <-]. done.
Qed.

Lemma WInv_grow w w1 t :
  WInv w t -> heap_jobs w1 = heap_jobs w ->
  Grow (heap_locks w) (heap_locks w1) -> WReg w1 -> WInv w1 t.
Proof.
  intros [Hlock Hrun] Hj Hg Hw1. unfold WInv. rewrite Hj.
  split; [|done]. by eapply LockInv_grow.
Qed.

(** One turn of the scheduler loop. *)
Lemma next_WInv w t :
  WInv w t ->
  match JobsQueue_next w with
  | (Done job, w') => WInv w' (<[job := Spawned]> t)
  | (_, w') => WInv w' t
  end.
Proof.
  intros Hinv. unfold JobsQueue_next.
  destruct (queue_event w); [|done].
  destruct (JobsQueue_scan w (queue w)) as [r w'] eqn:Hscan.
  assert (WReg w) as Hw by (by destruct Hinv as [[? _] _]).
  destruct (scan_spec _ _ _ _ Hscan Hw)
    as (w1 & Hjobs & Hq & _ & _ & Hgrow & Hw1 & Hr).
  pose proof (WInv_grow _ _ _ Hinv Hjobs Hgrow Hw1) as [Hlock1 Hrun1].
  destruct r as [[found|]|e|]; [| | |done].
  - destruct Hr as (j & l & L & Hin & Hj & Hn & HL & HinL & Hpos & ->).
    destruct (LockInv_take _ _ _ _ _ _ _ _ Hlock1 Hj HL HinL Hpos Hn)
      as [Htake Hnact].
    assert (WInv (took w1 found l L) (<[found := Spawned]> t)) as Hnew.
    { split; [exact Htake|]. simpl. intros job0 j0 Hj0 Hs0.
      destruct (decide (job0 = found)) as [->|Hne].
      - exfalso. apply Hnact. right. apply (Hrun1 found j); [done|].
        rewrite list_lookup_alter_eq, Hj in Hj0. injection Hj0 as <-. done.
      - rewrite list_lookup_alter_ne in Hj0 by done.
        rewrite lookup_insert_ne by done. by eapply Hrun1. }
    assert (found ∈ queue (took w1 found l L)) as Hinq.
    { simpl. by rewrite Hq. }
    destruct (list_remove_elem_Some _ _ Hinq) as [q' ->].
    by destruct (Nat.eqb (length q') 0).
  - subst w'. done.
  - destruct Hr as (job & _ & Hnone & ->). split; simpl.
    + eapply LockInv_jobs; [exact Hlock1|].
      intros job0 j0 Hact Hj0.
      destruct (decide (job0 = job)) as [->|Hne].
      * exfalso. destruct Hlock1 as (_ & _ & Hhold & _).
        destruct (Hhold _ Hact) as (l & j & L & Hj & _ & _ & _ & _ & Hn).
        rewrite (Hnone _ Hj) in Hn. done.
      * exists j0. by rewrite list_lookup_alter_ne.
    + intros job0 j0 Hj0 Hs0.
      rewrite list_lookup_alter in Hj0. case_decide as Heq.
      * subst job0. destruct (heap_jobs w1 !! job) as [j|] eqn:Hj; [|done].
        injection Hj0 as <-. by eapply Hrun1.
      * by eapply Hrun1.
Qed.

Definition SInv (s : System) : Prop := WInv (world s) (tasks s).

Lemma step_SInv s l s' : SInv s -> step s l = Some s' -> SInv s'.
Proof.
  unfold SInv. intros Hinv Hstep. destruct l; simpl in Hstep.
  - injection Hstep as <-. simpl. by apply submit_WInv.
  - destruct (sched_alive s); [|done].
    pose proof (next_WInv _ _ Hinv) as Hn.
    destruct (JobsQueue_next (world s)) as [[job|e|] w];
      injection Hstep as <-; done.
  - destruct (tasks s !! job) as [[| |]|] eqn:Ht; try done.
    pose proof (run_begin_WInv now _ _ _ Hinv Ht) as Hb.
    destruct (Job_run_begin now (world s) job) as [[|] w];
      injection Hstep as <-; done.
  - destruct (tasks s !! job) as [[| |]|] eqn:Ht; try done.
    pose proof (run_end_WInv now _ _ _
                  (Job_call_method (world s) job) Hinv Ht) as He.
    destruct (Job_run_end now (world s) job (Job_call_method (world s) job))
      as [r w]. injection Hstep as <-. done.
Qed.

Lemma SInv_init : SInv System_init.
Proof.
  unfold SInv, WInv, System_init. simpl. split.
  - split_and!.
    + apply RegInv_empty.
    + intros l L H. by rewrite lookup_nil in H.
    + intros job [H|H]; by rewrite lookup_empty in H.
    + intros job1 job2 j1 j2 [H|H]; by rewrite lookup_empty in H.
  - intros job j H. by rewrite lookup_nil in H.
Qed.

Lemma run_trace_SInv t s s' : SInv s -> run_trace s t = Some s' -> SInv s'.
Proof.
  revert s. induction t as [|l t IH]; intros s Hinv; simpl.
  - by intros [= <-].
  - destruct (step s l) as [s1|] eqn:Hstep; [|done].
    apply IH. by eapply step_SInv.
Qed.

Lemma SInv_exclusive s job1 job2 j1 j2 name :
  SInv s ->
  heap_jobs (world s) !! job1 = Some j1 ->
  heap_jobs (world s) !! job2 = Some j2 ->
  Job_get_lock_name j1 = Some name -> Job_get_lock_name j2 = Some name ->
  Job_state j1 = RUNNING -> Job_state j2 = RUNNING ->
  job1 = job2.
Proof.
  intros [(Hreg & _ & Hhold & Huniq) Hrun] H1 H2 Hn1 Hn2 Hs1 Hs2.
  assert (active (tasks s) job1) as Ha1 by (right; by eapply Hrun).
  assert (active (tasks s) job2) as Ha2 by (right; by eapply Hrun).
  destruct (Hhold _ Ha1)
    as (l1 & j1' & L1 & Hj1 & Hl1 & HL1 & Hin1 & _ & Hname1).
  destruct (Hhold _ Ha2)
    as (l2 & j2' & L2 & Hj2 & Hl2 & HL2 & Hin2 & _ & Hname2).
  assert (j1' = j1) as -> by congruence.
  assert (j2' = j2) as -> by congruence.
  assert (Lock_jobs L1 <> []) as Hne1.
  { intros Heq. rewrite Heq in Hin1. by apply not_elem_of_nil in Hin1. }
  assert (Lock_jobs L2 <> []) as Hne2.
  { intros Heq. rewrite Heq in Hin2. by apply not_elem_of_nil in Hin2. }
  destruct Hreg as [_ Hreg2].
  pose proof (Hreg2 _ _ HL1 Hne1) as Hr1.
  pose proof (Hreg2 _ _ HL2 Hne2) as Hr2.
  assert (Lock_name L1 = Lock_name L2) as Heq by congruence.
  rewrite Heq in Hr1.
  apply (Huniq job1 job2 j1 j2); try done. congruence.
Qed.

Definition job_body : callable := fun _ => Ok VNone.

(** Two jobs under the lock names "a" and "b" are submitted, the scheduler
    loop takes two turns, and both greenlets enter their method. *)
Definition trace_two_names : list Label :=
  [LSubmit job_body [] (mkOptions (LockName "a")) 1;
   LSubmit job_body [] (mkOptions (LockName "b")) 2;
   LSched; LSched; LBegin 0 3; LBegin 1 4].

Definition state_of (s : System) (job : nat) : option State :=
  Job_state <$> heap_jobs (world s) !! job.

Definition lock_name_of (s : System) (job : nat) : option string :=
  heap_jobs (world s) !! job ≫= Job_get_lock_name.

(** X26: in every state that the scheduler loop and the job greenlets can
    reach, in whatever order their steps are taken, two different jobs
    with one and the same lock name are never both in Running.  The
    exclusion goes by the lock name alone: two jobs under different lock
    names can be in Running together. *)
Theorem lock_name_exclusion :
  (forall t s job1 job2 j1 j2 name,
     run_trace System_init t = Some s ->
     job1 <> job2 ->
     heap_jobs (world s) !! job1 = Some j1 ->
     heap_jobs (world s) !! job2 = Some j2 ->
     Job_get_lock_name j1 = Some name -> Job_get_lock_name j2 = Some name ->
     ~ (Job_state j1 = RUNNING /\ Job_state j2 = RUNNING))
  /\ (exists s,
        run_trace System_init trace_two_names = Some s
        /\ lock_name_of s 0 = Some "a" /\ lock_name_of s 1 = Some "b"
        /\ state_of s 0 = Some RUNNING /\ state_of s 1 = Some RUNNING).
Proof.
  split_and!.
  - intros t s job1 job2 j1 j2 name Hrun Hne H1 H2 Hn1 Hn2 [Hs1 Hs2].
    apply Hne. eapply SInv_exclusive; try done.
    eapply run_trace_SInv; [apply SInv_init|done].
  - eexists. split; [vm_compute; reflexivity|]. by vm_compute.
Qed.

(** Two jobs under the lock name "x": the first is taken by the scheduler
    and enters its method, the second is passed over. *)
Definition trace_one_name : list Label :=
  [LSubmit job_body [] (mkOptions (LockName "x")) 1;
   LSubmit job_body [] (mkOptions (LockName "x")) 2;
   LSched; LSched; LBegin 0 3].

Lemma lock_name_exclusion_witness :
  exists s j1 j2,
    run_trace System_init trace_one_name = Some s
    /\ heap_jobs (world s) !! 0%nat = Some j1
    /\ heap_jobs (world s) !! 1%nat = Some j2
    /\ Job_state j1 = RUNNING /\ Job_state j2 = WAITING
    /\ tasks s !! 1%nat = None
    /\ ~ (Job_state j1 = RUNNING /\ Job_state j2 = RUNNING).
Proof.
  eexists _, _, _.
  split; [vm_compute; reflexivity|].
  split; [reflexivity|]. split; [reflexivity|].
  split; [reflexivity|]. split; [reflexivity|].
  split; [reflexivity|].
  eapply (proj1 lock_name_exclusion trace_one_name _ 0%nat 1%nat _ _ "x");
    [vm_compute; reflexivity|discriminate|reflexivity..].
Defined.

(** ** The scheduler and a job without a lock *)

(** In no state that can be reached is a job without a lock name in
    Running. *)
Lemma job_without_lock_never_runs t s job j :
  run_trace System_init t = Some s ->
  heap_jobs (world s) !! job = Some j ->
  Job_get_lock_name j = None ->
  Job_state j <> RUNNING.
Proof.
  intros Hrun Hj Hn Hs.
  assert (SInv s) as [(_ & _ & Hhold & _) Hr]
    by (eapply run_trace_SInv; [apply SInv_init|done]).
  assert (active (tasks s) job) as Hact by (right; by eapply Hr).
  destruct (Hhold _ Hact) as (l & j' & L & Hj' & _ & _ & _ & _ & Hn').
  congruence.
Qed.

(** [next] on a queue whose first job has no lock name. *)
Lemma next_head_without_lock w job rest j :
  queue_event w = true -> queue w = job :: rest ->
  heap_jobs w !! job = Some j -> Job_get_lock_name j = None ->
  JobsQueue_next w =
    (Raised (AttributeError "'NoneType' object has no attribute 'acquire'"),
     unlocked w job).
Proof.
  intros He Hq Hj Hn. unfold JobsQueue_next. rewrite He, Hq. simpl.
  unfold JobsQueue_get_lock. by rewrite Hj, Hn.
Qed.

(** C5, the code at the failing input: a job without a [lock] option is
    added to a new queue; the selection step finds it, calls
    [job.set_lock(None)], and raises [AttributeError] out of [next]: no
    job is returned and the job stays in the queue, with the wake signal
    still set. *)
Theorem next_raises_on_job_without_lock method args now :
  let w :=
    JobsQueue_add
      (JobsQueue_init [Job_init method args (mkOptions LockAbsent) now])
      0%nat in
  queue w = [0%nat] /\ queue_event w = true
  /\ JobsQueue_get_lock w 0%nat = (None, w)
  /\ (JobsQueue_next w).1 =
       Raised (AttributeError "'NoneType' object has no attribute 'acquire'")
  /\ queue (JobsQueue_next w).2 = [0%nat]
  /\ queue_event (JobsQueue_next w).2 = true.
Proof. intros w. subst w. by vm_compute. Qed.

(** ** A registry entry that outlives its jobs *)

(** C6, the code at the failing input: two jobs under the lock name "x"
    are added; [next] returns job 0; the next turn passes over job 1 (its
    lock is held) after [get_lock] has put it in the list; job 0 releases;
    [next] puts job 1 in the list a second time and returns it; job 1
    releases, normally.  No job waits for "x" or holds it any more, yet
    "x" is still in the registry, with job 1 left in the list. *)
Theorem registry_entry_outlives_jobs :
  let w0 := JobsQueue_add (JobsQueue_add (JobsQueue_init [job_x; job_x]) 0) 1 in
  let r1 := JobsQueue_next w0 in
  let r2 := JobsQueue_next r1.2 in
  let r3 := JobsQueue_release_lock r2.2 0 in
  let r4 := JobsQueue_next r3.2 in
  let r5 := JobsQueue_release_lock r4.2 1 in
  r1.1 = Done 0%nat /\ r2.1 = Blocked /\ r3.1 = Ok tt
  /\ r4.1 = Done 1%nat /\ r5.1 = Ok tt
  /\ Lock_jobs <$> heap_locks r4.2 !! 0%nat = Some [1%nat; 1%nat]
  /\ queue r5.2 = []
  /\ job_locks r5.2 !! "x" = Some 0%nat
  /\ heap_locks r5.2 !! 0%nat =
       Some {| Lock_name := "x"; Lock_jobs := [1%nat]; Lock_semaphore := 1 |}.
Proof. by vm_compute. Qed.

(** * Further properties of job.py *)

(** ** JobsDeque: the window of the last jobs *)

(** The entries [(k, j0); (k+1, j1); ...] for the jobs [j0; j1; ...]. *)
Fixpoint numbered (k : Z) (jobs : list nat) : list (Z * nat) :=
  match jobs with
  | [] => []
  | job :: rest => (k, job) :: numbered (k + 1) rest
  end.

Lemma numbered_length k jobs : length (numbered k jobs) = length jobs.
Proof. revert k. induction jobs as [|j jobs IH]; intros k; simpl; auto. Qed.

Lemma numbered_app k jobs1 jobs2 :
  numbered k (jobs1 ++ jobs2)%list =
    (numbered k jobs1 ++ numbered (k + Z.of_nat (length jobs1)) jobs2)%list.
Proof.
  revert k. induction jobs1 as [|j jobs1 IH]; intros k; simpl.
  - by rewrite Z.add_0_r.
  - rewrite IH. do 3 f_equal. lia.
Qed.

Lemma numbered_keys k jobs k' v :
  (k', v) ∈ numbered k jobs -> k <= k' < k + Z.of_nat (length jobs).
Proof.
  revert k. induction jobs as [|j jobs IH]; intros k; simpl.
  - by intros ?%not_elem_of_nil.
  - intros [[= -> ->]|Hin]%elem_of_cons; [lia|].
    apply IH in Hin. lia.
Qed.

Lemma numbered_drop m k jobs :
  drop m (numbered k jobs) = numbered (k + Z.of_nat m) (drop m jobs).
Proof.
  revert k jobs. induction m as [|m IH]; intros k jobs.
  - simpl. by rewrite Z.add_0_r.
  - destruct jobs as [|j jobs]; simpl; [done|].
    rewrite IH. f_equal. lia.
Qed.

Lemma odict_set_fresh d k v :
  (forall k' v', (k', v') ∈ d -> k' <> k) ->
  odict_set d k v = (d ++ [(k, v)])%list.
Proof.
  induction d as [|[k0 v0] d IH]; intros Hfresh; simpl; [done|].
  destruct (Z.eqb_spec k0 k) as [->|Hne].
  - exfalso. apply (Hfresh k v0); [apply list_elem_of_here|done].
  - f_equal. apply IH. intros k' v' Hin. apply (Hfresh k' v').
    by apply list_elem_of_further.
Qed.

Lemma odict_get_numbered k jobs i :
  odict_get (numbered k jobs) i =
    if (k <=? i) then jobs !! Z.to_nat (i - k) else None.
Proof.
  revert k. induction jobs as [|j jobs IH]; intros k; simpl.
  - by destruct (k <=? i).
  - destruct (Z.eqb_spec k i) as [->|Hne].
    + rewrite Z.leb_refl, Z.sub_diag. done.
    + rewrite IH. destruct (Z.leb_spec (k + 1) i), (Z.leb_spec k i);
        try lia; [|done].
      replace (Z.to_nat (i - k)) with (S (Z.to_nat (i - (k + 1)))) by lia.
      done.
Qed.

Lemma tail_drop {A} (m : nat) (l : list A) : tail (drop m l) = drop (S m) l.
Proof.
  revert l. induction m as [|m IH]; intros [|x l]; simpl; done.
Qed.

Lemma JobsDeque_add_all_snoc d jobs job :
  JobsDeque_add_all d (jobs ++ [job])%list =
    (JobsDeque_add (JobsDeque_add_all d jobs) job).1.
Proof. unfold JobsDeque_add_all. by rewrite foldl_app. Qed.

(* The counter and the dict after a sequence of adds. *)
Lemma JobsDeque_add_all_spec (maxlen : Z) (jobs : list nat) :
  let d := JobsDeque_add_all (JobsDeque_init maxlen) jobs in
  Deque_count d = Z.of_nat (length jobs)
  /\ Deque_maxlen d = 1000
  /\ JobsDeque_all d = drop (length jobs - 1001) (numbered 1 jobs).
Proof.
  induction jobs as [|job jobs IH] using rev_ind; [done|].
  simpl in *. rewrite JobsDeque_add_all_snoc.
  destruct IH as (Hc & Hm & Hd). unfold JobsDeque_all in *.
  set (d := JobsDeque_add_all (JobsDeque_init maxlen) jobs) in *.
  unfold JobsDeque_add. simpl. rewrite Hc, Hm, Hd.
  rewrite length_app. simpl. split; [lia|]. split; [done|].
  rewrite numbered_app. simpl.
  rewrite length_drop, numbered_length.
  assert (forall m k' v', (k', v') ∈ drop m (numbered 1 jobs) ->
            k' <> Z.of_nat (length jobs) + 1) as Hfresh.
  { intros m k' v' Hin.
    assert ((k', v') ∈ numbered 1 jobs) as Hin'.
    { rewrite <- (take_drop m (numbered 1 jobs)). apply elem_of_app. by right. }
    apply numbered_keys in Hin'. lia. }
  destruct (Z.gtb_spec
    (Z.of_nat (length jobs - (length jobs - 1001))) 1000) as [Hgt|Hle].
  - unfold odict_popfirst. rewrite tail_drop.
    rewrite odict_set_fresh by apply Hfresh.
    replace (length jobs + 1 - 1001)%nat with (S (length jobs - 1001)) by lia.
    rewrite drop_app_le by (rewrite numbered_length; lia).
    by rewrite (Z.add_comm 1).
  - rewrite odict_set_fresh by apply Hfresh.
    replace (length jobs + 1 - 1001)%nat with 0%nat by lia.
    replace (length jobs - 1001)%nat with 0%nat by lia.
    simpl. by rewrite (Z.add_comm 1).
Qed.

(** X1: After any number of adds to a new deque, the counter is the number of
    jobs added, the [k]-th job added was given the id [k], and the dict
    holds, oldest first, the last 1001 of them (all of them when there are
    fewer): the entries leave in the order they came. *)
Theorem deque_holds_last_jobs (maxlen : Z) (jobs : list nat) :
  let d := JobsDeque_add_all (JobsDeque_init maxlen) jobs in
  Deque_count d = Z.of_nat (length jobs)
  /\ Deque_maxlen d = 1000
  /\ JobsDeque_all d = drop (length jobs - 1001) (numbered 1 jobs).
Proof. exact (JobsDeque_add_all_spec maxlen jobs). Qed.

(* The lookup by id in the dict after a sequence of adds. *)
Lemma JobsDeque_lookup_spec (maxlen : Z) (jobs : list nat) (i : Z) :
  let d := JobsDeque_add_all (JobsDeque_init maxlen) jobs in
  odict_get (JobsDeque_all d) i =
    if Z.of_nat (length jobs - 1001) <? i
    then jobs !! Z.to_nat (i - 1)
    else None.
Proof.
  intros d. destruct (JobsDeque_add_all_spec maxlen jobs) as (_ & _ & Hd).
  fold d in Hd. rewrite Hd, numbered_drop, odict_get_numbered.
  destruct (Z.leb_spec (1 + Z.of_nat (length jobs - 1001)) i),
           (Z.ltb_spec (Z.of_nat (length jobs - 1001)) i); try lia; [|done].
  rewrite lookup_drop. f_equal. lia.
Qed.

(** X2: Looking a job up by id in the history: after the jobs [jobs] were
    added to a new deque, id [i] leads to the [i]-th job added when it is
    among the last 1001, and to nothing when it is older, was never given,
    or is not positive. *)
Theorem deque_lookup_by_id (maxlen : Z) (jobs : list nat) (i : Z) :
  let d := JobsDeque_add_all (JobsDeque_init maxlen) jobs in
  odict_get (JobsDeque_all d) i =
    if Z.of_nat (length jobs - 1001) <? i
    then jobs !! Z.to_nat (i - 1)
    else None.
Proof. exact (JobsDeque_lookup_spec maxlen jobs i). Qed.

(** ** JobsQueue: one lock object per name *)

(** X3: Two jobs that give the same lock name are handed the same lock object
    by [get_lock], whatever was done on the queue before, and both are in
    its list afterwards. *)
Theorem get_lock_shares_lock (jobs : list Job) (ops : list Op)
    job1 job2 j1 j2 name :
  let w := foldl exec (JobsQueue_init jobs) ops in
  heap_jobs w !! job1 = Some j1 -> heap_jobs w !! job2 = Some j2 ->
  Job_get_lock_name j1 = Some name -> Job_get_lock_name j2 = Some name ->
  let r1 := JobsQueue_get_lock w job1 in
  let r2 := JobsQueue_get_lock r1.2 job2 in
  exists l L,
    r1.1 = Some l /\ r2.1 = Some l
    /\ job_locks r2.2 !! name = Some l
    /\ heap_locks r2.2 !! l = Some L /\ Lock_name L = name
    /\ job1 ∈ Lock_jobs L /\ job2 ∈ Lock_jobs L.
Proof.
  intros w Hj1 Hj2 Hn1 Hn2 r1 r2.
  assert (WReg w) as Hw by (apply foldl_exec_WReg, RegInv_empty).
  subst r2 r1.
  destruct (JobsQueue_get_lock w job1) as [lock1 w1] eqn:Hg1.
  destruct (get_lock_spec _ _ _ _ Hg1 Hw)
    as (Hjobs1 & _ & _ & _ & _ & Hw1 & Hlock1).
  destruct lock1 as [l1|].
  2: { destruct Hlock1 as [_ Hnone]. specialize (Hnone _ Hj1). congruence. }
  destruct Hlock1 as (j1' & L1 & Hj1' & Hname1 & HL1 & Hin1).
  assert (j1' = j1) as -> by congruence.
  assert (Lock_name L1 = name) as HnL1 by congruence.
  assert (job_locks w1 !! name = Some l1) as Hr1.
  { destruct Hw1 as [_ H2]. rewrite <- HnL1. apply H2; [done|].
    intros Heq. rewrite Heq in Hin1. by apply not_elem_of_nil in Hin1. }
  simpl. unfold JobsQueue_get_lock. rewrite Hjobs1, Hj2, Hn2, Hr1. simpl.
  exists l1, (JobSharedLock_add_job job2 L1).
  split_and!; try done.
  - by rewrite list_lookup_alter_eq, HL1.
  - simpl. apply elem_of_app. by left.
  - simpl. apply elem_of_app. right. apply list_elem_of_here.
Qed.

Definition job_a1 : Job :=
  Job_init (fun _ => Ok VNone) [] (mkOptions (LockName "a")) 0.
Definition job_a2 : Job :=
  Job_init (fun _ => Ok VNone) [VStr "tank"]
    (mkOptions (LockCallable (fun _ => Some "a"))) 0.

Lemma get_lock_shares_lock_witness :
  let w := foldl exec (JobsQueue_init [job_a1; job_a2]) [OpAdd 0; OpAdd 1] in
  let r1 := JobsQueue_get_lock w 0 in
  let r2 := JobsQueue_get_lock r1.2 1 in
  exists l L,
    r1.1 = Some l /\ r2.1 = Some l
    /\ job_locks r2.2 !! "a" = Some l
    /\ heap_locks r2.2 !! l = Some L /\ Lock_name L = "a"
    /\ 0%nat ∈ Lock_jobs L /\ 1%nat ∈ Lock_jobs L.
Proof.
  eapply (get_lock_shares_lock [job_a1; job_a2] [OpAdd 0; OpAdd 1]
            0%nat 1%nat); reflexivity.
Defined.

(** ** JobsQueue.next: the first job whose lock is free *)

(** The lock that [job]'s name leads to is held. *)
Definition job_blocked (w : World) (job : nat) : Prop :=
  exists j name l L,
    heap_jobs w !! job = Some j /\ Job_get_lock_name j = Some name
    /\ job_locks w !! name = Some l /\ heap_locks w !! l = Some L
    /\ Lock_semaphore L <= 0.

(** [job] has a lock name, and that name is not in the registry yet or
    leads to a lock that is free. *)
Definition job_free (w : World) (job : nat) : Prop :=
  exists j name,
    heap_jobs w !! job = Some j /\ Job_get_lock_name j = Some name
    /\ (job_locks w !! name = None
        \/ exists l L, job_locks w !! name = Some l
             /\ heap_locks w !! l = Some L /\ 0 < Lock_semaphore L).

(** Two worlds with the same jobs, queue and registry and the same
    semaphores. *)
Definition SameSem (w w1 : World) : Prop :=
  heap_jobs w1 = heap_jobs w /\ job_locks w1 = job_locks w
  /\ queue w1 = queue w /\ queue_event w1 = queue_event w
  /\ forall l, Lock_semaphore <$> heap_locks w1 !! l
               = Lock_semaphore <$> heap_locks w !! l.

Lemma SameSem_blocked w w1 job :
  SameSem w w1 -> job_blocked w1 job -> job_blocked w job.
Proof.
  intros (Hj & Hr & _ & _ & Hs) (j & name & l & L & H1 & H2 & H3 & H4 & H5).
  specialize (Hs l). rewrite H4 in Hs. simpl in Hs.
  destruct (heap_locks w !! l) as [L0|] eqn:HL0; [|done].
  injection Hs as Hs. exists j, name, l, L0.
  split_and!; try congruence; lia.
Qed.

Lemma SameSem_free w w1 job :
  SameSem w w1 -> job_free w1 job -> job_free w job.
Proof.
  intros (Hj & Hr & _ & _ & Hs) (j & name & H1 & H2 & H3).
  exists j, name. split_and!; try congruence.
  destruct H3 as [H3|(l & L & H3 & H4 & H5)]; [left; congruence|].
  right. specialize (Hs l). rewrite H4 in Hs. simpl in Hs.
  destruct (heap_locks w !! l) as [L0|] eqn:HL0; [|done].
  injection Hs as Hs. exists l, L0. split_and!; try congruence; lia.
Qed.

Lemma SameSem_trans a b c : SameSem a b -> SameSem b c -> SameSem a c.
Proof.
  intros (A1 & A2 & A3 & A4 & A5) (B1 & B2 & B3 & B4 & B5).
  split_and!; try congruence; intros l; by rewrite B5, A5.
Qed.

(** [get_lock] for a job whose lock is held only puts the job in the
    list of that lock. *)
Lemma get_lock_blocked w job :
  job_blocked w job ->
  exists l w1,
    JobsQueue_get_lock w job = (Some l, w1) /\ SameSem w w1
    /\ lock_locked w1 l = true.
Proof.
  intros (j & name & l & L & Hj & Hn & Hr & HL & Hs).
  exists l. eexists. unfold JobsQueue_get_lock. rewrite Hj, Hn, Hr.
  split; [done|]. split.
  - split_and!; try done. intros l0. simpl.
    destruct (decide (l0 = l)) as [->|Hne].
    + by rewrite list_lookup_alter_eq, HL.
    + by rewrite list_lookup_alter_ne.
  - unfold lock_locked. simpl. rewrite list_lookup_alter_eq, HL. simpl.
    unfold JobSharedLock_locked. simpl. by apply Z.leb_le.
Qed.

Lemma free_not_blocked w job : job_free w job -> job_blocked w job -> False.
Proof.
  intros (j & name & Hj & Hn & Hfree) (j' & name' & l & L & Hj' & Hn' & Hr & HL & Hs).
  assert (j' = j) as -> by congruence.
  assert (name' = name) as -> by congruence.
  destruct Hfree as [Hnone|(l0 & L0 & Hr0 & HL0 & Hs0)]; [congruence|].
  assert (l0 = l) as -> by congruence.
  assert (L0 = L) as -> by congruence. lia.
Qed.

(** When the loop of [next] leaves with a job, the jobs before it in the
    queue are blocked and it is the first one that is free. *)
Lemma scan_first_free q w found w' :
  JobsQueue_scan w q = (Done (Some found), w') -> WReg w ->
  exists pre post,
    q = (pre ++ found :: post)%list /\ Forall (job_blocked w) pre
    /\ job_free w found /\ found ∉ pre.
Proof.
  revert w. induction q as [|job q IH]; intros w Hscan Hw; [done|].
  simpl in Hscan.
  destruct (get_lock_cases w job)
    as [[Heq Hnone]|[(j & name & l & L & Hj & Hn & Hr & HL & Heq)
       |[(j & name & l & Hj & Hn & Hr & HL & Heq)
        |(j & name & Hj & Hn & Hr & Heq)]]];
    rewrite Heq in Hscan.
  - done.
  - unfold lock_locked in Hscan. simpl in Hscan.
    rewrite list_lookup_alter_eq, HL in Hscan. simpl in Hscan.
    unfold JobSharedLock_locked in Hscan. simpl in Hscan.
    destruct (Z.leb_spec (Lock_semaphore L) 0) as [Hle|Hgt]; simpl in Hscan.
    + assert (job_blocked w job) as Hb by (by exists j, name, l, L).
      destruct (get_lock_blocked w job Hb) as (l' & w1 & Hg & Hsame & _).
      rewrite Heq in Hg. injection Hg as <- <-.
      pose proof (get_lock_WReg w job Hw) as Hw1. rewrite Heq in Hw1.
      destruct (IH _ Hscan Hw1) as (pre & post & -> & Hpre & Hfree & Hnin).
      exists (job :: pre), post. split_and!; try done.
      * constructor; [done|].
        eapply Forall_impl; [exact Hpre|]. intros x. by apply SameSem_blocked.
      * by eapply SameSem_free.
      * intros [->|Hin]%elem_of_cons; [|done].
        eapply free_not_blocked; [|exact Hb]. by eapply SameSem_free.
    + unfold Job_set_lock in Hscan. simpl in Hscan.
      try (rewrite list_lookup_alter_eq, HL in Hscan; simpl in Hscan).
      unfold JobSharedLock_locked in Hscan. simpl in Hscan.
      try (destruct (Z.leb_spec (Lock_semaphore L) 0); [lia|]).
      injection Hscan as <- _.
      exists [], q. split_and!; try done.
      * exists j, name. split_and!; try done. right. by exists l, L.
      * apply not_elem_of_nil.
  - destruct Hw as [H1 _]. destruct (H1 _ _ Hr) as (L0 & HL0 & _). congruence.
  - unfold lock_locked in Hscan. simpl in Hscan.
    rewrite list_lookup_middle in Hscan by done. simpl in Hscan.
    unfold Job_set_lock in Hscan. simpl in Hscan.
    try (rewrite list_lookup_middle in Hscan by done; simpl in Hscan).
    injection Hscan as <- _.
    exists [], q. split_and!; try done.
    + exists j, name. split_and!; try done. by left.
    + apply not_elem_of_nil.
Qed.

Lemma list_remove_middle pre x post :
  x ∉ pre -> list_remove x (pre ++ x :: post)%list = Some (pre ++ post)%list.
Proof.
  induction pre as [|y pre IH]; intros Hnin; simpl.
  - by rewrite Nat.eqb_refl.
  - apply not_elem_of_cons in Hnin as [Hne Hnin].
    destruct (Nat.eqb_spec y x) as [->|_]; [done|].
    by rewrite IH.
Qed.

(** X5: In a state the scheduler and the job greenlets can reach, a turn of
    [next] that returns a job returns the first job of the queue whose
    lock is free: the jobs before it are blocked and stay queued in their
    order, the job leaves the queue, has the lock of its name in its
    [lock] field and is in that lock's list, the lock is now held, and the
    wake signal is cleared exactly when the queue is left empty. *)
Theorem next_returns_first_free t s found :
  run_trace System_init t = Some s ->
  (JobsQueue_next (world s)).1 = Done found ->
  let w := world s in
  let w' := (JobsQueue_next (world s)).2 in
  exists pre post,
    queue w = (pre ++ found :: post)%list
    /\ Forall (job_blocked w) pre /\ job_free w found
    /\ queue w' = (pre ++ post)%list
    /\ queue_event w' = negb (Nat.eqb (length (pre ++ post)) 0)
    /\ exists j l L,
         heap_jobs w' !! found = Some j /\ Job_lock j = Some l
         /\ heap_locks w' !! l = Some L /\ found ∈ Lock_jobs L
         /\ Job_get_lock_name j = Some (Lock_name L)
         /\ job_locks w' !! Lock_name L = Some l
         /\ JobSharedLock_locked L = true.
Proof.
  intros Hrun Hnext w w'. subst w'. fold w in Hnext |- *.
  assert (SInv s) as [(Hreg & Hsem & _) _]
    by (eapply run_trace_SInv; [apply SInv_init|done]).
  fold w in Hreg, Hsem.
  unfold JobsQueue_next in *.
  destruct (queue_event w) eqn:He; [|done].
  destruct (JobsQueue_scan w (queue w)) as [r w1] eqn:Hscan.
  destruct (scan_spec _ _ _ _ Hscan Hreg)
    as (w0 & Hjobs & Hq & He0 & _ & Hgrow & Hw0 & Hr).
  destruct r as [[found'|]|e|]; try done.
  destruct Hr as (j & l & L & Hin & Hj & Hn & HL & HinL & Hpos & ->).
  destruct (scan_first_free _ _ _ _ Hscan Hreg)
    as (pre & post & Hqueue & Hpre & Hfree & Hnin).
  assert (queue (took w0 found' l L) = (pre ++ found' :: post)%list) as Hq'.
  { simpl. by rewrite Hq. }
  rewrite Hq' in Hnext |- *.
  rewrite (list_remove_middle _ _ _ Hnin) in Hnext |- *.
  simpl in Hnext. injection Hnext as ->.
  assert (Lock_semaphore L <= 1) as Hle.
  { destruct Hgrow as [G1 G2]. destruct (G2 _ _ HL) as [[L0 HL0]|Hone]; [|lia].
    destruct (G1 _ _ HL0) as (L1 & HL1 & _ & Hs1 & _).
    specialize (Hsem _ _ HL0). congruence. }
  assert (job_locks w0 !! Lock_name L = Some l) as Hr0.
  { destruct Hw0 as [_ H2]. apply H2; [done|].
    intros Heq. rewrite Heq in HinL. by apply not_elem_of_nil in HinL. }
  assert (heap_locks w0 !! l = Some L) as HL' by done.
  apply lookup_lt_Some in HL'.
  assert (exists j0 l0 L0,
            heap_jobs (took w0 found l L) !! found = Some j0
            /\ Job_lock j0 = Some l0
            /\ heap_locks (took w0 found l L) !! l0 = Some L0
            /\ found ∈ Lock_jobs L0
            /\ Job_get_lock_name j0 = Some (Lock_name L0)
            /\ job_locks (took w0 found l L) !! Lock_name L0 = Some l0
            /\ JobSharedLock_locked L0 = true) as Hheld.
  { exists (Job_assign_lock j (Some l)), l, (JobSharedLock_acquire L).
    simpl. split_and!; try done.
    - by rewrite list_lookup_alter_eq, Hj.
    - by apply list_lookup_insert_eq.
    - unfold JobSharedLock_locked. simpl. apply Z.leb_le. lia. }
  exists pre, post.
  destruct (Nat.eqb (length (pre ++ post)) 0) eqn:Hb; simpl;
    split_and!; try done.
  by rewrite He0.
Qed.

(** Jobs 0 and 1 under "x", job 2 under "y"; the scheduler has taken job
    0. *)
Definition trace_x_x_y : list Label :=
  [LSubmit job_body [] (mkOptions (LockName "x")) 1;
   LSubmit job_body [] (mkOptions (LockName "x")) 2;
   LSubmit job_body [] (mkOptions (LockName "y")) 3;
   LSched].

Definition state_x_x_y : System :=
  default System_init (run_trace System_init trace_x_x_y).

Lemma next_returns_first_free_witness :
  run_trace System_init trace_x_x_y = Some state_x_x_y
  /\ queue (world state_x_x_y) = [1%nat; 2%nat]
  /\ (JobsQueue_next (world state_x_x_y)).1 = Done 2%nat
  /\ exists pre post,
       queue (world state_x_x_y) = (pre ++ 2%nat :: post)%list
       /\ Forall (job_blocked (world state_x_x_y)) pre
       /\ job_free (world state_x_x_y) 2%nat
       /\ queue (JobsQueue_next (world state_x_x_y)).2 = (pre ++ post)%list.
Proof.
  assert (run_trace System_init trace_x_x_y = Some state_x_x_y) as Hrun
    by (vm_compute; reflexivity).
  assert ((JobsQueue_next (world state_x_x_y)).1 = Done 2%nat) as Hnext
    by (vm_compute; reflexivity).
  split; [exact Hrun|]. split; [vm_compute; reflexivity|].
  split; [exact Hnext|].
  destruct (next_returns_first_free trace_x_x_y state_x_x_y 2%nat Hrun Hnext)
    as (pre & post & H1 & H2 & H3 & H4 & _).
  exists pre, post. split_and!; assumption.
Defined.

Lemma SameSem_refl w : SameSem w w.
Proof. by split_and!. Qed.

Lemma SameSem_sym w w1 : SameSem w w1 -> SameSem w1 w.
Proof. intros (A1 & A2 & A3 & A4 & A5). by split_and!. Qed.

Lemma scan_all_blocked q w :
  Forall (job_blocked w) q ->
  exists w1, JobsQueue_scan w q = (Done None, w1) /\ SameSem w w1.
Proof.
  revert w. induction q as [|job q IH]; intros w Hall; simpl.
  - exists w. split; [done|apply SameSem_refl].
  - apply Forall_cons in Hall as [Hb Hall].
    destruct (get_lock_blocked w job Hb) as (l & w1 & -> & Hsame & ->).
    simpl. destruct (IH w1) as (w2 & -> & Hsame2).
    + eapply Forall_impl; [exact Hall|]. intros x.
      apply SameSem_blocked. by apply SameSem_sym.
    + exists w2. split; [done|]. by eapply SameSem_trans.
Qed.

(** X6: A turn of [next] with the wake signal set and every queued job
    blocked (or no job queued) returns no job: the signal is cleared and
    the loop waits; the queue, the jobs, the registry and the semaphores
    are as before. *)
Theorem next_waits_when_all_blocked w :
  queue_event w = true ->
  Forall (job_blocked w) (queue w) ->
  let r := JobsQueue_next w in
  r.1 = Blocked /\ queue_event r.2 = false /\ queue r.2 = queue w
  /\ heap_jobs r.2 = heap_jobs w /\ job_locks r.2 = job_locks w
  /\ forall l, Lock_semaphore <$> heap_locks r.2 !! l
               = Lock_semaphore <$> heap_locks w !! l.
Proof.
  intros He Hall r. subst r. unfold JobsQueue_next. rewrite He.
  destruct (scan_all_blocked _ _ Hall) as (w1 & -> & (H1 & H2 & H3 & H4 & H5)).
  simpl. by split_and!.
Qed.

Definition world_x_held : World :=
  (JobsQueue_next
     (JobsQueue_add (JobsQueue_add (JobsQueue_init [job_x; job_x]) 0) 1)).2.

Lemma next_waits_when_all_blocked_witness :
  queue world_x_held = [1%nat]
  /\ (JobsQueue_next world_x_held).1 = Blocked
  /\ queue_event (JobsQueue_next world_x_held).2 = false
  /\ queue (JobsQueue_next world_x_held).2 = queue world_x_held.
Proof.
  split; [reflexivity|].
  assert (Forall (job_blocked world_x_held) (queue world_x_held)) as Hall.
  { repeat constructor.
    exists (Job_assign_lock (Job_set_id job_x 2) None), "x", 0%nat,
      {| Lock_name := "x"; Lock_jobs := [0%nat]; Lock_semaphore := 0 |}.
    split_and!; reflexivity || (vm_compute; discriminate). }
  destruct (next_waits_when_all_blocked world_x_held eq_refl Hall)
    as (H1 & H2 & H3 & _).
  by split_and!.
Defined.

(** ** The life of a job in the store *)

(** The ways a job in the store is written after it was added:
    [set_lock], [set_result], and a [set_state] that went through. *)
Inductive job_update : Job -> Job -> Prop :=
  | upd_refl j : job_update j j
  | upd_lock j l : job_update j (Job_assign_lock j l)
  | upd_result j v : job_update j (Job_set_result j v)
  | upd_state now j name j' :
      Job_set_state now j name = Ok j' -> job_update j j'
  | upd_trans j1 j2 j3 : job_update j1 j2 -> job_update j2 j3 -> job_update j1 j3.

(** Between [w] and [w'] the history deque was not touched, no job was
    added to the store and each job was only written in those ways. *)
Definition Upd (w w' : World) : Prop :=
  deque w' = deque w
  /\ length (heap_jobs w') = length (heap_jobs w)
  /\ forall a j, heap_jobs w !! a = Some j ->
       exists j', heap_jobs w' !! a = Some j' /\ job_update j j'.

Lemma Upd_refl w : Upd w w.
Proof. split_and!; try done. intros a j H. exists j. split; [done|constructor]. Qed.

Lemma Upd_trans a b c : Upd a b -> Upd b c -> Upd a c.
Proof.
  intros (A1 & A2 & A3) (B1 & B2 & B3). split_and!; try congruence.
  intros k j H. destruct (A3 _ _ H) as (j1 & H1 & U1).
  destruct (B3 _ _ H1) as (j2 & H2 & U2). exists j2. split; [done|].
  by eapply upd_trans.
Qed.

(** A world that differs from [w] in one job, written in one of those
    ways, and in fields other than the deque and the store of jobs. *)
Lemma Upd_one w w' a j j' :
  deque w' = deque w -> heap_jobs w !! a = Some j -> job_update j j' ->
  heap_jobs w' = <[a := j']> (heap_jobs w) -> Upd w w'.
Proof.
  intros Hd Hj Hu Hjobs. split_and!; [done|by rewrite Hjobs, length_insert|].
  intros k j0 Hk. rewrite Hjobs. destruct (decide (k = a)) as [->|Hne].
  - exists j'. rewrite list_lookup_insert_eq by (by eapply lookup_lt_Some).
    split; [done|]. congruence.
  - exists j0. rewrite list_lookup_insert_ne by done. split; [done|constructor].
Qed.

Lemma Upd_same w w' :
  deque w' = deque w -> heap_jobs w' = heap_jobs w -> Upd w w'.
Proof.
  intros Hd Hj. split_and!; try congruence.
  intros a j H. exists j. rewrite Hj. split; [done|constructor].
Qed.

Lemma get_lock_Upd w job : Upd w (JobsQueue_get_lock w job).2.
Proof.
  destruct (get_lock_cases w job)
    as [[-> _]|[(? & ? & ? & ? & _ & _ & _ & _ & ->)
       |[(? & ? & ? & _ & _ & _ & _ & ->)
        |(? & ? & _ & _ & _ & ->)]]]; by apply Upd_same.
Qed.

Lemma alter_as_insert {A} (f : A -> A) (l : list A) (i : nat) (x : A) :
  l !! i = Some x -> alter f i l = <[i := f x]> l.
Proof.
  intros H. apply list_eq. intros k. destruct (decide (k = i)) as [->|Hne].
  - rewrite list_lookup_alter_eq, H.
    by rewrite list_lookup_insert_eq by (by eapply lookup_lt_Some).
  - by rewrite list_lookup_alter_ne, list_lookup_insert_ne.
Qed.

Lemma alter_absent {A} (f : A -> A) (l : list A) (i : nat) :
  l !! i = None -> alter f i l = l.
Proof.
  intros H. apply list_eq. intros k. rewrite list_lookup_alter.
  case_decide; [subst; by rewrite H|done].
Qed.

Lemma set_lock_Upd w job lock : Upd w (Job_set_lock w job lock).2.
Proof.
  assert (Upd w (with_jobs w (alter (fun j => Job_assign_lock j lock) job
                                    (heap_jobs w)))) as Hu.
  { destruct (heap_jobs w !! job) as [j|] eqn:Hj.
    - apply (Upd_one w _ job j (Job_assign_lock j lock));
        [done|done|apply upd_lock|].
      simpl. by apply (alter_as_insert (fun j0 => Job_assign_lock j0 lock)).
    - apply Upd_same; [done|]. simpl. by apply alter_absent. }
  unfold Job_set_lock. destruct lock as [l|]; [|done]. simpl.
  destruct (heap_locks w !! l) as [L|]; [|done].
  destruct (JobSharedLock_locked L); [done|].
  eapply Upd_trans; [exact Hu|]. by apply Upd_same.
Qed.

Lemma release_lock_Upd w job : Upd w (JobsQueue_release_lock w job).2.
Proof.
  unfold JobsQueue_release_lock, JobSharedLock_remove_job.
  repeat (break_match; simpl); by apply Upd_same.
Qed.

Lemma scan_Upd q w : Upd w (JobsQueue_scan w q).2.
Proof.
  revert w. induction q as [|job q IH]; intros w; simpl; [apply Upd_refl|].
  pose proof (get_lock_Upd w job) as Hg.
  destruct (JobsQueue_get_lock w job) as [lock w1]. simpl in Hg.
  match goal with |- context [if ?b then _ else _] => destruct b end.
  - pose proof (set_lock_Upd w1 job lock) as Hs.
    destruct (Job_set_lock w1 job lock) as [[| |] w2]; simpl in *;
      by eapply Upd_trans.
  - eapply Upd_trans; [exact Hg|apply IH].
Qed.

Lemma next_Upd w : Upd w (JobsQueue_next w).2.
Proof.
  unfold JobsQueue_next. destruct (queue_event w); [|apply Upd_refl].
  pose proof (scan_Upd (queue w) w) as Hs.
  destruct (JobsQueue_scan w (queue w)) as [[[found|]| |] w1];
    simpl in *; try done.
  destruct (list_remove found (queue w1)); [|done]. simpl.
  eapply Upd_trans; [exact Hs|].
  destruct (Nat.eqb _ _); by apply Upd_same.
Qed.

Lemma store_job_Upd w job j j' :
  heap_jobs w !! job = Some j -> job_update j j' -> Upd w (store_job w job j').
Proof. intros Hj Hu. by eapply (Upd_one _ _ job j). Qed.

Lemma run_finally_Upd w job pending : Upd w (Job_run_finally w job pending).2.
Proof.
  unfold Job_run_finally. pose proof (release_lock_Upd w job) as Hr.
  by destruct (JobsQueue_release_lock w job) as [[|] w1].
Qed.

Lemma run_except_Upd now w job e : Upd w (Job_run_except now w job e).2.
Proof.
  unfold Job_run_except.
  destruct (heap_jobs w !! job) as [j|] eqn:Hj; [|apply Upd_refl].
  destruct (Job_set_state now j "FAILED") as [j'|e'] eqn:Hs.
  - eapply Upd_trans; [|apply run_finally_Upd].
    eapply store_job_Upd; [done|]. by eapply upd_state.
  - apply run_finally_Upd.
Qed.

Lemma run_begin_Upd now w job : Upd w (Job_run_begin now w job).2.
Proof.
  unfold Job_run_begin.
  destruct (heap_jobs w !! job) as [j|] eqn:Hj; [|apply Upd_refl].
  destruct (Job_set_state now j "RUNNING") as [j'|e'] eqn:Hs.
  - eapply store_job_Upd; [done|]. by eapply upd_state.
  - apply run_except_Upd.
Qed.

Lemma run_end_Upd now w job r : Upd w (Job_run_end now w job r).2.
Proof.
  unfold Job_run_end. destruct r as [v|e]; [|apply run_except_Upd].
  destruct (heap_jobs w !! job) as [j|] eqn:Hj; [|apply Upd_refl].
  assert (Upd w (store_job w job (Job_set_result j v))) as H1
    by (eapply store_job_Upd; [done|apply upd_result]).
  assert (heap_jobs (store_job w job (Job_set_result j v)) !! job
          = Some (Job_set_result j v)) as Hj1.
  { simpl. apply list_lookup_insert_eq. by eapply lookup_lt_Some. }
  destruct (Job_set_state now (Job_set_result j v) "SUCCESS") as [j2|e'] eqn:Hs.
  - eapply Upd_trans; [exact H1|].
    eapply Upd_trans; [|apply run_finally_Upd].
    eapply store_job_Upd; [exact Hj1|]. by eapply upd_state.
  - eapply Upd_trans; [exact H1|apply run_finally_Upd].
Qed.

Lemma set_state_fields now j name j' :
  Job_set_state now j name = Ok j' ->
  Job_method j' = Job_method j /\ Job_args j' = Job_args j
  /\ Job_options j' = Job_options j /\ Job_id j' = Job_id j
  /\ Job_lock j' = Job_lock j /\ Job_result j' = Job_result j
  /\ Job_progress j' = Job_progress j
  /\ Job_time_started j' = Job_time_started j
  /\ Job_time_finished j' = Some now.
Proof.
  unfold Job_set_state.
  repeat match goal with |- context [if ?b then _ else _] => destruct b end;
    try discriminate.
  destruct (State_members name); [|discriminate]. by intros [= <-].
Qed.

Lemma set_state_rank now j name j' :
  Job_set_state now j name = Ok j' ->
  state_rank (Job_state j) < state_rank (Job_state j').
Proof.
  intros H. destruct (State_members name) as [s|e] eqn:Hm.
  - apply State_members_inv in Hm as ->. rewrite Job_set_state_name in H.
    destruct j as [? ? ? ? ? ? st ? ? ?]; destruct st, s; simpl in *;
      try discriminate; injection H as <-; simpl; lia.
  - unfold Job_set_state in H. rewrite Hm in H.
    repeat match type of H with
           | context [if ?b then _ else _] => destruct b
           end; discriminate.
Qed.

(** What the writes to a job in the store leave alone, and what they can
    do to its state. *)
Lemma job_update_facts j j' :
  job_update j j' ->
  Job_method j' = Job_method j /\ Job_args j' = Job_args j
  /\ Job_options j' = Job_options j /\ Job_id j' = Job_id j
  /\ Job_time_started j' = Job_time_started j
  /\ state_rank (Job_state j) <= state_rank (Job_state j')
  /\ (state_rank (Job_state j) = 2 ->
      Job_state j' = Job_state j
      /\ Job_time_finished j' = Job_time_finished j)
  /\ ((Job_time_finished j = None <-> Job_state j = WAITING) ->
      (Job_time_finished j' = None <-> Job_state j' = WAITING)).
Proof.
  induction 1 as [j|j l|j v|now j name j' Hs|j1 j2 j3 _ IH1 _ IH2].
  - split_and!; try done; lia.
  - split_and!; try done; simpl; lia.
  - split_and!; try done; simpl; lia.
  - pose proof (set_state_fields _ _ _ _ Hs)
      as (H1 & H2 & H3 & H4 & _ & _ & _ & H8 & H9).
    pose proof (set_state_rank _ _ _ _ Hs) as Hr.
    split_and!; try done; try lia.
    + intros Hterm. destruct (Job_state j'); simpl in *; lia.
    + intros _. rewrite H9. split; [done|].
      intros Hw. rewrite Hw in Hr. destruct (Job_state j); simpl in *; lia.
  - destruct IH1 as (A1 & A2 & A3 & A4 & A5 & A6 & A7 & A8).
    destruct IH2 as (B1 & B2 & B3 & B4 & B5 & B6 & B7 & B8).
    split_and!; try congruence; try lia; [|tauto].
    intros Hterm. destruct (A7 Hterm) as [A7s A7t].
    assert (state_rank (Job_state j2) = 2) as Hterm2 by congruence.
    destruct (B7 Hterm2). split; congruence.
Qed.

Lemma step_Upd s l s' :
  step s l = Some s' ->
  match l with
  | LSubmit method args options now =>
      heap_jobs (world s') =
        (heap_jobs (world s)
         ++ [Job_set_id (Job_init method args options now)
               (Deque_count (deque (world s)) + 1)])%list
      /\ Deque_count (deque (world s')) = Deque_count (deque (world s)) + 1
  | _ => Upd (world s) (world s')
  end.
Proof.
  intros Hstep. destruct l; simpl in Hstep.
  - injection Hstep as <-. simpl. split; [|done]. by rewrite alter_snoc.
  - destruct (sched_alive s); [|done].
    pose proof (next_Upd (world s)) as Hn.
    destruct (JobsQueue_next (world s)) as [[job|e|] w];
      injection Hstep as <-; done.
  - destruct (tasks s !! job) as [[| |]|]; try done.
    pose proof (run_begin_Upd now (world s) job) as Hb.
    destruct (Job_run_begin now (world s) job) as [[|] w];
      injection Hstep as <-; done.
  - destruct (tasks s !! job) as [[| |]|]; try done.
    pose proof (run_end_Upd now (world s) job
                  (Job_call_method (world s) job)) as He.
    destruct (Job_run_end now (world s) job (Job_call_method (world s) job))
      as [r w]. injection Hstep as <-. done.
Qed.

(** Along any run, from any state: a job stays in the store at its
    address and is only written by [set_lock], [set_result] and
    [set_state]. *)
Lemma run_trace_Upd t s s' a j :
  run_trace s t = Some s' -> heap_jobs (world s) !! a = Some j ->
  exists j', heap_jobs (world s') !! a = Some j' /\ job_update j j'.
Proof.
  revert s j. induction t as [|l t IH]; intros s j; simpl.
  - intros [= <-] Hj. exists j. split; [done|constructor].
  - destruct (step s l) as [s1|] eqn:Hstep; [|done]. intros Hrun Hj.
    pose proof (step_Upd _ _ _ Hstep) as Hu.
    assert (exists j1, heap_jobs (world s1) !! a = Some j1 /\ job_update j j1)
      as (j1 & Hj1 & Hu1).
    { destruct l; try (destruct Hu as (_ & _ & Hu); by apply Hu).
      destruct Hu as [-> _]. exists j.
      split; [by apply lookup_app_l_Some|constructor]. }
    destruct (IH _ _ Hrun Hj1) as (j' & Hj' & Hu').
    exists j'. split; [done|]. by eapply upd_trans.
Qed.

(** In every state the scheduler and the job greenlets can reach, the
    counter of the history is the number of jobs in the store, and the job
    at address [a] is the one [Job.__init__] built for the [a+1]-th
    submission, given the id [a+1] and written since only by [set_lock],
    [set_result] and [set_state]. *)
Lemma job_origin t s :
  run_trace System_init t = Some s ->
  Deque_count (deque (world s)) = Z.of_nat (length (heap_jobs (world s)))
  /\ forall a j, heap_jobs (world s) !! a = Some j ->
       exists method args options now,
         job_update
           (Job_set_id (Job_init method args options now) (Z.of_nat a + 1)) j.
Proof.
  assert (forall t s0 s,
            (Deque_count (deque (world s0))
               = Z.of_nat (length (heap_jobs (world s0)))
             /\ forall a j, heap_jobs (world s0) !! a = Some j ->
                  exists method args options now,
                    job_update (Job_set_id (Job_init method args options now)
                                  (Z.of_nat a + 1)) j) ->
            run_trace s0 t = Some s ->
            Deque_count (deque (world s)) = Z.of_nat (length (heap_jobs (world s)))
            /\ forall a j, heap_jobs (world s) !! a = Some j ->
                 exists method args options now,
                   job_update (Job_set_id (Job_init method args options now)
                                 (Z.of_nat a + 1)) j) as Hgen.
  { clear t s. induction t as [|l t IH]; intros s0 s Hinv; simpl.
    - by intros [= <-].
    - destruct (step s0 l) as [s1|] eqn:Hstep; [|done].
      apply IH. destruct Hinv as [Hc Horig].
      pose proof (step_Upd _ _ _ Hstep) as Hu.
      destruct l.
      + destruct Hu as [Hj Hd]. rewrite Hj, Hd, length_app. simpl.
        split; [lia|]. intros a j Ha.
        apply lookup_app_Some in Ha as [Ha|[Hge Ha]]; [by apply Horig|].
        apply list_lookup_singleton_Some in Ha as [Hz <-].
        exists method, args, options, now.
        replace (Z.of_nat a + 1) with (Deque_count (deque (world s0)) + 1)
          by lia.
        constructor.
      + destruct Hu as (Hd & Hl & Hu). rewrite Hd, Hl. split; [done|].
        intros a j Ha.
        destruct (heap_jobs (world s0) !! a) as [j0|] eqn:Ha0.
        * destruct (Hu _ _ Ha0) as (j' & Hj' & Hu').
          assert (j' = j) as -> by congruence.
          destruct (Horig _ _ Ha0) as (m & ar & o & nw & Ho).
          exists m, ar, o, nw. by eapply upd_trans.
        * apply lookup_ge_None in Ha0. apply lookup_lt_Some in Ha. lia.
      + destruct Hu as (Hd & Hl & Hu). rewrite Hd, Hl. split; [done|].
        intros a j Ha.
        destruct (heap_jobs (world s0) !! a) as [j0|] eqn:Ha0.
        * destruct (Hu _ _ Ha0) as (j' & Hj' & Hu').
          assert (j' = j) as -> by congruence.
          destruct (Horig _ _ Ha0) as (m & ar & o & nw & Ho).
          exists m, ar, o, nw. by eapply upd_trans.
        * apply lookup_ge_None in Ha0. apply lookup_lt_Some in Ha. lia.
      + destruct Hu as (Hd & Hl & Hu). rewrite Hd, Hl. split; [done|].
        intros a j Ha.
        destruct (heap_jobs (world s0) !! a) as [j0|] eqn:Ha0.
        * destruct (Hu _ _ Ha0) as (j' & Hj' & Hu').
          assert (j' = j) as -> by congruence.
          destruct (Horig _ _ Ha0) as (m & ar & o & nw & Ho).
          exists m, ar, o, nw. by eapply upd_trans.
        * apply lookup_ge_None in Ha0. apply lookup_lt_Some in Ha. lia. }
  apply Hgen. split; [done|]. intros a j Ha. simpl in Ha.
  by rewrite lookup_nil in Ha.
Qed.

(* Ids of the jobs of a reachable state. *)
Lemma job_ids_spec t s :
  run_trace System_init t = Some s ->
  (forall a j, heap_jobs (world s) !! a = Some j ->
     Job_id j = Some (Z.of_nat a + 1))
  /\ (forall i a, odict_get (JobsQueue_all (world s)) i = Some a ->
        exists j, heap_jobs (world s) !! a = Some j /\ Job_id j = Some i).
Proof.
  intros Hrun.
  assert (forall a j, heap_jobs (world s) !! a = Some j ->
            Job_id j = Some (Z.of_nat a + 1)) as Hids.
  { intros a j Ha. destruct (job_origin _ _ Hrun) as [_ Horig].
    destruct (Horig _ _ Ha) as (m & ar & o & nw & Hu).
    apply job_update_facts in Hu as (_ & _ & _ & -> & _). done. }
  split; [exact Hids|].
  assert (forall t s0 s,
            deque (world s0) = JobsDeque_add_all (JobsDeque_init 1000)
                                 (seq 0 (length (heap_jobs (world s0)))) ->
            run_trace s0 t = Some s ->
            deque (world s) = JobsDeque_add_all (JobsDeque_init 1000)
                                (seq 0 (length (heap_jobs (world s))))) as Hgen.
  { clear. induction t as [|l t IH]; intros s0 s Hd; simpl.
    - by intros [= <-].
    - destruct (step s0 l) as [s1|] eqn:Hstep; [|done].
      apply IH. pose proof (step_Upd _ _ _ Hstep) as Hu.
      destruct l; try (destruct Hu as (-> & -> & _); done).
      destruct Hu as [Hj _]. rewrite Hj, length_app. simpl.
      rewrite seq_app. change (seq (0 + length (heap_jobs (world s0))) 1)
        with [length (heap_jobs (world s0))].
      rewrite JobsDeque_add_all_snoc, <- Hd.
      simpl in Hstep. by injection Hstep as <-. }
  specialize (Hgen t System_init s eq_refl Hrun).
  intros i a Hget. unfold JobsQueue_all in Hget. rewrite Hgen in Hget.
  rewrite JobsDeque_lookup_spec in Hget.
  rewrite length_seq in Hget.
  destruct (Z.ltb_spec (Z.of_nat (length (heap_jobs (world s)) - 1001)) i)
    as [Hlt|]; [|done].
  apply lookup_seq in Hget as [-> Hlen]. simpl in Hlen.
  destruct (lookup_lt_is_Some_2 (heap_jobs (world s)) (Z.to_nat (i - 1)) Hlen)
    as [j Hj].
  exists j. split; [done|]. rewrite (Hids _ _ Hj). f_equal. lia.
Qed.

(** X10: The ids assigned by the history and the [id] field of the jobs agree:
    in every reachable state the job at address [a] (the [a+1]-th one
    submitted) has id [a+1], and an id that [JobsQueue.all()] knows leads
    to the job that carries this id. *)
Theorem job_ids_follow_submission t s :
  run_trace System_init t = Some s ->
  (forall a j, heap_jobs (world s) !! a = Some j ->
     Job_id j = Some (Z.of_nat a + 1))
  /\ (forall i a, odict_get (JobsQueue_all (world s)) i = Some a ->
        exists j, heap_jobs (world s) !! a = Some j /\ Job_id j = Some i).
Proof. exact (job_ids_spec t s). Qed.

Definition state_one_name : System :=
  default System_init (run_trace System_init trace_one_name).

Lemma job_ids_follow_submission_witness :
  run_trace System_init trace_one_name = Some state_one_name
  /\ (Job_id <$> heap_jobs (world state_one_name) !! 1%nat) = Some (Some 2)
  /\ odict_get (JobsQueue_all (world state_one_name)) 2 = Some 1%nat.
Proof.
  assert (run_trace System_init trace_one_name = Some state_one_name) as Hrun
    by (vm_compute; reflexivity).
  split; [exact Hrun|].
  destruct (job_ids_follow_submission _ _ Hrun) as [Hids Hall].
  destruct (heap_jobs (world state_one_name) !! 1%nat) as [j|] eqn:Hj;
    [|vm_compute in Hj; discriminate].
  split; [simpl; f_equal; exact (Hids 1%nat j Hj)|].
  vm_compute. reflexivity.
Defined.

(** X11: Along any run of the scheduler and the job greenlets, from any state:
    a job keeps its method, arguments, options, id and start time; its
    state never goes back (Waiting, then Running, then Success or Failed);
    and once it is in Success or Failed its state and [time_finished] are
    never written again. *)
Theorem job_state_never_goes_back t s s' a j :
  run_trace s t = Some s' ->
  heap_jobs (world s) !! a = Some j ->
  exists j',
    heap_jobs (world s') !! a = Some j'
    /\ Job_args j' = Job_args j /\ Job_options j' = Job_options j
    /\ Job_id j' = Job_id j /\ Job_time_started j' = Job_time_started j
    /\ Job_get_lock_name j' = Job_get_lock_name j
    /\ state_rank (Job_state j) <= state_rank (Job_state j')
    /\ (Job_state j = SUCCESS \/ Job_state j = FAILED ->
        Job_state j' = Job_state j
        /\ Job_time_finished j' = Job_time_finished j).
Proof.
  intros Hrun Hj. destruct (run_trace_Upd _ _ _ _ _ Hrun Hj) as (j' & Hj' & Hu).
  exists j'. split; [done|].
  apply job_update_facts in Hu as (_ & H2 & H3 & H4 & H5 & H6 & H7 & _).
  split_and!; try done.
  - unfold Job_get_lock_name. by rewrite H2, H3.
  - intros Hterm. apply H7. by destruct Hterm as [-> | ->].
Qed.

Definition trace_finish_0 : list Label := [LEnd 0 5; LSched; LBegin 1 6].

Lemma job_state_never_goes_back_witness :
  exists j j' s',
    run_trace state_one_name trace_finish_0 = Some s'
    /\ heap_jobs (world state_one_name) !! 0%nat = Some j
    /\ heap_jobs (world s') !! 0%nat = Some j'
    /\ Job_state j = RUNNING /\ Job_state j' = SUCCESS
    /\ state_rank (Job_state j) <= state_rank (Job_state j').
Proof.
  destruct (heap_jobs (world state_one_name) !! 0%nat) as [j|] eqn:Hj;
    [|vm_compute in Hj; discriminate].
  destruct (run_trace state_one_name trace_finish_0) as [s'|] eqn:Hrun;
    [|vm_compute in Hrun; discriminate].
  destruct (job_state_never_goes_back _ _ _ _ _ Hrun Hj)
    as (j' & Hj' & _ & _ & _ & _ & _ & Hrank & _).
  exists j, j', s'. split_and!; try done.
  - vm_compute in Hj. injection Hj as <-. reflexivity.
  - vm_compute in Hrun. injection Hrun as <-.
    vm_compute in Hj'. injection Hj' as <-. reflexivity.
Defined.

(* [time_finished] and the state in a reachable state. *)
Lemma time_finished_spec t s a j :
  run_trace System_init t = Some s ->
  heap_jobs (world s) !! a = Some j ->
  Job_time_finished j = None <-> Job_state j = WAITING.
Proof.
  intros Hrun Ha. destruct (job_origin _ _ Hrun) as [_ Horig].
  destruct (Horig _ _ Ha) as (m & ar & o & nw & Hu).
  apply job_update_facts in Hu as (_ & _ & _ & _ & _ & _ & _ & H8).
  by apply H8.
Qed.

(** X12: In every reachable state, [time_finished] of a job is [None] exactly
    while the job is in Waiting: the first [set_state] that goes through
    writes it, whatever state it leads to. *)
Theorem time_finished_unset_iff_waiting t s a j :
  run_trace System_init t = Some s ->
  heap_jobs (world s) !! a = Some j ->
  Job_time_finished j = None <-> Job_state j = WAITING.
Proof. exact (time_finished_spec t s a j). Qed.

Lemma time_finished_unset_iff_waiting_witness :
  exists j0 j1,
    heap_jobs (world state_one_name) !! 0%nat = Some j0
    /\ heap_jobs (world state_one_name) !! 1%nat = Some j1
    /\ Job_state j0 = RUNNING /\ Job_time_finished j0 = Some 3
    /\ Job_state j1 = WAITING
    /\ (Job_time_finished j1 = None <-> Job_state j1 = WAITING).
Proof.
  assert (run_trace System_init trace_one_name = Some state_one_name) as Hrun
    by (vm_compute; reflexivity).
  destruct (heap_jobs (world state_one_name) !! 0%nat) as [j0|] eqn:Hj0;
    [|vm_compute in Hj0; discriminate].
  destruct (heap_jobs (world state_one_name) !! 1%nat) as [j1|] eqn:Hj1;
    [|vm_compute in Hj1; discriminate].
  exists j0, j1. split; [done|]. split; [done|].
  pose proof (time_finished_unset_iff_waiting _ _ _ _ Hrun Hj1) as Hiff.
  vm_compute in Hj0. injection Hj0 as <-.
  vm_compute in Hj1. injection Hj1 as <-.
  split_and!; try reflexivity. exact Hiff.
Defined.

(** ** The semaphore of a shared lock *)

Definition NonNeg (w : World) : Prop :=
  forall l L, heap_locks w !! l = Some L -> 0 <= Lock_semaphore L.

Lemma NonNeg_same w w' : heap_locks w' = heap_locks w -> NonNeg w -> NonNeg w'.
Proof. intros Heq H l L. rewrite Heq. apply H. Qed.

Lemma NonNeg_insert w w' l L' :
  heap_locks w' = <[l := L']> (heap_locks w) -> 0 <= Lock_semaphore L' ->
  NonNeg w -> NonNeg w'.
Proof.
  intros Heq Hs H l0 L0. rewrite Heq. destruct (decide (l0 = l)) as [->|Hne].
  - intros [(_ & <- & _)|[? _]]%list_lookup_insert_Some; done.
  - rewrite list_lookup_insert_ne by done. apply H.
Qed.

Lemma get_lock_NonNeg w job : NonNeg w -> NonNeg (JobsQueue_get_lock w job).2.
Proof.
  intros H.
  destruct (get_lock_cases w job)
    as [[-> _]|[(j & name & l & L & _ & _ & _ & HL & ->)
       |[(? & ? & ? & _ & _ & _ & _ & ->)
        |(j & name & _ & _ & _ & ->)]]]; simpl; try done.
  - eapply (NonNeg_insert w _ l (JobSharedLock_add_job job L)); try done.
    + simpl. by apply alter_as_insert.
    + simpl. by eapply H.
  - intros l L. simpl. intros [HL|[_ HL]]%lookup_app_Some; [by eapply H|].
    apply list_lookup_singleton_Some in HL as [_ <-]. done.
Qed.

Lemma set_lock_NonNeg w job lock : NonNeg w -> NonNeg (Job_set_lock w job lock).2.
Proof.
  intros H. unfold Job_set_lock. destruct lock as [l|]; simpl; [|done].
  destruct (heap_locks w !! l) as [L|] eqn:HL; simpl; [|done].
  unfold JobSharedLock_locked.
  destruct (Z.leb_spec (Lock_semaphore L) 0); simpl; [done|].
  eapply (NonNeg_insert w _ l (JobSharedLock_acquire L)); try done.
  simpl. lia.
Qed.

Lemma release_lock_NonNeg w job :
  NonNeg w -> NonNeg (JobsQueue_release_lock w job).2.
Proof.
  intros H. unfold JobsQueue_release_lock, JobSharedLock_remove_job.
  destruct (heap_jobs w !! job) as [j|]; [|done].
  destruct (Job_get_lock j) as [l|]; [|done].
  destruct (heap_locks w !! l) as [L|] eqn:HL; [|done].
  destruct (list_remove job (Lock_jobs L)) as [js|]; [|done].
  pose proof (H _ _ HL) as Hs. simpl.
  repeat (break_match; simpl);
    (eapply (NonNeg_insert w _ l); [done| |done]); simpl; lia.
Qed.

Lemma scan_NonNeg q w : NonNeg w -> NonNeg (JobsQueue_scan w q).2.
Proof.
  revert w. induction q as [|job q IH]; intros w H; simpl; [done|].
  pose proof (get_lock_NonNeg w job H) as Hg.
  destruct (JobsQueue_get_lock w job) as [lock w1]. simpl in Hg.
  match goal with |- context [if ?b then _ else _] => destruct b end.
  - pose proof (set_lock_NonNeg w1 job lock Hg) as Hs.
    by destruct (Job_set_lock w1 job lock) as [[| |] w2].
  - by apply IH.
Qed.

Lemma next_NonNeg w : NonNeg w -> NonNeg (JobsQueue_next w).2.
Proof.
  intros H. unfold JobsQueue_next. destruct (queue_event w); [|done].
  pose proof (scan_NonNeg (queue w) w H) as Hs.
  destruct (JobsQueue_scan w (queue w)) as [[[found|]| |] w1]; try done.
  simpl in Hs. destruct (list_remove found (queue w1)); [|done].
  simpl. by destruct (Nat.eqb _ _).
Qed.

Lemma run_finally_NonNeg w job pending :
  NonNeg w -> NonNeg (Job_run_finally w job pending).2.
Proof.
  intros H. unfold Job_run_finally.
  pose proof (release_lock_NonNeg w job H) as Hr.
  by destruct (JobsQueue_release_lock w job) as [[|] w1].
Qed.

Lemma run_except_NonNeg now w job e :
  NonNeg w -> NonNeg (Job_run_except now w job e).2.
Proof.
  intros H. unfold Job_run_except.
  destruct (heap_jobs w !! job) as [j|]; [|done].
  destruct (Job_set_state now j "FAILED"); by apply run_finally_NonNeg.
Qed.

Lemma step_NonNeg s l s' :
  NonNeg (world s) -> step s l = Some s' -> NonNeg (world s').
Proof.
  intros H Hstep. destruct l; simpl in Hstep.
  - injection Hstep as <-. simpl. unfold JobsQueue_add.
    by destruct (JobsDeque_add _ _).
  - destruct (sched_alive s); [|done].
    pose proof (next_NonNeg _ H) as Hn.
    destruct (JobsQueue_next (world s)) as [[job|e|] w];
      injection Hstep as <-; done.
  - destruct (tasks s !! job) as [[| |]|]; try done.
    assert (NonNeg (Job_run_begin now (world s) job).2) as Hb.
    { unfold Job_run_begin. destruct (heap_jobs (world s) !! job); [|done].
      destruct (Job_set_state now _ "RUNNING"); [done|].
      by apply run_except_NonNeg. }
    destruct (Job_run_begin now (world s) job) as [[|] w];
      injection Hstep as <-; done.
  - destruct (tasks s !! job) as [[| |]|]; try done.
    assert (forall r, NonNeg (Job_run_end now (world s) job r).2) as He.
    { intros r. unfold Job_run_end. destruct r; [|by apply run_except_NonNeg].
      destruct (heap_jobs (world s) !! job); [|done].
      destruct (Job_set_state now _ "SUCCESS"); by apply run_finally_NonNeg. }
    specialize (He (Job_call_method (world s) job)).
    destruct (Job_run_end now (world s) job (Job_call_method (world s) job))
      as [r w]. injection Hstep as <-. done.
Qed.

(** X9: In every state the scheduler and the job greenlets can reach, the
    semaphore of every shared lock is 0 or 1: a lock is never acquired
    while it is held and never released more often than it was
    acquired. *)
Theorem semaphore_is_binary t s l L :
  run_trace System_init t = Some s ->
  heap_locks (world s) !! l = Some L ->
  Lock_semaphore L = 0 \/ Lock_semaphore L = 1.
Proof.
  intros Hrun HL.
  assert (SInv s) as [(_ & Hsem & _) _]
    by (eapply run_trace_SInv; [apply SInv_init|done]).
  assert (forall t s0 s, NonNeg (world s0) -> run_trace s0 t = Some s ->
            NonNeg (world s)) as Hgen.
  { clear. induction t as [|lb t IH]; intros s0 s H; simpl.
    - by intros [= <-].
    - destruct (step s0 lb) as [s1|] eqn:Hstep; [|done].
      apply IH. by eapply step_NonNeg. }
  assert (NonNeg (world s)) as Hnn.
  { eapply Hgen; [|exact Hrun]. intros l0 L0 H0. simpl in H0.
    by rewrite lookup_nil in H0. }
  specialize (Hsem _ _ HL). specialize (Hnn _ _ HL). lia.
Qed.

Lemma semaphore_is_binary_witness :
  exists L,
    heap_locks (world state_one_name) !! 0%nat = Some L
    /\ Lock_name L = "x"
    /\ (Lock_semaphore L = 0 \/ Lock_semaphore L = 1).
Proof.
  assert (run_trace System_init trace_one_name = Some state_one_name) as Hrun
    by (vm_compute; reflexivity).
  destruct (heap_locks (world state_one_name) !! 0%nat) as [L|] eqn:HL;
    [|vm_compute in HL; discriminate].
  exists L. split; [done|].
  split; [vm_compute in HL; by injection HL as <-|].
  exact (semaphore_is_binary _ _ _ _ Hrun HL).
Defined.

(** ** Job.run from start to end *)

(** The job [j] moved to the state [s] at time [now], as [set_state]
    writes it. *)
Definition Job_moved (j : Job) (s : State) (now : Z) : Job :=
  {| Job_method := Job_method j; Job_args := Job_args j;
     Job_options := Job_options j; Job_id := Job_id j;
     Job_lock := Job_lock j; Job_result := Job_result j;
     Job_state := s; Job_progress := Job_progress j;
     Job_time_started := Job_time_started j;
     Job_time_finished := Some now |}.

Lemma set_state_waiting_running now j :
  Job_state j = WAITING ->
  Job_set_state now j "RUNNING" = Ok (Job_moved j RUNNING now).
Proof. destruct j; simpl; by intros ->. Qed.

Lemma set_state_running_success now j :
  Job_state j = RUNNING ->
  Job_set_state now j "SUCCESS" = Ok (Job_moved j SUCCESS now).
Proof. destruct j; simpl; by intros ->. Qed.

Lemma set_state_running_failed now j :
  Job_state j = RUNNING ->
  Job_set_state now j "FAILED" = Ok (Job_moved j FAILED now).
Proof. destruct j; simpl; by intros ->. Qed.

Lemma store_job_lookup w job j j' :
  heap_jobs w !! job = Some j -> heap_jobs (store_job w job j') !! job = Some j'.
Proof. intros H. simpl. apply list_lookup_insert_eq. by eapply lookup_lt_Some. Qed.

(** [release_lock] by a job that is in the list of the lock in its [lock]
    field, the name of that lock being in the registry. *)
Lemma release_lock_listed w job j l L :
  heap_jobs w !! job = Some j -> Job_lock j = Some l ->
  heap_locks w !! l = Some L -> job ∈ Lock_jobs L ->
  is_Some (job_locks w !! Lock_name L) ->
  exists w' js,
    JobsQueue_release_lock w job = (Ok tt, w')
    /\ heap_jobs w' = heap_jobs w /\ queue w' = queue w
    /\ queue_event w' = true
    /\ list_remove job (Lock_jobs L) = Some js
    /\ heap_locks w' !! l =
         Some {| Lock_name := Lock_name L; Lock_jobs := js;
                 Lock_semaphore := Lock_semaphore L + 1 |}
    /\ job_locks w' =
         if Nat.eqb (length js) 0 then delete (Lock_name L) (job_locks w)
         else job_locks w.
Proof.
  intros Hj Hl HL Hin [l0 Hr].
  destruct (list_remove_elem_Some _ _ Hin) as [js Hrm].
  unfold JobsQueue_release_lock, Job_get_lock, JobSharedLock_remove_job.
  rewrite Hj, Hl, HL, Hrm. simpl.
  apply lookup_lt_Some in HL as Hlt.
  destruct (Nat.eqb (length js) 0) eqn:Hb.
  - rewrite Hr. eexists _, js. rewrite Hb. split; [done|]. simpl.
    split_and!; try done. by apply list_lookup_insert_eq.
  - eexists _, js. rewrite Hb. split; [done|]. simpl.
    split_and!; try done. by apply list_lookup_insert_eq.
Qed.

(** X13: [Job.run] on a job in Waiting that holds its lock, the method body
    not being interleaved with anything: the job ends in Success with the
    value the method returned as its result and [run] returns, or in
    Failed with its result as it was and [run] raises what the method
    raised; either way [time_finished] is the time of the last
    [set_state], the job has left the list of its lock once, the
    semaphore was given back and the wake signal is set. *)
Theorem Job_run_outcome now1 now2 w job j l L :
  heap_jobs w !! job = Some j -> Job_state j = WAITING ->
  Job_lock j = Some l -> heap_locks w !! l = Some L -> job ∈ Lock_jobs L ->
  is_Some (job_locks w !! Lock_name L) ->
  let r := Job_run now1 now2 w job in
  exists j' js,
    heap_jobs r.2 = <[job := j']> (heap_jobs w)
    /\ Job_time_finished j' = Some now2
    /\ match Job_method j (AJob job :: map AVal (Job_args j)) with
       | Ok v => r.1 = Ok tt /\ Job_state j' = SUCCESS /\ Job_result j' = v
       | Raise e =>
           r.1 = Raise e /\ Job_state j' = FAILED
           /\ Job_result j' = Job_result j
       end
    /\ queue_event r.2 = true
    /\ list_remove job (Lock_jobs L) = Some js
    /\ heap_locks r.2 !! l =
         Some {| Lock_name := Lock_name L; Lock_jobs := js;
                 Lock_semaphore := Lock_semaphore L + 1 |}.
Proof.
  intros Hj Hst Hl HL Hin Hreg r. subst r.
  unfold Job_run, Job_run_begin. rewrite Hj.
  rewrite (set_state_waiting_running now1 j Hst).
  set (j1 := Job_moved j RUNNING now1).
  set (w1 := store_job w job j1).
  assert (heap_jobs w1 !! job = Some j1) as Hj1 by (by eapply store_job_lookup).
  unfold Job_call_method. rewrite Hj1.
  change (Job_method j1) with (Job_method j).
  change (Job_args j1) with (Job_args j).
  assert (forall jf : Job,
            Job_lock jf = Some l ->
            heap_jobs (store_job w1 job jf) = <[job := jf]> (heap_jobs w)
            /\ exists w' js,
                 JobsQueue_release_lock (store_job w1 job jf) job = (Ok tt, w')
                 /\ heap_jobs w' = <[job := jf]> (heap_jobs w)
                 /\ queue_event w' = true
                 /\ list_remove job (Lock_jobs L) = Some js
                 /\ heap_locks w' !! l =
                      Some {| Lock_name := Lock_name L; Lock_jobs := js;
                              Lock_semaphore := Lock_semaphore L + 1 |})
    as Hrel.
  { intros jf Hlf.
    assert (heap_jobs (store_job w1 job jf) = <[job := jf]> (heap_jobs w))
      as Hheap by (simpl; apply list_insert_insert_eq).
    split; [done|].
    destruct (release_lock_listed (store_job w1 job jf) job jf l L)
      as (w' & js & H1 & H2 & _ & H4 & H5 & H6 & _); try done.
    { by eapply store_job_lookup. }
    exists w', js. split_and!; try done. by rewrite H2. }
  destruct (Job_method j (AJob job :: map AVal (Job_args j))) as [v|e];
    unfold Job_run_end, Job_run_except; rewrite Hj1.
  - rewrite (set_state_running_success now2 (Job_set_result j1 v) eq_refl).
    set (j2 := Job_moved (Job_set_result j1 v) SUCCESS now2).
    assert (store_job (store_job w1 job (Job_set_result j1 v)) job j2
            = store_job w1 job j2) as ->.
    { unfold store_job, with_jobs. simpl. f_equal.
      apply list_insert_insert_eq. }
    destruct (Hrel j2 Hl) as (Hheap & w' & js & Hr & H1 & H2 & H3 & H4).
    unfold Job_run_finally. rewrite Hr. simpl.
    exists j2, js. by split_and!.
  - rewrite (set_state_running_failed now2 j1 eq_refl).
    set (j2 := Job_moved j1 FAILED now2).
    destruct (Hrel j2 Hl) as (Hheap & w' & js & Hr & H1 & H2 & H3 & H4).
    unfold Job_run_finally. rewrite Hr. simpl.
    exists j2, js. by split_and!.
Qed.

Lemma Job_run_outcome_witness :
  exists j' js,
    heap_jobs (Job_run 3 5 world_x_held 0).2
      = <[0%nat := j']> (heap_jobs world_x_held)
    /\ Job_time_finished j' = Some 5
    /\ (Job_run 3 5 world_x_held 0).1 = Ok tt
    /\ Job_state j' = SUCCESS /\ Job_result j' = VNone
    /\ queue_event (Job_run 3 5 world_x_held 0).2 = true
    /\ list_remove 0%nat [0%nat] = Some js.
Proof.
  destruct (Job_run_outcome 3 5 world_x_held 0%nat
              (Job_assign_lock (Job_set_id job_x 1) (Some 0%nat)) 0%nat
              {| Lock_name := "x"; Lock_jobs := [0%nat]; Lock_semaphore := 0 |})
    as (j' & js & H1 & H2 & (H3 & H4 & H5) & H6 & H7 & _);
    try reflexivity.
  { apply list_elem_of_here. }
  { vm_compute. eauto. }
  exists j', js. by split_and!.
Defined.

(** * Further properties of main.py *)

(** ** The dispatcher *)

(** X16: A method message without an id: [Application.call_method] reads
    [message['id']] before it calls the middleware, so the middleware is
    not called, nothing is sent, and the [KeyError] raised again by
    [send_error] in the handler leaves [call_method]. *)
Theorem call_method_without_id py now mw app message :
  dict_find message "id" = None ->
  Application_call_method py now mw app message
    = (Raise (KeyError "id"), (mw, app)).
Proof.
  intros Hid. unfold Application_call_method, Application_send_error, dict_item.
  by rewrite Hid.
Qed.

Lemma call_method_without_id_witness :
  Application_call_method python_example 0 mw_system app_root
    [("msg", VStr "method"); ("method", VStr "system.info")]
  = (Raise (KeyError "id"), (mw_system, app_root)).
Proof. by apply call_method_without_id. Defined.

(** X17: A call that passes the authentication check, of a method that is not
    a job, with a list of parameters or none: the body is called once,
    inline, with the session first when the method asks for it and then
    the parameters.  What the body returns goes back in the reply
    [{id: id, msg: result, result: value}]; an [Exception] it raises goes
    back in the reply [{msg: result, id: id, error: {error: text,
    stacktrace: traceback}}]; nothing else is sent.  An exception that is
    no [Exception] leaves [call_method] and nothing is sent. *)
Theorem call_method_sync py now mw app message full service method svc m id
    ps :
  dict_find message "method" = Some (VStr full) ->
  rsplit_dot full = Some (service, method) ->
  assoc (services mw) service = Some svc ->
  assoc (svc_methods svc) method = Some m ->
  authenticated app = true \/ no_auth_required m = true ->
  is_job m = false ->
  dict_find message "id" = Some id ->
  dict_find message "params" = Some (VList ps)
  \/ (dict_find message "params" = None /\ ps = []) ->
  let args :=
    ((if pass_app m then [AApp (sessionid app)] else []) ++ map AVal ps)%list in
  let r := Application_call_method py now mw app message in
  invoked r.2.1 = (invoked mw ++ [(service, method, args)])%list
  /\ spawned r.2.1 = spawned mw /\ mw_heap r.2.1 = mw_heap mw
  /\ match body m args with
     | Ok v =>
         r.1 = Ok tt
         /\ sent r.2.2 =
              (sent app
               ++ [VDict [("id", id); ("msg", VStr "result");
                          ("result", v)]])%list
     | Raise e =>
         if exn_is_Exception e then
           r.1 = Ok tt
           /\ sent r.2.2 =
                (sent app
                 ++ [VDict [("msg", VStr "result"); ("id", id);
                            ("error",
                             VDict [("error", VStr (exn_str e));
                                    ("stacktrace",
                                     VStr (format_exception py e))])]])%list
         else r.1 = Raise e /\ sent r.2.2 = sent app
     end.
Proof.
  intros Hm Hsplit Hsvc Hmeth Hauth Hjob Hid Hps args r. subst r.
  assert (py_iter py (if truthy (dict_get message "params")
                      then dict_get message "params" else VList []) = Ok ps)
    as Hiter.
  { unfold dict_get. destruct Hps as [-> | [-> ->]]; [|done].
    simpl. by destruct ps. }
  assert (Middleware_call_method py now mw app message =
            (body m args,
             (mw_with_invoked mw
                (invoked mw ++ [(service, method, args)])%list,
              app))) as Hcall.
  { unfold Middleware_call_method, dict_item, Middleware_get_service,
      service_getattr.
    rewrite Hm, Hsplit, Hsvc, Hmeth, Hjob.
    assert (negb (authenticated app) && negb (no_auth_required m) = false)
      as -> by (destruct Hauth as [-> | ->]; simpl;
                [done|apply andb_false_r]).
    by rewrite Hiter. }
  rewrite (Application_call_method_cases py now mw app message id Hid), Hcall.
  simpl. destruct (body m args) as [v|e]; simpl; [done|].
  by destruct (exn_is_Exception e).
Qed.

(** A service with a method that gives back its one parameter and raises
    [TypeError] when called with another number of them. *)
Definition svc_echo : Service :=
  mkService "EchoService"
    [("echo",
      mkMethod false false false
        (fun args =>
           match args with
           | [AVal v] => Ok v
           | _ => Raise (TypeError "echo() takes exactly 2 arguments")
           end))].

Definition mw_echo : Middleware :=
  mkMiddleware [("test", svc_echo)] (JobsDeque_init 1000) [] [] [].

Lemma call_method_sync_witness :
  let r1 := Application_call_method python_example 0 mw_echo app_root
              [("msg", VStr "method"); ("id", VInt 4);
               ("method", VStr "test.echo"); ("params", VList [VStr "hello"])] in
  let r2 := Application_call_method python_example 0 mw_echo app_root
              [("msg", VStr "method"); ("id", VInt 5);
               ("method", VStr "test.echo")] in
  (r1.1 = Ok tt
   /\ invoked r1.2.1 = [("test", "echo", [AVal (VStr "hello")])]
   /\ sent r1.2.2 =
        [VDict [("id", VInt 4); ("msg", VStr "result");
                ("result", VStr "hello")]])
  /\ (r2.1 = Ok tt
      /\ invoked r2.2.1 = [("test", "echo", [])]
      /\ sent r2.2.2 =
           [VDict [("msg", VStr "result"); ("id", VInt 5);
                   ("error",
                    VDict [("error", VStr "echo() takes exactly 2 arguments");
                           ("stacktrace",
                            VStr (format_exception python_example
                                    (TypeError
                                       "echo() takes exactly 2 arguments")))])]]).
Proof.
  intros r1 r2. split.
  - destruct (call_method_sync python_example 0 mw_echo app_root
                [("msg", VStr "method"); ("id", VInt 4);
                 ("method", VStr "test.echo");
                 ("params", VList [VStr "hello"])]
                "test.echo" "test" "echo" svc_echo
                (mkMethod false false false
                   (fun args =>
                      match args with
                      | [AVal v] => Ok v
                      | _ => Raise (TypeError "echo() takes exactly 2 arguments")
                      end))
                (VInt 4) [VStr "hello"]
                eq_refl eq_refl eq_refl eq_refl (or_introl eq_refl) eq_refl
                eq_refl (or_introl eq_refl))
      as (H1 & _ & _ & H2 & H3).
    by split_and!.
  - destruct (call_method_sync python_example 0 mw_echo app_root
                [("msg", VStr "method"); ("id", VInt 5);
                 ("method", VStr "test.echo")]
                "test.echo" "test" "echo" svc_echo
                (mkMethod false false false
                   (fun args =>
                      match args with
                      | [AVal v] => Ok v
                      | _ => Raise (TypeError "echo() takes exactly 2 arguments")
                      end))
                (VInt 5) []
                eq_refl eq_refl eq_refl eq_refl (or_introl eq_refl) eq_refl
                eq_refl (or_intror (conj eq_refl eq_refl)))
      as (H1 & _ & _ & H2 & H3).
    by split_and!.
Defined.

(** X18: A call whose method name does not resolve: the session gets one
    error reply for the call, [{msg: result, id: id, error: {error: text,
    stacktrace: traceback}}], no body is called and the middleware is as
    before.  The text is that of the [ValueError] of the unpacking when
    the name has no dot, of the [KeyError] with the name of the service
    when no such service is registered, and of the [AttributeError] with
    the class of the service and the name of the method when the service
    has no such method. *)
Theorem call_method_unresolved py now mw app message full id :
  dict_find message "method" = Some (VStr full) ->
  dict_find message "id" = Some id ->
  rsplit_dot full = None
  \/ (exists service method,
        rsplit_dot full = Some (service, method)
        /\ (assoc (services mw) service = None
            \/ exists svc, assoc (services mw) service = Some svc
                 /\ assoc (svc_methods svc) method = None)) ->
  let r := Application_call_method py now mw app message in
  r.1 = Ok tt /\ r.2.1 = mw
  /\ exists e,
       sent r.2.2 =
         (sent app
          ++ [VDict [("msg", VStr "result"); ("id", id);
                     ("error",
                      VDict [("error", VStr (exn_str e));
                             ("stacktrace",
                              VStr (format_exception py e))])]])%list
       /\ match rsplit_dot full with
          | None => e = Exn "ValueError" "need more than 1 value to unpack" true
          | Some (service, method) =>
              match assoc (services mw) service with
              | None => e = Exn "KeyError" ("'" ++ service ++ "'") true
              | Some svc =>
                  e = Exn "AttributeError"
                        ("'" ++ svc_class svc
                         ++ "' object has no attribute '" ++ method ++ "'")
                        true
              end
          end.
Proof.
  intros Hm Hid Hcases r. subst r.
  rewrite (Application_call_method_cases py now mw app message id Hid).
  unfold Middleware_call_method, dict_item, Middleware_get_service,
    service_getattr. rewrite Hm.
  destruct Hcases as [->|(service & method & -> & [->|(svc & -> & ->)])];
    simpl; (split_and!; [done..|]).
  - exists (Exn "ValueError" "need more than 1 value to unpack" true).
    by split.
  - exists (Exn "KeyError" ("'" ++ service ++ "'") true). by split.
  - exists (Exn "AttributeError"
              ("'" ++ svc_class svc ++ "' object has no attribute '"
               ++ method ++ "'") true).
    by split.
Qed.

Lemma call_method_unresolved_witness :
  let r1 := Application_call_method python_example 0 mw_system app_root
              [("msg", VStr "method"); ("id", VInt 3);
               ("method", VStr "system.nope")] in
  let r2 := Application_call_method python_example 0 mw_system app_root
              [("msg", VStr "method"); ("id", VInt 3);
               ("method", VStr "nodot")] in
  (r1.1 = Ok tt /\ r1.2.1 = mw_system
   /\ sent r1.2.2 =
        [VDict [("msg", VStr "result"); ("id", VInt 3);
                ("error",
                 VDict [("error",
                         VStr "'SystemService' object has no attribute 'nope'");
                        ("stacktrace",
                         VStr (format_exception python_example
                                 (AttributeError
                                    "'SystemService' object has no attribute 'nope'")))])]])
  /\ (r2.1 = Ok tt /\ r2.2.1 = mw_system
      /\ sent r2.2.2 =
           [VDict [("msg", VStr "result"); ("id", VInt 3);
                   ("error",
                    VDict [("error", VStr "need more than 1 value to unpack");
                           ("stacktrace",
                            VStr (format_exception python_example
                                    (ValueError
                                       "need more than 1 value to unpack")))])]]).
Proof.
  intros r1 r2. split.
  - destruct (call_method_unresolved python_example 0 mw_system app_root
                [("msg", VStr "method"); ("id", VInt 3);
                 ("method", VStr "system.nope")] "system.nope" (VInt 3)
                eq_refl eq_refl)
      as (H1 & H2 & e & H3 & He).
    { right. exists "system", "nope". split; [reflexivity|].
      right. exists svc_system. by split. }
    simpl in He. subst e. by split_and!.
  - destruct (call_method_unresolved python_example 0 mw_system app_root
                [("msg", VStr "method"); ("id", VInt 3);
                 ("method", VStr "nodot")] "nodot" (VInt 3)
                eq_refl eq_refl (or_introl eq_refl))
      as (H1 & H2 & e & H3 & He).
    simpl in He. subst e. by split_and!.
Defined.

(** ** The session *)

Lemma send_error_session app message error stacktrace :
  let r := Application_send_error app message error stacktrace in
  sessionid r.2 = sessionid app /\ cb_on_message r.2 = cb_on_message app
  /\ logged r.2 = logged app.
Proof.
  unfold Application_send_error. by destruct (dict_item message "id").
Qed.

Lemma Middleware_call_method_session py now mw app message :
  let r := Middleware_call_method py now mw app message in
  sessionid r.2.2 = sessionid app /\ cb_on_message r.2.2 = cb_on_message app
  /\ logged r.2.2 = logged app.
Proof.
  unfold Middleware_call_method.
  repeat (break_match; simpl; try done).
  all: match goal with
       | H : Application_send_error ?a ?m ?e ?s = (_, ?a') |- _ =>
           pose proof (send_error_session a m e s) as Hf;
           rewrite H in Hf; exact Hf
       end.
Qed.

Lemma Application_call_method_session py now mw app message :
  let r := Application_call_method py now mw app message in
  authenticated r.2.2 = authenticated app /\ handshake r.2.2 = handshake app
  /\ sessionid r.2.2 = sessionid app /\ cb_on_message r.2.2 = cb_on_message app
  /\ logged r.2.2 = logged app
  /\ exists extra, sent r.2.2 = (sent app ++ extra)%list.
Proof.
  unfold Application_call_method.
  pose proof (Middleware_call_method_fields py now mw app message)
    as (A1 & A2 & extra & A3).
  pose proof (Middleware_call_method_session py now mw app message)
    as (B1 & B2 & B3).
  destruct (dict_item message "id") as [id|e]; simpl.
  - destruct (Middleware_call_method py now mw app message)
      as [[v|e] [mw1 app1]]; simpl in *.
    + split_and!; try done. eexists. by rewrite A3, <- app_assoc.
    + destruct (exn_is_Exception e); simpl; [|split_and!; try done; by eexists].
      pose proof (send_error_fields app1 message (exn_str e)
                    (VStr (format_exception py e))) as (C1 & C2 & extra2 & C3).
      pose proof (send_error_session app1 message (exn_str e)
                    (VStr (format_exception py e))) as (D1 & D2 & D3).
      destruct (Application_send_error app1 message (exn_str e)
                  (VStr (format_exception py e))) as [r2 app2]; simpl in *.
      split_and!; try congruence.
      eexists. by rewrite C3, A3, <- app_assoc.
  - destruct (exn_is_Exception e); simpl.
    2: { split_and!; try done. exists []. by rewrite app_nil_r. }
    pose proof (send_error_fields app message (exn_str e)
                  (VStr (format_exception py e))) as (C1 & C2 & extra2 & C3).
    pose proof (send_error_session app message (exn_str e)
                  (VStr (format_exception py e))) as (D1 & D2 & D3).
    destruct (Application_send_error app message (exn_str e)
                (VStr (format_exception py e))) as [r2 app2]; simpl in *.
    split_and!; try done. by eexists.
Qed.

(** X20: On a session that is connected and authenticated, [on_message] is the
    callbacks followed by the call path and nothing more: a method message
    is handed to [call_method] and gets its replies only, and a message
    that is neither a connect nor a method message is dropped without a
    reply and without a call of the middleware. *)
Theorem on_message_authenticated py now mw app message msg :
  handshake app = true -> authenticated app = true ->
  dict_find message "msg" = Some msg -> msg <> VStr "connect" ->
  let app0 := run_callbacks (cb_on_message app) message app in
  Application_on_message py now mw app message =
    if py_eq_str msg "method"
    then Application_call_method py now mw app0 message
    else (Ok tt, (mw, app0)).
Proof.
  intros Hh Ha Hmsg Hnc app0. subst app0.
  unfold Application_on_message, dict_item.
  destruct (run_callbacks_fields (cb_on_message app) message app)
    as (Ha' & Hh' & _).
  set (app0 := run_callbacks (cb_on_message app) message app) in *.
  rewrite Ha in Ha'. rewrite Hh in Hh'.
  rewrite Hmsg. apply py_eq_str_false in Hnc. rewrite Hnc, Hh'. simpl.
  destruct (py_eq_str msg "method"); [|by rewrite Ha'].
  pose proof (Application_call_method_session py now mw app0 message)
    as (C1 & _).
  destruct (Application_call_method py now mw app0 message)
    as [[[]|e] [mw1 app1]]; simpl in *; [|done].
  by rewrite C1, Ha'.
Qed.

Lemma on_message_authenticated_witness :
  Application_on_message python_example 0 mw_system app_root
    [("msg", VStr "ping"); ("id", VInt 1)]
  = (Ok tt, (mw_system, app_root))
  /\ Application_on_message python_example 0 mw_system app_root msg_system_info
     = Application_call_method python_example 0 mw_system app_root
         msg_system_info.
Proof.
  split.
  - apply (on_message_authenticated python_example 0 mw_system app_root
             [("msg", VStr "ping"); ("id", VInt 1)] (VStr "ping"));
      reflexivity || discriminate.
  - apply (on_message_authenticated python_example 0 mw_system app_root
             msg_system_info (VStr "method")); reflexivity || discriminate.
Defined.

(** X21: Whatever message comes in, and whether [on_message] returns or
    raises: the session keeps its authentication flag, its session id and
    its callbacks; what was sent before stays sent, in order; and the
    handshake flag is never cleared, it becomes set exactly by a connect
    message with version "1". *)
Theorem on_message_session_fields py now mw app message :
  let r := Application_on_message py now mw app message in
  authenticated r.2.2 = authenticated app
  /\ sessionid r.2.2 = sessionid app
  /\ cb_on_message r.2.2 = cb_on_message app
  /\ (exists extra, sent r.2.2 = (sent app ++ extra)%list)
  /\ handshake r.2.2 =
       handshake app
       || (py_eq_str (dict_get message "msg") "connect"
           && py_eq_str (dict_get message "version") "1").
Proof.
  assert (dict_get message "msg" =
          match dict_find message "msg" with Some v => v | None => VNone end)
    as -> by reflexivity.
  unfold Application_on_message, dict_item.
  destruct (run_callbacks_fields (cb_on_message app) message app)
    as (Ha & Hh & Hs & Hsent & Hcb).
  set (app0 := run_callbacks (cb_on_message app) message app) in *.
  assert (exists extra, sent app0 = (sent app ++ extra)%list) as Hnil.
  { exists []. by rewrite app_nil_r. }
  destruct (dict_find message "msg") as [msg|] eqn:Hmsg; simpl.
  2: { rewrite orb_false_r. by split_and!. }
  destruct (py_eq_str msg "connect") eqn:Hc; simpl.
  - destruct (py_eq_str (dict_get message "version") "1") eqn:Hv; simpl.
    + rewrite orb_true_r. split_and!; try done. eexists. by rewrite Hsent.
    + rewrite orb_false_r. split_and!; try done. eexists. by rewrite Hsent.
  - rewrite orb_false_r.
    destruct (handshake app0) eqn:Hh0; simpl.
    2: { split_and!; try congruence. eexists. by rewrite Hsent. }
    assert (exists r1 mw1 app1,
              (if py_eq_str msg "method"
               then Application_call_method py now mw app0 message
               else (Ok tt, (mw, app0))) = (r1, (mw1, app1))
              /\ authenticated app1 = authenticated app0
              /\ handshake app1 = handshake app0
              /\ sessionid app1 = sessionid app0
              /\ cb_on_message app1 = cb_on_message app0
              /\ exists extra, sent app1 = (sent app0 ++ extra)%list)
      as (r1 & mw1 & app1 & -> & B1 & B2 & B3 & B4 & extra & B5).
    { destruct (py_eq_str msg "method").
      - pose proof (Application_call_method_session py now mw app0 message)
          as (C1 & C2 & C3 & C4 & _ & C6).
        destruct (Application_call_method py now mw app0 message)
          as [r1 [mw1 app1]]. exists r1, mw1, app1. by split_and!.
      - exists (Ok tt), mw, app0. split_and!; try done.
        exists []. by rewrite app_nil_r. }
    destruct r1 as [[]|e]; simpl.
    + destruct (authenticated app1) eqn:Ha1; simpl.
      * split_and!; try congruence. eexists. by rewrite B5, Hsent.
      * pose proof (send_error_fields app1 message "Not authenticated" VNone)
          as (D1 & D2 & extra2 & D3).
        pose proof (send_error_session app1 message "Not authenticated" VNone)
          as (E1 & E2 & _).
        destruct (Application_send_error app1 message "Not authenticated"
                    VNone) as [r2 app2]; simpl in *.
        split_and!; try congruence.
        eexists. by rewrite D3, B5, Hsent, <- app_assoc.
    + split_and!; try congruence. eexists. by rewrite B5, Hsent.
Qed.

(** ** Middleware.run_job *)

(** X22: [run_job] on a job in Waiting, the state [Job.__init__] gives it:
    when the method raises, the job goes to Failed and [run_job] raises
    the same; when the method returns, the result is stored, but
    [set_state('SUCCESS')] is refused for a job in Waiting, so [run_job]
    raises [AssertionError] and the job stays in Waiting. *)
Theorem run_job_on_waiting_job now mw job j r :
  mw_heap mw !! job = Some j -> Job_state j = WAITING ->
  let out := Middleware_run_job now mw job r in
  services out.2 = services mw /\ mw_jobs out.2 = mw_jobs mw
  /\ match r with
     | Raise e =>
         out.1 = Raise e
         /\ mw_heap out.2 = <[job := Job_moved j FAILED now]> (mw_heap mw)
     | Ok v =>
         out.1 = Raise AssertionError
         /\ mw_heap out.2 = <[job := Job_set_result j v]> (mw_heap mw)
         /\ Job_state (Job_set_result j v) = WAITING
     end.
Proof.
  intros Hj Hs out. subst out. unfold Middleware_run_job. rewrite Hj.
  destruct r as [v|e].
  - assert (Job_set_state now (Job_set_result j v) "SUCCESS"
            = Raise AssertionError) as ->.
    { destruct j; simpl in *. by subst. }
    simpl. by split_and!.
  - assert (Job_set_state now j "FAILED" = Ok (Job_moved j FAILED now)) as ->.
    { destruct j; simpl in *. by subst. }
    simpl. by split_and!.
Qed.

Definition mw_one_job : Middleware :=
  mkMiddleware [] (JobsDeque_init 1000)
    [Job_init job_body [] (mkOptions LockAbsent) 0] [] [].

Lemma run_job_on_waiting_job_witness :
  (Middleware_run_job 4 mw_one_job 0 (Ok (VInt 1))).1 = Raise AssertionError
  /\ (Job_state <$> mw_heap (Middleware_run_job 4 mw_one_job 0
                               (Ok (VInt 1))).2 !! 0%nat) = Some WAITING
  /\ (Job_result <$> mw_heap (Middleware_run_job 4 mw_one_job 0
                                (Ok (VInt 1))).2 !! 0%nat) = Some (VInt 1).
Proof.
  destruct (run_job_on_waiting_job 4 mw_one_job 0%nat
              (Job_init job_body [] (mkOptions LockAbsent) 0) (Ok (VInt 1))
              eq_refl eq_refl) as (_ & _ & H1 & H2 & _).
  split; [exact H1|]. rewrite H2. by split.
Defined.

(** ** main.py: the registries of the middleware *)

(** [d[k] = v] on a dict kept as an association list: an existing key
    keeps its place. *)
Fixpoint assoc_set {A : Type} (l : list (string * A)) (k : string) (v : A)
    : list (string * A) :=
  match l with
  | [] => [(k, v)]
  | (k', v') :: l' =>
      if String.eqb k' k then (k, v) :: l' else (k', v') :: assoc_set l' k v
  end.

(** [Middleware.add_service(self, service)], [namespace] being
    [service._config.namespace]. *)
Definition Middleware_add_service (mw : Middleware) (namespace : string)
    (service : Service) : Middleware :=
  {| services := assoc_set (services mw) namespace service;
     mw_jobs := mw_jobs mw; mw_heap := mw_heap mw;
     invoked := invoked mw; spawned := spawned mw |}.

Definition Middleware_get_services (mw : Middleware)
    : list (string * Service) := services mw.

Definition quote_char : string := String (ascii_of_nat 34) "".

(** [Middleware.add_schema(self, schema)] on the dict [self.__schemas],
    [name] being [schema.name]. *)
Definition Middleware_add_schema {A : Type} (schemas : list (string * A))
    (name : string) (schema : A) : result (list (string * A)) :=
  match assoc schemas name with
  | Some _ =>
      Raise (ValueError ("Schema " ++ quote_char ++ name ++ quote_char
                         ++ " is already registered"))
  | None => Ok (assoc_set schemas name schema)
  end.

(** [Middleware.get_schema(self, name)] *)
Definition Middleware_get_schema {A : Type} (schemas : list (string * A))
    (name : string) : option A := assoc schemas name.

(** [Middleware.call(self, method, *params)] *)
Definition Middleware_call (mw : Middleware) (method : string)
    (params : list pyarg) : result value * Middleware :=
  match rsplit_dot method with
  | None => (Raise (ValueError "need more than 1 value to unpack"), mw)
  | Some (service, method) =>
      match Middleware_get_service mw service with
      | Raise e => (Raise e, mw)
      | Ok svc =>
          match service_getattr svc method with
          | Raise e => (Raise e, mw)
          | Ok m =>
              (body m params,
               mw_with_invoked mw
                 (invoked mw ++ [(service, method, params)])%list)
          end
      end
  end.

Lemma assoc_assoc_set {A : Type} (l : list (string * A)) k v k' :
  assoc (assoc_set l k v) k' = if String.eqb k k' then Some v else assoc l k'.
Proof.
  induction l as [|[k0 v0] l IH]; simpl.
  - done.
  - destruct (String.eqb_spec k0 k) as [->|Hne]; simpl.
    + by destruct (String.eqb k k').
    + rewrite IH. destruct (String.eqb_spec k0 k') as [->|Hne'].
      * destruct (String.eqb_spec k k'); [congruence|done].
      * done.
Qed.

(** X23: A service is found under the namespace it was added with; adding a
    second service under the same namespace replaces the first without an
    error; the other namespaces are not touched; and a namespace that was
    never added raises [KeyError]. *)
Theorem get_service_after_add mw namespace service name :
  Middleware_get_service (Middleware_add_service mw namespace service) name =
    (if String.eqb namespace name then Ok service
     else Middleware_get_service mw name)
  /\ (assoc (services mw) name = None ->
      Middleware_get_service mw name = Raise (KeyError name)).
Proof.
  unfold Middleware_get_service, Middleware_add_service. simpl.
  rewrite assoc_assoc_set. split.
  - by destruct (String.eqb namespace name).
  - by intros ->.
Qed.

Lemma get_service_after_add_witness :
  Middleware_get_service mw_system "core" = Raise (KeyError "core").
Proof.
  by apply (proj2 (get_service_after_add mw_system "core" svc_system "core")).
Defined.

(** X24: A schema is registered once: [add_schema] under a name that is taken
    raises [ValueError] and gives no new registry; under a free name the
    schema is found by [get_schema] afterwards and the other names lead
    where they led before. *)
Theorem add_schema_once {A : Type} (schemas : list (string * A)) name
    (schema : A) :
  match Middleware_add_schema schemas name schema with
  | Ok schemas' =>
      Middleware_get_schema schemas name = None
      /\ (forall n, Middleware_get_schema schemas' n =
                    if String.eqb name n then Some schema
                    else Middleware_get_schema schemas n)
      /\ exists e, Middleware_add_schema schemas' name schema = Raise e
                   /\ exn_type e = "ValueError"
  | Raise e =>
      is_Some (Middleware_get_schema schemas name)
      /\ exn_type e = "ValueError"
  end.
Proof.
  unfold Middleware_add_schema, Middleware_get_schema.
  destruct (assoc schemas name) as [old|] eqn:Hold.
  - split; [by eexists|done].
  - split; [done|]. split.
    + intros n. apply assoc_assoc_set.
    + rewrite assoc_assoc_set, String.eqb_refl. by eexists.
Qed.

(** [Middleware.call], the call from inside the daemon, does not look at
    the marks of the method: a method that resolves has its body called
    inline with the parameters as they are, also when it needs
    authentication or is marked as a job, cases in which [call_method]
    refuses an unauthenticated session or raises. *)
Theorem call_ignores_marks mw full service method svc m params :
  rsplit_dot full = Some (service, method) ->
  assoc (services mw) service = Some svc ->
  assoc (svc_methods svc) method = Some m ->
  Middleware_call mw full params =
    (body m params,
     mw_with_invoked mw (invoked mw ++ [(service, method, params)])%list).
Proof.
  intros Hsplit Hsvc Hm.
  unfold Middleware_call, Middleware_get_service, service_getattr.
  by rewrite Hsplit, Hsvc, Hm.
Qed.

Lemma call_ignores_marks_witness :
  Middleware_call mw_system "system.backup" [AVal (VStr "tank")] =
    (Ok VNone,
     mw_with_invoked mw_system
       [("system", "backup", [AVal (VStr "tank")])]).
Proof.
  apply (call_ignores_marks mw_system "system.backup" "system" "backup"
           svc_system (mkMethod false false true (fun _ => Ok VNone)));
    reflexivity.
Defined.

(** ** How a method name is split *)

Fixpoint no_dot (s : string) : bool :=
  match s with
  | EmptyString => true
  | String c rest => negb (Ascii.eqb c "."%char) && no_dot rest
  end.

Lemma rsplit_dot_None s : rsplit_dot s = None <-> no_dot s = true.
Proof.
  induction s as [|c s IH]; simpl; [done|].
  destruct (rsplit_dot s) as [[a b]|].
  - split; [done|]. intros [_ H]%andb_true_iff. apply IH in H. done.
  - destruct (Ascii.eqb c "."%char); simpl; [done|]. by rewrite <- IH.
Qed.

(** X19: [call_method] and [call] split the name at its last dot: the method
    is what follows the last dot and has no dot in it, the service is all
    that comes before, dots included; a name is refused ([ValueError])
    exactly when it has no dot at all. *)
Theorem rsplit_dot_last_dot s :
  match rsplit_dot s with
  | Some (service, method) =>
      s = (service ++ "." ++ method)%string /\ no_dot method = true
  | None => no_dot s = true
  end
  /\ forall service method,
       no_dot method = true ->
       rsplit_dot (service ++ "." ++ method)%string = Some (service, method).
Proof.
  split.
  - induction s as [|c s IH]; simpl; [done|].
    destruct (rsplit_dot s) as [[a b]|] eqn:Hs.
    + destruct IH as [-> Hnd]. done.
    + destruct (Ascii.eqb_spec c "."%char) as [->|Hne]; simpl; [done|].
      by apply rsplit_dot_None.
  - intros service method Hnd. induction service as [|c service IH].
    + change (rsplit_dot (String "."%char method) = Some ("", method)).
      simpl. apply rsplit_dot_None in Hnd. by rewrite Hnd.
    + change (rsplit_dot (String c (service ++ "." ++ method)%string)
              = Some (String c service, method)).
      simpl. by rewrite IH.
Qed.

Lemma rsplit_dot_last_dot_witness :
  no_dot "info" = true
  /\ rsplit_dot "core.system.info" = Some ("core.system", "info").
Proof.
  split; [reflexivity|].
  exact (proj2 (rsplit_dot_last_dot "") "core.system" "info" eq_refl).
Defined.

(** ** main.py: Application._check_permission *)

Definition IndexError : exn := Exn "IndexError" "list index out of range" true.

(** The loop over the lines that sockstat printed, [cols] being
    [line.split()]: [cols[-1]] is read first and raises on a line without
    columns. *)
Fixpoint sockstat_root (remote : string) (lines : list (list string))
    : result bool :=
  match lines with
  | [] => Ok false
  | cols :: rest =>
      match last cols with
      | None => Raise IndexError
      | Some c =>
          if String.eqb c remote && String.eqb (hd "" cols) "root"
          then Ok true
          else sockstat_root remote rest
      end
  end.

(** [environ[real] if real in environ else environ[plain]] *)
Definition environ_get (environ : list (string * string)) (real plain : string)
    : result string :=
  match assoc environ real with
  | Some v => Ok v
  | None =>
      match assoc environ plain with
      | Some v => Ok v
      | None => Raise (KeyError plain)
      end
  end.

Definition is_loopback (addr : string) : bool :=
  String.eqb addr "127.0.0.1" || String.eqb addr "::1".

(** [Application._check_permission(self)].  [sockstat port] stands for the
    run of [/usr/bin/sockstat -46c -p port]: the lines of its output
    (after [strip().splitlines()]), each split in columns. *)
Definition Application_check_permission (environ : list (string * string))
    (sockstat : string -> list (list string)) : result bool :=
  match environ_get environ "HTTP_X_REAL_REMOTE_ADDR" "REMOTE_ADDR" with
  | Raise e => Raise e
  | Ok remote_addr =>
      match environ_get environ "HTTP_X_REAL_REMOTE_PORT" "REMOTE_PORT" with
      | Raise e => Raise e
      | Ok remote_port =>
          if negb (is_loopback remote_addr) then Ok false
          else sockstat_root (remote_addr ++ ":" ++ remote_port)%string
                 (tail (sockstat remote_port))
      end
  end.

Definition root_line (remote : string) (cols : list string) : bool :=
  match last cols with
  | Some c => String.eqb c remote && String.eqb (hd "" cols) "root"
  | None => false
  end.

Lemma sockstat_root_existsb remote lines :
  Forall (fun cols => cols <> []) lines ->
  sockstat_root remote lines = Ok (existsb (root_line remote) lines).
Proof.
  induction 1 as [|cols lines Hne _ IH]; simpl; [done|].
  unfold root_line at 1. destruct (last cols) as [c|] eqn:Hl.
  - destruct (String.eqb c remote && String.eqb (hd "" cols) "root"); simpl;
      [done|exact IH].
  - apply last_None in Hl. done.
Qed.

Lemma environ_get_cases environ real plain v :
  assoc environ real = Some v
  \/ (assoc environ real = None /\ assoc environ plain = Some v) ->
  environ_get environ real plain = Ok v.
Proof. unfold environ_get. by intros [-> | [-> ->]]. Qed.

Lemma root_line_spec remote cols :
  root_line remote cols = true
  <-> head cols = Some "root" /\ last cols = Some remote.
Proof.
  unfold root_line. destruct cols as [|c0 cols]; simpl; [by split; [|intros []]|].
  destruct (last (c0 :: cols)) as [c|]; [|by split; [|intros []]].
  rewrite andb_true_iff, !String.eqb_eq. split.
  - by intros [-> ->].
  - by intros [[= ->] [= ->]].
Qed.

(** X25: A session is authenticated exactly when its peer address, taken from
    the X-Real header when there is one and from REMOTE_ADDR otherwise, is
    127.0.0.1 or ::1 and some line of sockstat's output after the first
    one has "root" as first column and "address:port" as last; a peer
    from another address is never authenticated, whatever sockstat
    prints. *)
Theorem check_permission_loopback_root environ sockstat addr port :
  assoc environ "HTTP_X_REAL_REMOTE_ADDR" = Some addr
  \/ (assoc environ "HTTP_X_REAL_REMOTE_ADDR" = None
      /\ assoc environ "REMOTE_ADDR" = Some addr) ->
  assoc environ "HTTP_X_REAL_REMOTE_PORT" = Some port
  \/ (assoc environ "HTTP_X_REAL_REMOTE_PORT" = None
      /\ assoc environ "REMOTE_PORT" = Some port) ->
  (addr <> "127.0.0.1" -> addr <> "::1" ->
   Application_check_permission environ sockstat = Ok false)
  /\ (Forall (fun cols => cols <> []) (tail (sockstat port)) ->
      (Application_check_permission environ sockstat = Ok true
       \/ Application_check_permission environ sockstat = Ok false)
      /\ (Application_check_permission environ sockstat = Ok true
          <-> (addr = "127.0.0.1" \/ addr = "::1")
              /\ exists cols,
                   cols ∈ tail (sockstat port)
                   /\ head cols = Some "root"
                   /\ last cols = Some (addr ++ ":" ++ port)%string)).
Proof.
  intros Ha Hp. unfold Application_check_permission.
  rewrite (environ_get_cases _ _ _ _ Ha), (environ_get_cases _ _ _ _ Hp).
  unfold is_loopback. split.
  - intros H4%String.eqb_neq H6%String.eqb_neq. by rewrite H4, H6.
  - intros Hall.
    assert (sockstat_root (addr ++ ":" ++ port)%string (tail (sockstat port))
            = Ok true
            <-> exists cols,
                  cols ∈ tail (sockstat port)
                  /\ head cols = Some "root"
                  /\ last cols = Some (addr ++ ":" ++ port)%string) as Hroot.
    { rewrite (sockstat_root_existsb _ _ Hall). split.
      - intros [= Hex].
        apply existsb_exists in Hex as (cols & Hin & [Hh Hl]%root_line_spec).
        exists cols. split_and!; [by apply list_elem_of_In|done|done].
      - intros (cols & Hin & Hh & Hl). f_equal.
        apply existsb_exists. exists cols.
        split; [by apply list_elem_of_In|by apply root_line_spec]. }
    assert (sockstat_root (addr ++ ":" ++ port)%string (tail (sockstat port))
            = Ok true
            \/ sockstat_root (addr ++ ":" ++ port)%string
                 (tail (sockstat port)) = Ok false) as Hbool.
    { rewrite (sockstat_root_existsb _ _ Hall).
      destruct (existsb _ _); [by left|by right]. }
    destruct (String.eqb_spec addr "127.0.0.1") as [H4|H4]; simpl.
    { split; [done|]. rewrite Hroot. split; [by auto|by intros [_ ?]]. }
    destruct (String.eqb_spec addr "::1") as [H6|H6]; simpl.
    { split; [done|]. rewrite Hroot. split; [by auto|by intros [_ ?]]. }
    split; [by right|]. split; [done|]. by intros [[?|?] _].
Qed.

Definition environ_local : list (string * string) :=
  [("REMOTE_ADDR", "10.0.0.5"); ("REMOTE_PORT", "999");
   ("HTTP_X_REAL_REMOTE_ADDR", "127.0.0.1");
   ("HTTP_X_REAL_REMOTE_PORT", "51234")].

Definition sockstat_local (port : string) : list (list string) :=
  [["USER"; "COMMAND"; "PID"; "FD"; "PROTO"; "LOCAL"; "FOREIGN"];
   ["www"; "nginx"; "812"; "9"; "tcp4"; "127.0.0.1:6000"; "127.0.0.1:51234"];
   ["root"; "python"; "901"; "5"; "tcp4"; "127.0.0.1:6000"; "127.0.0.1:51234"]].

Definition sockstat_v6 (port : string) : list (list string) :=
  [["USER"; "COMMAND"; "PID"; "FD"; "PROTO"; "LOCAL"; "FOREIGN"];
   ["root"; "python"; "901"; "5"; "tcp6"; "::1:6000"; "::1:40000"]].

Lemma check_permission_loopback_root_witness :
  Application_check_permission environ_local sockstat_local = Ok true
  /\ Application_check_permission
       [("REMOTE_ADDR", "::1"); ("REMOTE_PORT", "40000")] sockstat_v6 = Ok true
  /\ Application_check_permission
       [("REMOTE_ADDR", "10.0.0.5"); ("REMOTE_PORT", "999")]
       (fun _ => [[]; ["root"; "10.0.0.5:999"]]) = Ok false.
Proof.
  split_and!.
  - apply (proj2 (check_permission_loopback_root environ_local sockstat_local
                    "127.0.0.1" "51234" (or_introl eq_refl)
                    (or_introl eq_refl))).
    { repeat constructor; discriminate. }
    split; [by left|].
    exists ["root"; "python"; "901"; "5"; "tcp4"; "127.0.0.1:6000";
            "127.0.0.1:51234"].
    split_and!; [|reflexivity..].
    apply list_elem_of_further, list_elem_of_here.
  - apply (proj2 (check_permission_loopback_root
                    [("REMOTE_ADDR", "::1"); ("REMOTE_PORT", "40000")]
                    sockstat_v6 "::1" "40000"
                    (or_intror (conj eq_refl eq_refl))
                    (or_intror (conj eq_refl eq_refl)))).
    { repeat constructor; discriminate. }
    split; [by right|].
    exists ["root"; "python"; "901"; "5"; "tcp6"; "::1:6000"; "::1:40000"].
    split_and!; [|reflexivity..]. apply list_elem_of_here.
  - apply (proj1 (check_permission_loopback_root
                    [("REMOTE_ADDR", "10.0.0.5"); ("REMOTE_PORT", "999")]
                    (fun _ => [[]; ["root"; "10.0.0.5:999"]])
                    "10.0.0.5" "999"
                    (or_intror (conj eq_refl eq_refl))
                    (or_intror (conj eq_refl eq_refl))));
      discriminate.
Defined.

(** ** Job.set_progress and the snapshot of a job *)

(** X14: [set_progress] writes the progress and nothing else.  A percent
    that is neither [None] nor an [int] (a [bool] counts as one; a [long],
    or a number beyond [sys.maxint], does not) is refused with
    [AssertionError] before anything is written, description included; a
    percent of [None] keeps the old percent; a description that is [None]
    or empty keeps the old description. *)
Theorem set_progress_cases py j pct descr :
  let is_int :=
    (exists b, pct = VBool b)
    \/ (exists n, pct = VInt n
                  /\ - sys_maxint py - 1 <= n <= sys_maxint py) in
  match Job_set_progress py j pct descr with
  | Ok j' =>
      (pct = VNone \/ is_int)
      /\ percent (Job_progress j') =
           match pct with
           | VNone => percent (Job_progress j)
           | _ => pct
           end
      /\ description (Job_progress j') =
           (if truthy descr then descr else description (Job_progress j))
      /\ Job_state j' = Job_state j /\ Job_result j' = Job_result j
      /\ Job_id j' = Job_id j /\ Job_lock j' = Job_lock j
      /\ Job_time_finished j' = Job_time_finished j
  | Raise e => e = AssertionError /\ pct <> VNone /\ ~ is_int
  end.
Proof.
  intros is_int. subst is_int. unfold Job_set_progress.
  destruct pct as [|b|n|n|s|l|d]; simpl.
  - destruct (truthy descr); simpl; split_and!; by auto.
  - split_and!; try done. right. left. by exists b.
  - destruct (Z.leb_spec (- sys_maxint py - 1) n),
             (Z.leb_spec n (sys_maxint py)); simpl.
    + split_and!; try done. right. right. exists n. split; [done|lia].
    + split_and!; try done. intros [[b [=]]|(n' & [= <-] & ?)]. lia.
    + split_and!; try done. intros [[b [=]]|(n' & [= <-] & ?)]. lia.
    + split_and!; try done. intros [[b [=]]|(n' & [= <-] & ?)]. lia.
  - split_and!; try done. by intros [[b [=]]|(n' & [=] & ?)].
  - split_and!; try done. by intros [[b [=]]|(n' & [=] & ?)].
  - split_and!; try done. by intros [[b [=]]|(n' & [=] & ?)].
  - split_and!; try done. by intros [[b [=]]|(n' & [=] & ?)].
Qed.

(** A [long] is refused, whatever its value, and so is the number after
    [sys.maxint]. *)
Example set_progress_long py j :
  Job_set_progress py j (VLong 50) VNone = Raise AssertionError
  /\ Job_set_progress python_example j (VInt 9223372036854775808) VNone
     = Raise AssertionError.
Proof. by split. Qed.

(** X15: The snapshot [__encode__] gives for a job of a reachable state: its
    id is the submission number, its state is the name of a member of
    [State] that [State.__members__] maps back to the job's state, and
    its [time_finished] is [None] exactly when the state is "WAITING". *)
Theorem snapshot_of_reachable_job t s a j :
  run_trace System_init t = Some s ->
  heap_jobs (world s) !! a = Some j ->
  dict_find (Job_encode j) "id" = Some (VInt (Z.of_nat a + 1))
  /\ (exists name,
        dict_find (Job_encode j) "state" = Some (VStr name)
        /\ State_members name = Ok (Job_state j))
  /\ (dict_find (Job_encode j) "time_finished" = Some VNone
      <-> dict_find (Job_encode j) "state" = Some (VStr "WAITING")).
Proof.
  intros Hrun Ha.
  destruct (job_ids_spec _ _ Hrun) as [Hids _].
  pose proof (time_finished_spec _ _ _ _ Hrun Ha) as Htf.
  specialize (Hids _ _ Ha). unfold Job_encode. simpl. rewrite Hids.
  split; [done|]. split.
  - exists (State_name (Job_state j)). split; [done|apply State_members_name].
  - destruct Htf as [H1 H2].
    destruct (Job_time_finished j) as [tf|], (Job_state j); simpl;
      split; intros H; try done; try discriminate;
      first [specialize (H1 eq_refl); discriminate
            |specialize (H2 eq_refl); discriminate].
Qed.

Lemma snapshot_of_reachable_job_witness :
  exists j,
    heap_jobs (world state_one_name) !! 1%nat = Some j
    /\ dict_find (Job_encode j) "id" = Some (VInt 2)
    /\ dict_find (Job_encode j) "state" = Some (VStr "WAITING")
    /\ dict_find (Job_encode j) "time_finished" = Some VNone.
Proof.
  assert (run_trace System_init trace_one_name = Some state_one_name) as Hrun
    by (vm_compute; reflexivity).
  destruct (heap_jobs (world state_one_name) !! 1%nat) as [j|] eqn:Hj;
    [|vm_compute in Hj; discriminate].
  destruct (snapshot_of_reachable_job _ _ _ _ Hrun Hj) as (H1 & _ & H3).
  exists j. split; [done|]. split; [exact H1|].
  assert (dict_find (Job_encode j) "state" = Some (VStr "WAITING")) as Hst.
  { vm_compute in Hj. injection Hj as <-. reflexivity. }
  split; [exact Hst|]. by apply H3.
Defined.

(** ** Running under the lock *)

(** X8: In every reachable state a job in Running holds its lock: the lock
    in its [lock] field is the one the registry has under the job's lock
    name, the job is in its list and its semaphore is taken.  The lock is
    given back only after the job has left Running. *)
Theorem running_job_holds_lock t s job j :
  run_trace System_init t = Some s ->
  heap_jobs (world s) !! job = Some j ->
  Job_state j = RUNNING ->
  exists name l L,
    Job_get_lock_name j = Some name /\ Job_lock j = Some l
    /\ job_locks (world s) !! name = Some l
    /\ heap_locks (world s) !! l = Some L /\ Lock_name L = name
    /\ job ∈ Lock_jobs L /\ JobSharedLock_locked L = true
    /\ tasks s !! job = Some InMethod.
Proof.
  intros Hrun Hj Hs.
  assert (SInv s) as [(Hreg & _ & Hhold & _) Hr]
    by (eapply run_trace_SInv; [apply SInv_init|done]).
  pose proof (Hr _ _ Hj Hs) as Ht.
  assert (active (tasks s) job) as Hact by (by right).
  destruct (Hhold _ Hact) as (l & j' & L & Hj' & Hl & HL & Hin & Hsem & Hn).
  assert (j' = j) as -> by congruence.
  exists (Lock_name L), l, L. split_and!; try done.
  - destruct Hreg as [_ H2]. apply H2; [done|].
    intros Heq. rewrite Heq in Hin. by apply not_elem_of_nil in Hin.
  - unfold JobSharedLock_locked. rewrite Hsem. done.
Qed.

Lemma running_job_holds_lock_witness :
  exists j name l L,
    heap_jobs (world state_one_name) !! 0%nat = Some j
    /\ Job_state j = RUNNING
    /\ Job_get_lock_name j = Some name /\ Job_lock j = Some l
    /\ heap_locks (world state_one_name) !! l = Some L
    /\ JobSharedLock_locked L = true.
Proof.
  assert (run_trace System_init trace_one_name = Some state_one_name) as Hrun
    by (vm_compute; reflexivity).
  destruct (heap_jobs (world state_one_name) !! 0%nat) as [j|] eqn:Hj;
    [|vm_compute in Hj; discriminate].
  assert (Job_state j = RUNNING) as Hs.
  { vm_compute in Hj. by injection Hj as <-. }
  destruct (running_job_holds_lock _ _ _ _ Hrun Hj Hs)
    as (name & l & L & H1 & H2 & _ & H4 & _ & _ & H7 & _).
  exists j, name, l, L. by split_and!.
Defined.

(** ** A job is handed to a greenlet once *)

(** Between [w] and [w'] the queue was not touched and only the job at
    [job] was written in the store of jobs. *)
Definition Touch (job : nat) (w w' : World) : Prop :=
  queue w' = queue w
  /\ length (heap_jobs w') = length (heap_jobs w)
  /\ forall a, a <> job -> heap_jobs w' !! a = heap_jobs w !! a.

Lemma Touch_refl job w : Touch job w w.
Proof. by split_and!. Qed.

Lemma Touch_trans job a b c : Touch job a b -> Touch job b c -> Touch job a c.
Proof.
  intros (A1 & A2 & A3) (B1 & B2 & B3). split_and!; try congruence.
  intros k Hk. by rewrite B3, A3.
Qed.

Lemma store_job_Touch job w j : Touch job w (store_job w job j).
Proof.
  split_and!; simpl; [done|by rewrite length_insert|].
  intros a Ha. by rewrite list_lookup_insert_ne.
Qed.

Lemma release_lock_Touch job w : Touch job w (JobsQueue_release_lock w job).2.
Proof.
  unfold JobsQueue_release_lock, JobSharedLock_remove_job.
  repeat (break_match; simpl); by split_and!.
Qed.

Lemma run_finally_Touch job w pending :
  Touch job w (Job_run_finally w job pending).2.
Proof.
  unfold Job_run_finally. pose proof (release_lock_Touch job w) as H.
  by destruct (JobsQueue_release_lock w job) as [[|] w1].
Qed.

Lemma run_except_Touch now job w e : Touch job w (Job_run_except now w job e).2.
Proof.
  unfold Job_run_except.
  destruct (heap_jobs w !! job) as [j|]; [|apply Touch_refl].
  destruct (Job_set_state now j "FAILED") as [j'|e'].
  - eapply Touch_trans; [apply store_job_Touch|apply run_finally_Touch].
  - apply run_finally_Touch.
Qed.

Lemma run_begin_Touch now job w : Touch job w (Job_run_begin now w job).2.
Proof.
  unfold Job_run_begin.
  destruct (heap_jobs w !! job) as [j|]; [|apply Touch_refl].
  destruct (Job_set_state now j "RUNNING") as [j'|e'].
  - apply store_job_Touch.
  - apply run_except_Touch.
Qed.

Lemma run_end_Touch now job w r : Touch job w (Job_run_end now w job r).2.
Proof.
  unfold Job_run_end. destruct r as [v|e]; [|apply run_except_Touch].
  destruct (heap_jobs w !! job) as [j|]; [|apply Touch_refl].
  destruct (Job_set_state now (Job_set_result j v) "SUCCESS") as [j2|e'].
  - eapply Touch_trans; [apply store_job_Touch|].
    eapply Touch_trans; [apply store_job_Touch|apply run_finally_Touch].
  - eapply Touch_trans; [apply store_job_Touch|apply run_finally_Touch].
Qed.

(** The queue holds each job once; a queued job has no greenlet; a job
    without a greenlet is in Waiting; and queued jobs and jobs with a
    greenlet are in the store. *)
Definition QInv (s : System) : Prop :=
  NoDup (queue (world s))
  /\ (forall job, job ∈ queue (world s) -> tasks s !! job = None)
  /\ (forall job j, tasks s !! job = None ->
        heap_jobs (world s) !! job = Some j -> Job_state j = WAITING)
  /\ (forall job, job ∈ queue (world s) ->
        (job < length (heap_jobs (world s)))%nat)
  /\ (forall job, is_Some (tasks s !! job) ->
        (job < length (heap_jobs (world s)))%nat).

Lemma QInv_init : QInv System_init.
Proof.
  unfold QInv, System_init. simpl. split_and!.
  - constructor.
  - by intros job ?%not_elem_of_nil.
  - intros job j _ H. by rewrite lookup_nil in H.
  - by intros job ?%not_elem_of_nil.
  - intros job [p H]. by rewrite lookup_empty in H.
Qed.

(** A step on one job that has a greenlet and leaves the queue alone. *)
Lemma QInv_touch s job w' p :
  QInv s -> is_Some (tasks s !! job) -> Touch job (world s) w' ->
  QInv {| world := w'; tasks := <[job := p]> (tasks s);
          sched_alive := sched_alive s |}.
Proof.
  intros (Q1 & Q2 & Q3 & Q4 & Q5) Hjob (T1 & T2 & T3).
  unfold QInv. simpl. rewrite T1, T2. split_and!; try done.
  - intros job' Hin. pose proof (Q2 _ Hin) as Hnone.
    rewrite lookup_insert_ne; [done|]. intros ->.
    destruct Hjob as [? Hjob]. congruence.
  - intros job' j Hnone Hj.
    destruct (decide (job' = job)) as [->|Hne].
    + by rewrite lookup_insert_eq in Hnone.
    + rewrite lookup_insert_ne in Hnone by done.
      rewrite T3 in Hj by done. by eapply Q3.
  - intros job' [p' Hp]. destruct (decide (job' = job)) as [->|Hne].
    + by apply Q5.
    + rewrite lookup_insert_ne in Hp by done. apply Q5. by eexists.
Qed.

Lemma step_QInv s l s' : SInv s -> QInv s -> step s l = Some s' -> QInv s'.
Proof.
  intros Hinv HQ Hstep. pose proof HQ as (Q1 & Q2 & Q3 & Q4 & Q5).
  destruct l; simpl in Hstep.
  - injection Hstep as <-. unfold QInv. simpl.
    rewrite alter_snoc, length_app. simpl. split_and!.
    + apply NoDup_app. split_and!; [done| |apply NoDup_singleton].
      intros x Hx ->%list_elem_of_singleton. apply Q4 in Hx. lia.
    + intros job [Hin| ->%list_elem_of_singleton]%elem_of_app; [by apply Q2|].
      destruct (tasks s !! length (heap_jobs (world s))) as [p|] eqn:Hp;
        [|done].
      assert (is_Some (tasks s !! length (heap_jobs (world s)))) as Hs
        by (by eexists).
      apply Q5 in Hs. lia.
    + intros job j Hnone [Hj|[_ Hj]]%lookup_app_Some; [by eapply Q3|].
      apply list_lookup_singleton_Some in Hj as [_ <-]. done.
    + intros job [Hin| ->%list_elem_of_singleton]%elem_of_app;
        [apply Q4 in Hin|]; lia.
    + intros job Hs. apply Q5 in Hs. lia.
  - destruct (sched_alive s); [|done].
    assert (WReg (world s)) as Hw by (by destruct Hinv as [[? _] _]).
    unfold JobsQueue_next in Hstep.
    destruct (queue_event (world s)).
    2: { injection Hstep as <-. done. }
    destruct (JobsQueue_scan (world s) (queue (world s))) as [r w1] eqn:Hscan.
    destruct (scan_spec _ _ _ _ Hscan Hw)
      as (w0 & Hjobs & Hq & _ & _ & _ & _ & Hr).
    destruct r as [[found|]|e|]; [| | |done].
    + destruct Hr as (j & l & L & Hin & Hj & _ & _ & _ & _ & ->).
      destruct (scan_first_free _ _ _ _ Hscan Hw)
        as (pre & post & Hqueue & _ & _ & Hnin).
      assert (queue (took w0 found l L) = (pre ++ found :: post)%list) as Hq'.
      { simpl. by rewrite Hq. }
      rewrite Hq', (list_remove_middle _ _ _ Hnin) in Hstep.
      rewrite Hqueue in Q1, Q2, Q4.
      apply NoDup_app in Q1 as (N1 & N2 & N3).
      apply NoDup_cons in N3 as [N3 N4].
      assert (forall job, job ∈ (pre ++ post)%list ->
                job <> found /\ job ∈ (pre ++ found :: post)%list) as Hsub.
      { intros job [Hp|Hp]%elem_of_app.
        - split; [by intros ->|]. apply elem_of_app. by left.
        - split; [by intros ->|]. apply elem_of_app. right.
          by apply list_elem_of_further. }
      assert (QInv {| world := with_queue (took w0 found l L) (pre ++ post)%list;
                      tasks := <[found := Spawned]> (tasks s);
                      sched_alive := true |}) as Hnew.
      { unfold QInv. simpl. rewrite length_alter, Hjobs. split_and!.
        - apply NoDup_app. split_and!; try done.
          intros x Hx Hx'. apply (N2 x Hx). by apply list_elem_of_further.
        - intros job [Hne Hin']%Hsub. rewrite lookup_insert_ne by done.
          by apply Q2.
        - intros job j0 Hnone Hj0.
          destruct (decide (job = found)) as [->|Hne].
          + by rewrite lookup_insert_eq in Hnone.
          + rewrite lookup_insert_ne in Hnone by done.
            rewrite list_lookup_alter_ne in Hj0 by done. by eapply Q3.
        - intros job [_ Hin']%Hsub. by apply Q4.
        - intros job [p Hp]. destruct (decide (job = found)) as [->|Hne].
          + rewrite <- Hjobs. by eapply lookup_lt_Some.
          + rewrite lookup_insert_ne in Hp by done. apply Q5. by eexists. }
      destruct (Nat.eqb (length (pre ++ post)) 0);
        injection Hstep as <-; exact Hnew.
    + subst w1. injection Hstep as <-. unfold QInv. simpl.
      by rewrite Hq, Hjobs.
    + destruct Hr as (job & _ & _ & ->). injection Hstep as <-.
      unfold QInv. simpl. rewrite Hq, Hjobs, length_alter.
      split_and!; try done.
      intros job' j Hnone Hj. rewrite list_lookup_alter in Hj.
      case_decide as Heq; [|by eapply Q3]. subst job'.
      destruct (heap_jobs (world s) !! job) as [j0|] eqn:Hj0; [|done].
      injection Hj as <-. simpl. by eapply Q3.
  - destruct (tasks s !! job) as [[| |]|] eqn:Ht; try done.
    pose proof (run_begin_Touch now job (world s)) as Htouch.
    destruct (Job_run_begin now (world s) job) as [[|] w];
      injection Hstep as <-; by apply QInv_touch.
  - destruct (tasks s !! job) as [[| |]|] eqn:Ht; try done.
    pose proof (run_end_Touch now job (world s)
                  (Job_call_method (world s) job)) as Htouch.
    destruct (Job_run_end now (world s) job (Job_call_method (world s) job))
      as [r w]. injection Hstep as <-. by apply QInv_touch.
Qed.

Lemma run_trace_QInv t s s' :
  SInv s -> QInv s -> run_trace s t = Some s' -> SInv s' /\ QInv s'.
Proof.
  revert s. induction t as [|l t IH]; intros s Hinv HQ; simpl.
  - by intros [= <-].
  - destruct (step s l) as [s1|] eqn:Hstep; [|done].
    apply IH; [by eapply step_SInv|by eapply step_QInv].
Qed.

(** The order of the life of a greenlet of [job.run]. *)
Definition phase_rank (p : Phase) : nat :=
  match p with Spawned => 0 | InMethod => 1 | Finished => 2 end.

Lemma step_phase s l s' job p :
  SInv s -> QInv s -> step s l = Some s' -> tasks s !! job = Some p ->
  exists p', tasks s' !! job = Some p' /\ (phase_rank p <= phase_rank p')%nat.
Proof.
  intros Hinv (Q1 & Q2 & _) Hstep Hp. destruct l; simpl in Hstep.
  - injection Hstep as <-. by exists p.
  - destruct (sched_alive s); [|done].
    assert (WReg (world s)) as Hw by (by destruct Hinv as [[? _] _]).
    unfold JobsQueue_next in Hstep.
    destruct (queue_event (world s)).
    2: { injection Hstep as <-. by exists p. }
    destruct (JobsQueue_scan (world s) (queue (world s))) as [r w1] eqn:Hscan.
    destruct (scan_spec _ _ _ _ Hscan Hw)
      as (w0 & _ & Hq & _ & _ & _ & _ & Hr).
    destruct r as [[found|]|e|]; [| | |done].
    + destruct Hr as (j & l0 & L & _ & _ & _ & _ & _ & _ & ->).
      destruct (scan_first_free _ _ _ _ Hscan Hw)
        as (pre & post & Hqueue & _ & _ & Hnin).
      assert (queue (took w0 found l0 L) = (pre ++ found :: post)%list)
        as Hq'.
      { simpl. by rewrite Hq. }
      rewrite Hq', (list_remove_middle _ _ _ Hnin) in Hstep.
      assert (tasks s !! found = None) as Hnone.
      { apply Q2. rewrite Hqueue. apply elem_of_app. right.
        apply elem_of_cons. by left. }
      assert (found <> job) as Hne by (intros ->; congruence).
      exists p. split; [|done].
      destruct (Nat.eqb _ 0); injection Hstep as <-; simpl;
        by rewrite lookup_insert_ne.
    + injection Hstep as <-. by exists p.
    + injection Hstep as <-. by exists p.
  - destruct (tasks s !! job0) as [[| |]|] eqn:Ht; try done.
    destruct (Job_run_begin now (world s) job0) as [[|] w];
      injection Hstep as <-; simpl;
      (destruct (decide (job0 = job)) as [->|Hne];
       [rewrite lookup_insert_eq; eexists; split; [done|];
        assert (p = Spawned) as -> by congruence; simpl; lia
       |rewrite lookup_insert_ne by done; by exists p]).
  - destruct (tasks s !! job0) as [[| |]|] eqn:Ht; try done.
    destruct (Job_run_end now (world s) job0 (Job_call_method (world s) job0))
      as [r w]. injection Hstep as <-. simpl.
    destruct (decide (job0 = job)) as [->|Hne].
    + rewrite lookup_insert_eq. eexists. split; [done|].
      assert (p = InMethod) as -> by congruence. simpl. lia.
    + rewrite lookup_insert_ne by done. by exists p.
Qed.

Lemma run_trace_phase t s s' job p :
  SInv s -> QInv s -> run_trace s t = Some s' -> tasks s !! job = Some p ->
  exists p', tasks s' !! job = Some p' /\ (phase_rank p <= phase_rank p')%nat.
Proof.
  revert s p. induction t as [|l t IH]; intros s p Hinv HQ; simpl.
  - intros [= <-] Hp. by exists p.
  - destruct (step s l) as [s1|] eqn:Hstep; [|done]. intros Hrun Hp.
    destruct (step_phase _ _ _ _ _ Hinv HQ Hstep Hp) as (p1 & Hp1 & Hle1).
    destruct (IH s1 p1 (step_SInv _ _ _ Hinv Hstep)
                (step_QInv _ _ _ Hinv HQ Hstep) Hrun Hp1) as (p' & Hp' & Hle).
    exists p'. split; [done|lia].
Qed.

(** X7: [JobsQueue.next] and [JobsQueue.run] hand a job to a greenlet once.
    In every state reached from the empty queue the queue holds no job
    twice and every queued job is in Waiting with no greenlet; and once
    [JobsQueue.run] has spawned [job.run] for a job, whatever happens
    next the job is never in the queue again and its greenlet only moves
    forward (spawned, in the method, finished): it is not spawned a
    second time. *)
Theorem job_spawned_once t s :
  run_trace System_init t = Some s ->
  NoDup (queue (world s))
  /\ (forall a, a ∈ queue (world s) ->
        tasks s !! a = None /\ state_of s a = Some WAITING)
  /\ (forall job p t' s',
        tasks s !! job = Some p ->
        run_trace s t' = Some s' ->
        (job ∉ queue (world s'))
        /\ exists p', tasks s' !! job = Some p'
                      /\ (phase_rank p <= phase_rank p')%nat).
Proof.
  intros Hrun.
  destruct (run_trace_QInv _ _ _ SInv_init QInv_init Hrun) as [Hinv HQ].
  pose proof HQ as (Q1 & Q2 & Q3 & Q4 & _).
  split_and!.
  - done.
  - intros a Hin. split; [by apply Q2|]. unfold state_of.
    destruct (lookup_lt_is_Some_2 _ _ (Q4 _ Hin)) as [j Hj].
    rewrite Hj. simpl. f_equal. eapply Q3; [by apply Q2|done].
  - intros job p t' s' Hp Hrun'.
    destruct (run_trace_QInv _ _ _ Hinv HQ Hrun') as [_ (_ & Q2' & _)].
    destruct (run_trace_phase _ _ _ _ _ Hinv HQ Hrun' Hp) as (p' & Hp' & Hle).
    split; [|by exists p'].
    intros Hin. apply Q2' in Hin. congruence.
Qed.

Lemma job_spawned_once_witness :
  exists s',
    run_trace System_init trace_one_name = Some state_one_name
    /\ queue (world state_one_name) = [1%nat]
    /\ tasks state_one_name !! 1%nat = None
    /\ state_of state_one_name 1%nat = Some WAITING
    /\ run_trace state_one_name trace_finish_0 = Some s'
    /\ tasks state_one_name !! 0%nat = Some InMethod
    /\ tasks s' !! 0%nat = Some Finished
    /\ 0%nat ∉ queue (world s').
Proof.
  assert (run_trace System_init trace_one_name = Some state_one_name) as Hrun
    by (vm_compute; reflexivity).
  destruct (run_trace state_one_name trace_finish_0) as [s'|] eqn:Hrun';
    [|vm_compute in Hrun'; discriminate].
  assert (tasks state_one_name !! 0%nat = Some InMethod) as Hp
    by (vm_compute; reflexivity).
  assert (queue (world state_one_name) = [1%nat]) as Hq
    by (vm_compute; reflexivity).
  destruct (job_spawned_once _ _ Hrun) as (_ & Hqueued & Honce).
  destruct (Hqueued 1%nat) as [Hnone Hwait].
  { rewrite Hq. apply list_elem_of_here. }
  destruct (Honce _ _ _ _ Hp Hrun') as (Hnin & p' & Hp' & _).
  exists s'. split_and!; try done.
  vm_compute in Hrun'. injection Hrun' as <-. vm_compute. reflexivity.
Defined.

(** ** Jobs without a lock name *)

Lemma job_update_lock_name j j' :
  job_update j j' -> Job_get_lock_name j' = Job_get_lock_name j.
Proof.
  intros (_ & Hargs & Hopts & _)%job_update_facts.
  unfold Job_get_lock_name. by rewrite Hargs, Hopts.
Qed.

(** No job without a lock name has a greenlet. *)
Definition NoLock (s : System) : Prop :=
  forall job j,
    heap_jobs (world s) !! job = Some j -> Job_get_lock_name j = None ->
    tasks s !! job = None.

Lemma NoLock_init : NoLock System_init.
Proof. intros job j _ _. apply lookup_empty. Qed.

Lemma step_NoLock s l s' :
  SInv s -> QInv s -> NoLock s -> step s l = Some s' -> NoLock s'.
Proof.
  intros Hinv (_ & _ & _ & _ & Q5) HN Hstep job j' Hj' Hn.
  pose proof (step_Upd _ _ _ Hstep) as HU.
  destruct l.
  - destruct HU as [Hheap _]. rewrite Hheap in Hj'.
    assert (tasks s' = tasks s) as ->
      by (simpl in Hstep; by injection Hstep as <-).
    apply lookup_app_Some in Hj' as [Hj|[Hlen Hj]]; [by eapply HN|].
    apply list_lookup_singleton_Some in Hj as [Hz _].
    destruct (tasks s !! job) as [p|] eqn:Hp; [|done].
    assert (is_Some (tasks s !! job)) as Hs by (by eexists).
    apply Q5 in Hs. lia.
  - destruct HU as (_ & Hlen & Hupd).
    assert (exists j, heap_jobs (world s) !! job = Some j) as [j Hj].
    { apply lookup_lt_is_Some. rewrite <- Hlen. by eapply lookup_lt_Some. }
    destruct (Hupd _ _ Hj) as (j2 & Hj2 & Hu).
    assert (j2 = j') as -> by congruence.
    apply job_update_lock_name in Hu.
    assert (tasks s !! job = None) as Hnone
      by (eapply HN; [done|congruence]).
    simpl in Hstep. destruct (sched_alive s); [|done].
    assert (WReg (world s)) as Hw by (by destruct Hinv as [[? _] _]).
    unfold JobsQueue_next in Hstep.
    destruct (queue_event (world s)).
    2: { by injection Hstep as <-. }
    destruct (JobsQueue_scan (world s) (queue (world s))) as [r w1] eqn:Hscan.
    destruct (scan_spec _ _ _ _ Hscan Hw)
      as (w0 & Hjobs & Hq & _ & _ & _ & _ & Hr).
    destruct r as [[found|]|e|]; [| | |done].
    + destruct Hr as (j0 & l0 & L & _ & Hj0 & Hname & _ & _ & _ & ->).
      assert (found <> job) as Hne.
      { intros ->. rewrite Hjobs in Hj0. congruence. }
      destruct (list_remove found (queue (took w0 found l0 L))) as [q|];
        [|by injection Hstep as <-].
      destruct (Nat.eqb (length q) 0); injection Hstep as <-; simpl;
        by rewrite lookup_insert_ne.
    + by injection Hstep as <-.
    + by injection Hstep as <-.
  - destruct HU as (_ & Hlen & Hupd).
    assert (exists j, heap_jobs (world s) !! job = Some j) as [j Hj].
    { apply lookup_lt_is_Some. rewrite <- Hlen. by eapply lookup_lt_Some. }
    destruct (Hupd _ _ Hj) as (j2 & Hj2 & Hu).
    assert (j2 = j') as -> by congruence.
    apply job_update_lock_name in Hu.
    assert (tasks s !! job = None) as Hnone
      by (eapply HN; [done|congruence]).
    simpl in Hstep.
    destruct (tasks s !! job0) as [[| |]|] eqn:Ht; try done.
    assert (job0 <> job) as Hne by (intros ->; congruence).
    destruct (Job_run_begin now (world s) job0) as [[|] w];
      injection Hstep as <-; simpl; by rewrite lookup_insert_ne.
  - destruct HU as (_ & Hlen & Hupd).
    assert (exists j, heap_jobs (world s) !! job = Some j) as [j Hj].
    { apply lookup_lt_is_Some. rewrite <- Hlen. by eapply lookup_lt_Some. }
    destruct (Hupd _ _ Hj) as (j2 & Hj2 & Hu).
    assert (j2 = j') as -> by congruence.
    apply job_update_lock_name in Hu.
    assert (tasks s !! job = None) as Hnone
      by (eapply HN; [done|congruence]).
    simpl in Hstep.
    destruct (tasks s !! job0) as [[| |]|] eqn:Ht; try done.
    assert (job0 <> job) as Hne by (intros ->; congruence).
    destruct (Job_run_end now (world s) job0 (Job_call_method (world s) job0))
      as [r w]. injection Hstep as <-. simpl. by rewrite lookup_insert_ne.
Qed.

Lemma run_trace_NoLock t s s' :
  SInv s -> QInv s -> NoLock s -> run_trace s t = Some s' -> NoLock s'.
Proof.
  revert s. induction t as [|l t IH]; intros s Hinv HQ HN; simpl.
  - by intros [= <-].
  - destruct (step s l) as [s1|] eqn:Hstep; [|done].
    apply IH; [by eapply step_SInv|by eapply step_QInv|by eapply step_NoLock].
Qed.

(** Two jobs without a [lock] option are submitted and the scheduler loop
    takes a turn. *)
Definition trace_no_lock : list Label :=
  [LSubmit job_body [] (mkOptions LockAbsent) 1;
   LSubmit job_body [] (mkOptions LockAbsent) 2;
   LSched].

(** C2, the code at the failing input: two jobs without a lock name are
    submitted; the turn of the scheduler loop selects the first, calls
    [set_lock(None)] and ends with the [AttributeError], so the loop of
    [JobsQueue.run] is over, both jobs are still queued in Waiting with no
    greenlet, and no later turn is possible.  In general, in every state
    that can be reached a job without a lock name is in Waiting and has
    no greenlet: such jobs do not run together, they do not run at
    all. *)
Theorem jobs_without_lock_never_run :
  (exists s,
     run_trace System_init trace_no_lock = Some s
     /\ lock_name_of s 0 = None /\ lock_name_of s 1 = None
     /\ sched_alive s = false /\ queue (world s) = [0%nat; 1%nat]
     /\ state_of s 0 = Some WAITING /\ state_of s 1 = Some WAITING
     /\ tasks s !! 0%nat = None /\ tasks s !! 1%nat = None
     /\ step s LSched = None)
  /\ (forall t s job j,
        run_trace System_init t = Some s ->
        heap_jobs (world s) !! job = Some j ->
        Job_get_lock_name j = None ->
        Job_state j = WAITING /\ tasks s !! job = None).
Proof.
  split.
  - eexists. split; [vm_compute; reflexivity|]. by vm_compute.
  - intros t s job j Hrun Hj Hn.
    destruct (run_trace_QInv _ _ _ SInv_init QInv_init Hrun)
      as [Hinv HQ].
    pose proof (run_trace_NoLock _ _ _ SInv_init QInv_init NoLock_init Hrun)
      as HN.
    pose proof (HN _ _ Hj Hn) as Hnone. split; [|done].
    destruct HQ as (_ & _ & Q3 & _). by eapply Q3.
Qed.

Definition state_no_lock : System :=
  default System_init (run_trace System_init trace_no_lock).

Lemma jobs_without_lock_never_run_witness :
  run_trace System_init trace_no_lock = Some state_no_lock
  /\ (Job_get_lock_name <$> heap_jobs (world state_no_lock) !! 1%nat)
     = Some None
  /\ (Job_state <$> heap_jobs (world state_no_lock) !! 1%nat) = Some WAITING
  /\ tasks state_no_lock !! 1%nat = None.
Proof.
  assert (run_trace System_init trace_no_lock = Some state_no_lock) as Hrun
    by (vm_compute; reflexivity).
  destruct (heap_jobs (world state_no_lock) !! 1%nat) as [j|] eqn:Hj;
    [|vm_compute in Hj; discriminate].
  assert (Job_get_lock_name j = None) as Hn.
  { vm_compute in Hj. injection Hj as <-. reflexivity. }
  destruct (proj2 jobs_without_lock_never_run _ _ _ _ Hrun Hj Hn)
    as [Hst Hnone].
  split; [exact Hrun|]. simpl. rewrite Hn, Hst. by split_and!.
Defined.
